(** * solid-permissions: the Permission / PermissionSet access-control engine

    A shallow embedding of
    - module [modes] (the second part of [src/src/group-listing.js]),
    - class [GroupListing] ([src/src/group-listing.js]),
    - class [Permission] ([src/unnamed/part_003]; [permission-set.js] loads
      it under the name [Authorization]),
    - class [PermissionSet] ([src/src/permission-set.js], the version that
      starts at line 827 of the file),
    followed by the properties of the engine.

    Modelling conventions
    - JavaScript strings are [string]s (sequences of 8-bit characters);
      [Array.prototype.sort] without comparator is the sort by
      [String.leb], [startsWith] is [String.prefix], [toUpperCase] acts on
      the ASCII letters.
    - A property holding [null]/[undefined] or a string is an
      [option string]; [truthy] is JavaScript truthiness of such a value.
    - Objects used as hashmaps are [gmap]s / [gset]s keyed by strings
      (own properties only; a hashmap whose values are all [true] is the
      set of its keys).
    - [Permission] objects are shared between the [authorizations]
      collection and the indexes of a [PermissionSet]: they live in a store
      ([heap]) and are referred to by location.
    - A [throw] is the outcome [Throw]; the store keeps the mutations made
      before the throw.
    - A promise is modelled by its settlement ([Resolved] / [Rejected]);
      the continuation of a promise runs without interleaving with other
      calls on the same set.
    - The RDF library and the parsed graphs are external: a graph is the
      list of its triples, and the injected [fetchGraph] is a function to
      the settlement of the promise it returns. *)

From stdpp Require Import gmap strings list fin_maps sorting.

Open Scope string_scope.

(* ===================================================================== *)
(** ** JavaScript helpers *)
(* ===================================================================== *)

Module JS.

(** Truthiness of a value that is [null]/[undefined] or a string. *)
Definition truthy (v : option string) : bool :=
  match v with
  | Some EmptyString => false
  | Some (String _ _) => true
  | None => false
  end.

(** [a || b] on such values. *)
Definition or_else (a b : option string) : option string :=
  if truthy a then a else b.

(** String conversion of a nullable property, as done by [+]. *)
Definition string_of_null (v : option string) : string :=
  match v with Some s => s | None => "null" end.

Definition string_of_undefined (v : option string) : string :=
  match v with Some s => s | None => "undefined" end.

(** [String.prototype.toUpperCase] on the ASCII letters. *)
Definition upper_char (c : Ascii.ascii) : Ascii.ascii :=
  let n := Ascii.nat_of_ascii c in
  if (97 <=? n)%nat && (n <=? 122)%nat
  then Ascii.ascii_of_nat (n - 32) else c.

Fixpoint toUpperCase (s : string) : string :=
  match s with
  | EmptyString => EmptyString
  | String c s' => String (upper_char c) (toUpperCase s')
  end.

(** [s.startsWith(p)] *)
Definition startsWith (s p : string) : bool := String.prefix p s.

Fixpoint is_suffix_from (p : string) (s : string) : bool :=
  String.eqb p s ||
  match s with
  | EmptyString => false
  | String _ s' => is_suffix_from p s'
  end.

(** [s.endsWith(p)] *)
Definition endsWith (s p : string) : bool := is_suffix_from p s.

(** The character [':'] *)
Definition colon : Ascii.ascii := Ascii.ascii_of_nat 58.

(** Characters of [s] up to (not including) the first [':']. *)
Fixpoint upto_colon (s : string) : string :=
  match s with
  | EmptyString => EmptyString
  | String c s' =>
      if Ascii.eqb c colon then EmptyString else String c (upto_colon s')
  end.

(** [s.split(':')[1]]: the text between the first and the second colon
    ([None], i.e. [undefined], when [s] has no colon). *)
Fixpoint split_colon_1 (s : string) : option string :=
  match s with
  | EmptyString => None
  | String c s' =>
      if Ascii.eqb c colon then Some (upto_colon s') else split_colon_1 s'
  end.

(** Order used by [Array.prototype.sort()] on strings. *)
Definition str_le (a b : string) : Prop := String.leb a b = true.

#[global] Instance str_le_dec a b : Decision (str_le a b).
Proof. unfold str_le. apply _. Defined.

Definition sort (l : list string) : list string := merge_sort str_le l.

(** A string, or an RDF term/statement from which the code reads
    [.object.value] (resp. [.value]). *)
Inductive Term :=
| Str (s : string)
| Node (value : string).

Definition term_value (t : Term) : string :=
  match t with Str s => s | Node v => v end.

(** An argument that is either one value or an array of values. *)
Inductive OneOrMany (A : Type) :=
| One (a : A)
| Many (l : list A).
Arguments One {A} a.
Arguments Many {A} l.

(** Outcome of a synchronous call. [NoFuel] is not a JavaScript outcome:
    it only marks the exhaustion of the recursion budget of the model of
    [addAuthorization]. *)
Inductive outcome (A : Type) :=
| Ok (a : A)
| Throw (msg : string)
| NoFuel.
Arguments Ok {A} a.
Arguments Throw {A} msg.
Arguments NoFuel {A}.

(** Settlement of a promise. *)
Inductive promise (A : Type) :=
| Resolved (a : A)
| Rejected (msg : string).
Arguments Resolved {A} a.
Arguments Rejected {A} msg.

(** [p.then(f)] where [f] may throw or return a value. *)
Definition then_ {A B} (p : promise A) (f : A -> outcome B) : promise B :=
  match p with
  | Resolved a =>
      match f a with
      | Ok b => Resolved b
      | Throw msg => Rejected msg
      | NoFuel => Rejected "no fuel"
      end
  | Rejected msg => Rejected msg
  end.

(** [p.catch(f)] where [f] returns a value. *)
Definition catch_ {A} (p : promise A) (f : string -> A) : promise A :=
  match p with
  | Resolved a => Resolved a
  | Rejected msg => Resolved (f msg)
  end.

End JS.

Export JS.

(* ===================================================================== *)
(** ** Module [modes] *)
(* ===================================================================== *)

Module acl.

Definition READ : string := "http://www.w3.org/ns/auth/acl#Read".
Definition WRITE : string := "http://www.w3.org/ns/auth/acl#Write".
Definition APPEND : string := "http://www.w3.org/ns/auth/acl#Append".
Definition CONTROL : string := "http://www.w3.org/ns/auth/acl#Control".
Definition EVERYONE : string := "http://xmlns.com/foaf/0.1/Agent".
Definition ALL_MODES : list string := [READ; WRITE; CONTROL].

Definition INHERIT : bool := true.
Definition NOT_INHERIT : bool := negb INHERIT.

(** ['accessTo'] and ['default'] *)
Inductive AccessType := ACCESS_TO | DEFAULT.

Definition accessType_string (t : AccessType) : string :=
  match t with ACCESS_TO => "accessTo" | DEFAULT => "default" end.

#[global] Instance AccessType_eq_dec : EqDecision AccessType.
Proof. solve_decision. Defined.

#[global] Instance AccessType_countable : Countable AccessType.
Proof.
  refine (inj_countable'
            (fun t => match t with ACCESS_TO => false | DEFAULT => true end)
            (fun b => if b then DEFAULT else ACCESS_TO) _).
  by intros [].
Defined.

(** The property key denoted by [acl[key] || accessMode] in
    [allowsMode]: the members of the exported [acl] object, converted to
    the property key they index [accessModes] with ([NOT_INHERIT] is
    [false], so the [||] falls back to [accessMode]). *)
Definition lookup_or (key accessMode : string) : string :=
  if String.eqb key "ALL_MODES"
  then READ +:+ "," +:+ WRITE +:+ "," +:+ CONTROL
  else if String.eqb key "READ" then READ
  else if String.eqb key "WRITE" then WRITE
  else if String.eqb key "APPEND" then APPEND
  else if String.eqb key "CONTROL" then CONTROL
  else if String.eqb key "EVERYONE" then EVERYONE
  else if String.eqb key "INHERIT" then "true"
  else if String.eqb key "ACCESS_TO" then accessType_string ACCESS_TO
  else if String.eqb key "DEFAULT" then accessType_string DEFAULT
  else accessMode.

End acl.

Export acl.

(* ===================================================================== *)
(** ** Class [GroupListing] *)
(* ===================================================================== *)

Module Graph.

(** A parsed RDF graph, as far as the code queries it: a list of triples
    (subject, predicate, object value). *)
Record triple := mkTriple {
  subject : string;
  predicate : string;
  object : string
}.

Definition t := list triple.

Definition vcard_Group : string := "http://www.w3.org/2006/vcard/ns#Group".
Definition vcard_hasUID : string := "http://www.w3.org/2006/vcard/ns#hasUID".
Definition vcard_hasMember : string :=
  "http://www.w3.org/2006/vcard/ns#hasMember".

(** [graph.match(s, p)] *)
Definition match_sp (g : t) (s p : string) : list triple :=
  List.filter (fun tr => String.eqb (subject tr) s
                         && String.eqb (predicate tr) p) g.

(** [graph.anyValue(s, p)] *)
Definition anyValue (g : t) (s p : string) : option string :=
  match match_sp g s p with
  | [] => None
  | tr :: _ => Some (object tr)
  end.

(** String conversion of a term object ([NamedNode.toString]). *)
Definition node_toString (value : string) : string :=
  "<" +:+ value +:+ ">".

#[global] Instance triple_eq_dec : EqDecision triple.
Proof. solve_decision. Defined.

(** The terms of the access-control vocabulary ([solid-namespace]). *)
Definition rdf_type : string :=
  "http://www.w3.org/1999/02/22-rdf-syntax-ns#type".
Definition acl_Authorization : string :=
  "http://www.w3.org/ns/auth/acl#Authorization".
Definition acl_accessTo : string := "http://www.w3.org/ns/auth/acl#accessTo".
Definition acl_agent : string := "http://www.w3.org/ns/auth/acl#agent".
Definition acl_agentClass : string :=
  "http://www.w3.org/ns/auth/acl#agentClass".
Definition acl_agentGroup : string :=
  "http://www.w3.org/ns/auth/acl#agentGroup".
Definition acl_default : string := "http://www.w3.org/ns/auth/acl#default".
Definition acl_defaultForNew : string :=
  "http://www.w3.org/ns/auth/acl#defaultForNew".
Definition acl_mode : string := "http://www.w3.org/ns/auth/acl#mode".
Definition acl_origin : string := "http://www.w3.org/ns/auth/acl#origin".

(** [graph.match(null, null, o)] *)
Definition match_o (g : t) (o : string) : list triple :=
  List.filter (fun tr => String.eqb (object tr) o) g.

(** [graph.match(null, p)] *)
Definition match_p (g : t) (p : string) : list triple :=
  List.filter (fun tr => String.eqb (predicate tr) p) g.

(** [graph.match(s, p, o)] *)
Definition match_spo (g : t) (s p o : string) : list triple :=
  List.filter (fun tr => String.eqb (subject tr) s
                         && String.eqb (predicate tr) p
                         && String.eqb (object tr) o) g.

(** [graph.add(statements)]: the statements that the graph does not hold
    yet are appended. *)
Definition add (statements : list triple) (g : t) : t :=
  foldl (fun acc st =>
           if bool_decide (st ∈ acc) then acc else (acc ++ [st])%list)
    g statements.

End Graph.

Module GroupListing.

Record t := mk {
  uri : option string;
  uid : option string;
  members : gset string;
  listing : option Term;
  rdf : bool;
  graph : option Graph.t
}.

(** [new GroupListing({ uri, rdf })] *)
Definition new_uri (u : string) (rdf_lib : bool) : t :=
  {| uri := Some u; uid := None; members := ∅; listing := None;
     rdf := rdf_lib; graph := None |}.

(** [new GroupListing({ listing })] *)
Definition new_listing (l : Term) : t :=
  {| uri := None; uid := None; members := ∅; listing := Some l;
     rdf := false; graph := None |}.

(** The property key [webId] is turned into by
    [if (webId.value) { webId = webId.value }]. *)
Definition member_key (webId : Term) : string :=
  match webId with
  | Str s => s
  | Node v => if truthy (Some v) then v else Graph.node_toString v
  end.

Definition addMember (webId : Term) (g : t) : t :=
  {| uri := uri g; uid := uid g;
     members := {[ member_key webId ]} ∪ members g;
     listing := listing g; rdf := rdf g; graph := graph g |}.

Definition count (g : t) : nat := size (members g).

Definition hasMember (webId : Term) (g : t) : bool :=
  bool_decide (member_key webId ∈ members g).

(** The value of a parameter [x = this.x]: an argument that is omitted, or
    [undefined], is [None] and takes the value of the instance. *)
Definition or_own {A} (arg : option A) (own : A) : A :=
  match arg with
  | Some a => a
  | None => own
  end.

(** [initFromGraph (uri = this.uri, graph = this.graph, rdf = this.rdf)].
    Each argument is [None] when it is omitted; a given [uri] is its string,
    a given graph is [Some] of a graph or [None] for [null], a given [rdf]
    is whether it is a library. *)
Definition initFromGraph (u : option string)
    (graph_arg : option (option Graph.t)) (rdf_arg : option bool) (g : t)
    : outcome t :=
  let u := match u with Some _ => u | None => uri g end in
  let graph_arg := or_own graph_arg (graph g) in
  let rdf_lib := or_own rdf_arg (rdf g) in
  if negb (truthy u) then Throw "Group URI required to init from graph"
  else
    match graph_arg, rdf_lib with
    | Some gr, true =>
        let group := string_of_undefined u in
        let g1 := {| uri := uri g;
                     uid := Graph.anyValue gr group Graph.vcard_hasUID;
                     members := members g; listing := listing g;
                     rdf := rdf g; graph := graph g |} in
        Ok (foldl (fun acc memberMatch =>
                     addMember (Node (Graph.object memberMatch)) acc)
              g1 (Graph.match_sp gr group Graph.vcard_hasMember))
    | _, _ => Throw "initFromGraph() - graph or rdf library missing"
    end.

(** What the promise returned by the injected [fetchGraph(uri, options)]
    settles to: a graph, no graph, or a rejection. *)
Definition fetcher := string -> promise (option Graph.t).

(** [GroupListing.loadFrom (uri, fetchGraph, rdf, options)]: the call
    [group.initFromGraph(uri, graph)] leaves [rdf] to its default, the
    library given to the constructor. The new listing has no graph of its
    own, so a fetch that delivers [undefined] is a fetch that delivers
    [null]. *)
Definition loadFrom (u : string) (fetchGraph : fetcher) (rdf_lib : bool)
    : promise (option t) :=
  let group := new_uri u rdf_lib in
  catch_
    (then_ (fetchGraph u)
       (fun graph =>
          match initFromGraph (Some u) (Some graph) None group with
          | Ok g => Ok (Some g)
          | Throw msg => Throw msg
          | NoFuel => NoFuel
          end))
    (fun err => None).

End GroupListing.

(* ===================================================================== *)
(** ** Class [Permission] *)
(* ===================================================================== *)

Module Permission.

Record t := mk {
  accessModes : gset string;
  accessType : AccessType;
  agent : option string;
  group : option string;
  inherited : bool;
  mailTo : list string;
  originsAllowed : gset string;
  resourceUrl : option string;
  virtual : bool
}.

(** [new Permission(resourceUrl, inherited)] *)
Definition new (url : option string) (inh : bool) : t :=
  {| accessModes := ∅;
     accessType := if inh then DEFAULT else ACCESS_TO;
     agent := None;
     group := None;
     inherited := inh;
     mailTo := [];
     originsAllowed := ∅;
     resourceUrl := url;
     virtual := false |}.

Definition set_accessModes (m : gset string) (p : t) : t :=
  mk m (accessType p) (agent p) (group p) (inherited p) (mailTo p)
     (originsAllowed p) (resourceUrl p) (virtual p).
Definition set_agent (a : option string) (p : t) : t :=
  mk (accessModes p) (accessType p) a (group p) (inherited p) (mailTo p)
     (originsAllowed p) (resourceUrl p) (virtual p).
Definition set_group (g : option string) (p : t) : t :=
  mk (accessModes p) (accessType p) (agent p) g (inherited p) (mailTo p)
     (originsAllowed p) (resourceUrl p) (virtual p).
Definition set_mailTo (l : list string) (p : t) : t :=
  mk (accessModes p) (accessType p) (agent p) (group p) (inherited p) l
     (originsAllowed p) (resourceUrl p) (virtual p).
Definition set_originsAllowed (o : gset string) (p : t) : t :=
  mk (accessModes p) (accessType p) (agent p) (group p) (inherited p)
     (mailTo p) o (resourceUrl p) (virtual p).
Definition set_resourceUrl (u : option string) (p : t) : t :=
  mk (accessModes p) (accessType p) (agent p) (group p) (inherited p)
     (mailTo p) (originsAllowed p) u (virtual p).
Definition set_virtual (v : bool) (p : t) : t :=
  mk (accessModes p) (accessType p) (agent p) (group p) (inherited p)
     (mailTo p) (originsAllowed p) (resourceUrl p) v.

(** [addMailTo]: strips the scheme of a [mailto:] alias, pushes it and
    sorts the list. *)
Definition addMailTo (a : Term) (p : t) : t :=
  let a0 := term_value a in
  let a1 := if startsWith a0 "mailto:"
            then default a0 (split_colon_1 a0) else a0 in
  set_mailTo (JS.sort (mailTo p ++ [a1])) p.

Definition addModeSingle (accessMode : Term) (p : t) : t :=
  set_accessModes ({[ term_value accessMode ]} ∪ accessModes p) p.

Definition addMode (accessMode : OneOrMany Term) (p : t) : t :=
  match accessMode with
  | Many l => foldl (fun acc ea => addModeSingle ea acc) p l
  | One m => addModeSingle m p
  end.

Definition addOriginSingle (o : Term) (p : t) : t :=
  set_originsAllowed ({[ term_value o ]} ∪ originsAllowed p) p.

Definition addOrigin (o : OneOrMany Term) (p : t) : t :=
  match o with
  | Many l => foldl (fun acc ea => addOriginSingle ea acc) p l
  | One x => addOriginSingle x p
  end.

Definition allModes (p : t) : list string := elements (accessModes p).
Definition allOrigins (p : t) : list string := elements (originsAllowed p).

Definition allowsRead (p : t) : bool := bool_decide (READ ∈ accessModes p).
Definition allowsWrite (p : t) : bool :=
  bool_decide (WRITE ∈ accessModes p).
Definition allowsAppend (p : t) : bool :=
  bool_decide (APPEND ∈ accessModes p)
  || bool_decide (WRITE ∈ accessModes p).
Definition allowsControl (p : t) : bool :=
  bool_decide (CONTROL ∈ accessModes p).

Definition allowsMode (accessMode : string) (p : t) : bool :=
  let accessMode := acl.lookup_or (toUpperCase accessMode) accessMode in
  if String.eqb accessMode APPEND
  then allowsAppend p
  else bool_decide (accessMode ∈ accessModes p).

Definition allowsOrigin (o : string) (p : t) : bool :=
  bool_decide (o ∈ originsAllowed p).

(** [clone]: a JSON round trip of the fields into a new object; every
    field is a string, a boolean, an array or a hashmap of [true]s and
    survives it. The model of [PermissionSet] stores the copy at a new
    location. *)
Definition clone (p : t) : t := p.

Definition webId (p : t) : option string := or_else (agent p) (group p).

(** [hashFragmentFor (webId, resourceUrl, authType)] *)
Definition hashFragmentFor (w : option string) (url : option string)
    (authType : AccessType) : string :=
  string_of_null w +:+ "-" +:+ string_of_undefined url +:+ "-"
    +:+ accessType_string authType.

(** The guard of [hashFragment] reads the property [this.webId], which is
    the method itself and hence truthy. *)
Definition webId_property_truthy : bool := true.

Definition hashFragment (p : t) : outcome string :=
  if negb webId_property_truthy || negb (truthy (resourceUrl p))
  then Throw "Cannot call hashFragment() on an incomplete permission"
  else Ok (hashFragmentFor (webId p) (resourceUrl p) (accessType p)).

Definition isAgent (p : t) : bool := truthy (agent p).
Definition isEmpty (p : t) : bool := bool_decide (accessModes p = ∅).
Definition isPublic (p : t) : bool :=
  bool_decide (group p = Some EVERYONE).
Definition isGroup (p : t) : bool := truthy (group p).
Definition isInherited (p : t) : bool := inherited p.
Definition isValid (p : t) : bool :=
  truthy (webId p) && truthy (resourceUrl p) && negb (isEmpty p).

(** [mergeWith (auth)], with [this] as last argument. *)
Definition mergeWith (auth : t) (p : t) : outcome t :=
  match hashFragment p with
  | Ok h =>
      match hashFragment auth with
      | Ok h' =>
          if String.eqb h h'
          then Ok (foldl (fun acc accessMode =>
                            addMode (One (Str accessMode)) acc)
                     p (elements (accessModes auth)))
          else Throw "Cannot merge permissions with different agent id or resource url (accessTo)"
      | Throw msg => Throw msg
      | NoFuel => NoFuel
      end
  | Throw msg => Throw msg
  | NoFuel => NoFuel
  end.

Definition removeModeSingle (accessMode : Term) (p : t) : t :=
  set_accessModes (accessModes p ∖ {[ term_value accessMode ]}) p.

Definition removeMode (accessMode : OneOrMany Term) (p : t) : t :=
  match accessMode with
  | Many l => foldl (fun acc ea => removeModeSingle ea acc) p l
  | One m => removeModeSingle m p
  end.

Definition removeOriginSingle (o : Term) (p : t) : t :=
  set_originsAllowed (originsAllowed p ∖ {[ term_value o ]}) p.

Definition removeOrigin (o : OneOrMany Term) (p : t) : t :=
  match o with
  | Many l => foldl (fun acc ea => removeOriginSingle ea acc) p l
  | One x => removeOriginSingle x p
  end.

(** Argument of [setAgent] / [setGroup]: a string, an RDF statement, or a
    [GroupListing]. *)
Inductive Principal :=
| PTerm (tm : Term)
| PListing (g : GroupListing.t).

Definition setGroup (g : Principal) (p : t) : outcome t :=
  if truthy (agent p)
  then Throw "Cannot set group, permission already has an agent set"
  else
    match g with
    | PListing gl =>
        match GroupListing.listing gl with
        | Some tm => Ok (set_group (Some (term_value tm)) p)
        | None => Throw "TypeError: Cannot read properties of undefined"
        end
    | PTerm tm => Ok (set_group (Some (term_value tm)) p)
    end.

Definition setPublic (p : t) : outcome t := setGroup (PTerm (Str EVERYONE)) p.

Definition setAgent (a : Principal) (p : t) : outcome t :=
  match a with
  | PListing _ => setGroup a p
  | PTerm tm =>
      let a0 := term_value tm in
      let guarded :=
        if String.eqb a0 EVERYONE then setPublic p
        else if truthy (group p)
             then Throw "Cannot set agent, permission already has a group set"
             else Ok p in
      match guarded with
      | Ok p1 =>
          if startsWith a0 "mailto:"
          then Ok (addMailTo (Str a0) p1)
          else Ok (set_agent (Some a0) p1)
      | Throw msg => Throw msg
      | NoFuel => NoFuel
      end
  end.

(** [rdfStatements (rdf)]: the statements are about the node
    ['#' + hashFragment()]. *)
Definition rdfStatements (p : t) : outcome (list Graph.triple) :=
  if negb (truthy (webId p)) || negb (truthy (resourceUrl p)) then Ok []
  else if virtual p then Ok []
  else
    match hashFragment p with
    | Ok h =>
        let statement := Graph.mkTriple ("#" +:+ h) in
        Ok ([statement Graph.rdf_type Graph.acl_Authorization]
            ++ (if isAgent p
                then [statement Graph.acl_agent (string_of_null (agent p))]
                else [])
            ++ ((fun agentMailto =>
                   statement Graph.acl_agent ("mailto:" +:+ agentMailto))
                  <$> mailTo p)
            ++ (if isPublic p
                then [statement Graph.acl_agentClass EVERYONE]
                else if isGroup p
                then [statement Graph.acl_agentGroup
                        (string_of_null (group p))]
                else [])
            ++ [statement Graph.acl_accessTo
                  (string_of_undefined (resourceUrl p))]
            ++ (statement Graph.acl_mode <$> allModes p)
            ++ (if inherited p
                then [statement Graph.acl_default
                        (string_of_undefined (resourceUrl p))]
                else [])
            ++ (statement Graph.acl_origin <$> allOrigins p))%list
    | Throw msg => Throw msg
    | NoFuel => NoFuel
    end.

End Permission.

(* ===================================================================== *)
(** ** Class [PermissionSet] *)
(* ===================================================================== *)

Module PermissionSet.

(** References to [Permission] objects. *)
Abbreviation loc := nat.

Inductive ResourceType := RESOURCE | CONTAINER.

(** ['agents'] and ['groups'], the two members of [authsBy]. *)
Inductive IndexType := AGENT_INDEX | GROUP_INDEX.

(** An index: webId, then access type, then resource URL. *)
Abbreviation index := (gmap string (gmap AccessType (gmap string nat))).

Record t := mk {
  authorizations : gmap string nat;
  aclUrl : option string;
  host : option string;
  authsBy_agents : gmap string (gmap AccessType (gmap string nat));
  authsBy_groups : gmap string (gmap AccessType (gmap string nat));
  groups : gmap string GroupListing.t;
  rdf : bool;
  resourceType : ResourceType;
  resourceUrl : option string;
  strictOrigin : bool;
  origin : option string;
  aclUrlFor : string -> string;
  isAcl : string -> bool
}.

Definition authsBy (s : t) (i : IndexType) : index :=
  match i with
  | AGENT_INDEX => authsBy_agents s
  | GROUP_INDEX => authsBy_groups s
  end.

Definition set_authorizations (a : gmap string nat) (s : t) : t :=
  mk a (aclUrl s) (host s) (authsBy_agents s) (authsBy_groups s) (groups s)
     (rdf s) (resourceType s) (resourceUrl s) (strictOrigin s) (origin s)
     (aclUrlFor s) (isAcl s).

Definition set_authsBy (i : IndexType) (x : index) (s : t) : t :=
  match i with
  | AGENT_INDEX =>
      mk (authorizations s) (aclUrl s) (host s) x (authsBy_groups s)
         (groups s) (rdf s) (resourceType s) (resourceUrl s)
         (strictOrigin s) (origin s) (aclUrlFor s) (isAcl s)
  | GROUP_INDEX =>
      mk (authorizations s) (aclUrl s) (host s) (authsBy_agents s) x
         (groups s) (rdf s) (resourceType s) (resourceUrl s)
         (strictOrigin s) (origin s) (aclUrlFor s) (isAcl s)
  end.

Definition set_groups (g : gmap string GroupListing.t) (s : t) : t :=
  mk (authorizations s) (aclUrl s) (host s) (authsBy_agents s)
     (authsBy_groups s) g (rdf s) (resourceType s) (resourceUrl s)
     (strictOrigin s) (origin s) (aclUrlFor s) (isAcl s).

(** The origin-enforcement context of the constructor's options. *)
Definition set_origin_context (strict : bool) (o h : option string)
    (s : t) : t :=
  mk (authorizations s) (aclUrl s) h (authsBy_agents s)
     (authsBy_groups s) (groups s) (rdf s) (resourceType s) (resourceUrl s)
     strict o (aclUrlFor s) (isAcl s).

Definition DEFAULT_ACL_SUFFIX : string := ".acl".

Definition defaultIsAcl (uri : string) : bool :=
  endsWith uri DEFAULT_ACL_SUFFIX.

Definition defaultAclUrlFor (resourceUri : string) : string :=
  if defaultIsAcl resourceUri
  then resourceUri
  else resourceUri +:+ DEFAULT_ACL_SUFFIX.

(** Options of the constructor (the [graph] option, which runs the
    parser, is not modelled). *)
Record options := mkOptions {
  opt_host : option string;
  opt_rdf : bool;
  opt_strictOrigin : bool;
  opt_origin : option string;
  opt_aclUrlFor : option (string -> string);
  opt_isAcl : option (string -> bool)
}.

Definition no_options : options :=
  mkOptions None false false None None None.

(** [new PermissionSet(resourceUrl, aclUrl, isContainer, options)] *)
Definition new (url acl_url : option string) (isContainer : bool)
    (o : options) : t :=
  {| authorizations := ∅;
     aclUrl := acl_url;
     host := opt_host o;
     authsBy_agents := ∅;
     authsBy_groups := ∅;
     groups := ∅;
     rdf := opt_rdf o;
     resourceType := if isContainer then CONTAINER else RESOURCE;
     resourceUrl := url;
     strictOrigin := opt_strictOrigin o;
     origin := opt_origin o;
     aclUrlFor := default defaultAclUrlFor (opt_aclUrlFor o);
     isAcl := default defaultIsAcl (opt_isAcl o) |}.

(** *** The store and the monad of the methods *)

(** The [Permission] objects allocated so far, and the permission set
    [this]. *)
Record world := mkWorld {
  heap : gmap nat Permission.t;
  this : t
}.

Definition M (A : Type) : Type := world -> outcome A * world.

Definition ret {A} (a : A) : M A := fun w => (Ok a, w).

Definition bind {A B} (m : M A) (k : A -> M B) : M B :=
  fun w =>
    match m w with
    | (Ok a, w') => k a w'
    | (Throw msg, w') => (Throw msg, w')
    | (NoFuel, w') => (NoFuel, w')
    end.

Notation "x <~ m ;; k" := (bind m (fun x => k))
  (at level 63, m at next level, right associativity).
Notation "m ;;; k" := (bind m (fun _ => k))
  (at level 63, right associativity).

Definition throw {A} (msg : string) : M A := fun w => (Throw msg, w).
Definition out_of_fuel {A} : M A := fun w => (NoFuel, w).

Definition lift {A} (o : outcome A) : M A := fun w => (o, w).

Definition get_this : M t := fun w => (Ok (this w), w).

Definition modify_this (f : t -> t) : M unit :=
  fun w => (Ok tt, mkWorld (heap w) (f (this w))).

(** Reading an object through a reference. *)
Definition deref (l : loc) : M Permission.t :=
  fun w =>
    match heap w !! l with
    | Some p => (Ok p, w)
    | None => (Throw "dangling reference", w)
    end.

(** Mutating the object behind a reference. *)
Definition update (l : loc) (f : Permission.t -> Permission.t) : M unit :=
  p <~ deref l ;;
  fun w => (Ok tt, mkWorld (<[l := f p]> (heap w)) (this w)).

(** Mutation by a method that may throw (before it mutates). *)
Definition update_or_throw (l : loc)
    (f : Permission.t -> outcome Permission.t) : M unit :=
  p <~ deref l ;;
  p' <~ lift (f p) ;;
  fun w => (Ok tt, mkWorld (<[l := p']> (heap w)) (this w)).

(** [new]: a new object at an unused location. *)
Definition alloc (p : Permission.t) : M loc :=
  fun w =>
    let l := fresh (dom (heap w)) in
    (Ok l, mkWorld (<[l := p]> (heap w)) (this w)).

(** Running a callback of [then]: a throw rejects the promise. *)
Definition in_then {A} (m : M A) : M (promise A) :=
  fun w =>
    match m w with
    | (Ok a, w') => (Ok (Resolved a), w')
    | (Throw msg, w') => (Ok (Rejected msg), w')
    | (NoFuel, w') => (NoFuel, w')
    end.

(** [target.mergeWith(auth)] on two references. *)
Definition mergeWith (target auth : loc) : M unit :=
  a <~ deref auth ;;
  update_or_throw target (Permission.mergeWith a).

(** *** Indexes *)

(** [index[webId][accessType][resourceUrl]] *)
Definition lookup3 (x : index) (webId : string) (ty : AccessType)
    (url : string) : option loc :=
  match x !! webId with
  | Some byType =>
      match byType !! ty with
      | Some byUrl => byUrl !! url
      | None => None
      end
  | None => None
  end.

(** [addToAgentIndex] and [addToGroupIndex] are the same code on the two
    members of [authsBy]. The sub-objects are created when missing; the
    entry is set when there is none, and merged with otherwise. *)
Definition addToIndex (i : IndexType) (authorization : loc) : M unit :=
  p <~ deref authorization ;;
  s <~ get_this ;;
  let webId := string_of_null (Permission.webId p) in
  let accessType := Permission.accessType p in
  let url := string_of_undefined (Permission.resourceUrl p) in
  let idx := authsBy s i in
  let byType := default ∅ (idx !! webId) in
  let byUrl := default ∅ (byType !! accessType) in
  match byUrl !! url with
  | None =>
      modify_this
        (set_authsBy i
           (<[webId := <[accessType := <[url := authorization]> byUrl]>
                         byType]> idx))
  | Some existing =>
      modify_this
        (set_authsBy i (<[webId := <[accessType := byUrl]> byType]> idx)) ;;;
      mergeWith existing authorization
  end.

Definition addToAgentIndex : loc -> M unit := addToIndex AGENT_INDEX.
Definition addToGroupIndex : loc -> M unit := addToIndex GROUP_INDEX.

(** *** Adding permissions *)

(** [addControlPermissionsFor], calling back [addAuthorization]. *)
Definition addControlPermissionsFor (addAuthorization : loc -> M unit)
    (auth : loc) : M unit :=
  p <~ deref auth ;;
  s <~ get_this ;;
  impliedAuth <~ alloc (Permission.clone p) ;;
  match Permission.resourceUrl p with
  | None => throw "TypeError: Cannot read properties of undefined"
  | Some url =>
      update impliedAuth
        (Permission.set_resourceUrl (Some (aclUrlFor s url))) ;;;
      update impliedAuth (Permission.set_virtual true) ;;;
      update impliedAuth
        (Permission.addMode (Many (Str <$> ALL_MODES))) ;;;
      addAuthorization impliedAuth
  end.

(** The body of [addAuthorization], with the recursive call (made through
    [addControlPermissionsFor]) as a parameter. *)
Definition addAuthorization_body (self : loc -> M unit) (auth : loc)
    : M unit :=
  p <~ deref auth ;;
  hashFragment <~ lift (Permission.hashFragment p) ;;
  s <~ get_this ;;
  match authorizations s !! hashFragment with
  | Some existing => mergeWith existing auth
  | None =>
      modify_this
        (fun s => set_authorizations
                    (<[hashFragment := auth]> (authorizations s)) s)
  end ;;;
  p <~ deref auth ;;
  (if negb (Permission.virtual p) && Permission.allowsControl p
   then addControlPermissionsFor self auth
   else ret tt) ;;;
  addToAgentIndex auth ;;;
  p <~ deref auth ;;
  if Permission.isPublic p || Permission.isGroup p
  then addToGroupIndex auth
  else ret tt.

Fixpoint addAuthorization_fuel (fuel : nat) (auth : loc) : M unit :=
  match fuel with
  | 0 => out_of_fuel
  | S fuel' => addAuthorization_body (addAuthorization_fuel fuel') auth
  end.

(** [addAuthorization]: the recursion stops at the virtual permission
    that [addControlPermissionsFor] passes, so two levels are enough (see
    [addAuthorization_fuel_enough]). *)
Definition addAuthorization : loc -> M unit := addAuthorization_fuel 2.

Definition isAuthInherited (s : t) : bool :=
  match resourceType s with CONTAINER => true | RESOURCE => false end.

(** Truthiness of a mode / origin argument: only the empty string is
    falsy (an array, even empty, is truthy). *)
Definition arg_truthy (a : OneOrMany Term) : bool :=
  match a with
  | One (Str s) => truthy (Some s)
  | One (Node _) => true
  | Many _ => true
  end.

(** [addAuthorizationFor (resourceUrl, inherit, agent, accessModes,
    origins, mailTos)] *)
Definition addAuthorizationFor (url : string) (inherit : bool)
    (agent : Permission.Principal) (accessModes origins : list Term)
    (mailTos : list Term) : M unit :=
  auth <~ alloc (Permission.new (Some url) inherit) ;;
  match agent with
  | Permission.PListing gl =>
      match GroupListing.listing gl with
      | Some l => update_or_throw auth
                    (Permission.setGroup (Permission.PTerm l))
      | None => update_or_throw auth
                  (fun _ => Throw "TypeError: Cannot read properties of undefined")
      end
  | _ => update_or_throw auth (Permission.setAgent agent)
  end ;;;
  update auth (Permission.addMode (Many accessModes)) ;;;
  update auth (Permission.addOrigin (Many origins)) ;;;
  update auth
    (fun p => foldl (fun acc mailTo => Permission.addMailTo mailTo acc)
                p mailTos) ;;;
  addAuthorization auth.

(** [addGroupPermission (webId, accessMode)] *)
Definition addGroupPermission (webId : string)
    (accessMode : OneOrMany Term) : M unit :=
  s <~ get_this ;;
  if negb (truthy (resourceUrl s))
  then throw "Cannot add a permission to a PermissionSet with no resourceUrl"
  else
    auth <~ alloc (Permission.new (resourceUrl s) (isAuthInherited s)) ;;
    update_or_throw auth
      (Permission.setGroup (Permission.PTerm (Str webId))) ;;;
    update auth (Permission.addMode accessMode) ;;;
    addAuthorization auth.

(** [addPermission (webId, accessMode, origin)]; an omitted [origin] is
    [None]. *)
Definition addPermission (webId : string) (accessMode : OneOrMany Term)
    (origin : option (OneOrMany Term)) : M unit :=
  s <~ get_this ;;
  if negb (truthy (Some webId))
  then throw "addPermission() requires a valid webId"
  else if negb (arg_truthy accessMode)
  then throw "addPermission() requires a valid accessMode"
  else if negb (truthy (resourceUrl s))
  then throw "Cannot add a permission to a PermissionSet with no resourceUrl"
  else
    auth <~ alloc (Permission.new (resourceUrl s) (isAuthInherited s)) ;;
    update_or_throw auth
      (Permission.setAgent (Permission.PTerm (Str webId))) ;;;
    update auth (Permission.addMode accessMode) ;;;
    match origin with
    | Some o =>
        if arg_truthy o then update auth (Permission.addOrigin o)
        else ret tt
    | None => ret tt
    end ;;;
    addAuthorization auth.

(** *** Removing permissions *)

(** [permissionFor (webId, resourceUrl)]: [hashFragmentFor] is called
    with two arguments, so the access type is ['accessTo']. *)
Definition permissionFor (webId : string) (url : option string) (s : t)
    : option loc :=
  if negb (truthy (Some webId)) then None
  else
    let url := or_else url (resourceUrl s) in
    let hashFragment :=
      Permission.hashFragmentFor (Some webId) url ACCESS_TO in
    authorizations s !! hashFragment.

(** [removeAuthorization (auth)] *)
Definition removeAuthorization (auth : loc) : M unit :=
  p <~ deref auth ;;
  hashFragment <~ lift (Permission.hashFragment p) ;;
  modify_this
    (fun s => set_authorizations (delete hashFragment (authorizations s)) s).

(** [removePermission (webId, accessMode)] *)
Definition removePermission (webId : string)
    (accessMode : OneOrMany Term) : M unit :=
  s <~ get_this ;;
  match permissionFor webId (resourceUrl s) s with
  | None => ret tt
  | Some auth =>
      update auth (Permission.removeMode accessMode) ;;;
      p <~ deref auth ;;
      if Permission.isEmpty p then removeAuthorization auth else ret tt
  end.

(** *** Resolution *)

(** The loop of [findAuthByAgent] over the container URLs. *)
Fixpoint first_container (containers : list string) (url : string)
    (defaultAuths : gmap string nat) : option loc :=
  match containers with
  | [] => None
  | containerUrl :: rest =>
      if startsWith url containerUrl
      then defaultAuths !! containerUrl
      else first_container rest url defaultAuths
  end.

(** [Object.keys(defaultAuths).sort().reverse()] *)
Definition sorted_containers (defaultAuths : gmap string nat)
    : list string :=
  reverse (JS.sort (elements (dom defaultAuths))).

(** [findAuthByAgent (webId, resourceUrl, indexType)]. A falsy result
    ([false] or [undefined]) is [None]. The resource URL is [None] when
    [undefined] is passed (see [allowsPublic]). *)
Definition findAuthByAgent (webId : string) (url : option string)
    (indexType : IndexType) (s : t) : outcome (option loc) :=
  let index := authsBy s indexType in
  match index !! webId with
  | None => Ok None
  | Some byType =>
      let key := string_of_undefined url in
      let accessToMatch :=
        match byType !! ACCESS_TO with
        | Some accessToAuths => accessToAuths !! key
        | None => None
        end in
      match accessToMatch with
      | Some a => Ok (Some a)
      | None =>
          match byType !! DEFAULT with
          | None => Ok None
          | Some defaultAuths =>
              match defaultAuths !! key with
              | Some d => Ok (Some d)
              | None =>
                  match sorted_containers defaultAuths, url with
                  | [], _ => Ok None
                  | _ :: _, None =>
                      Throw "TypeError: Cannot read properties of undefined"
                  | containers, Some u =>
                      Ok (first_container containers u defaultAuths)
                  end
              end
          end
      end
  end.

Definition findPublicAuth (url : option string) (s : t)
    : outcome (option loc) :=
  findAuthByAgent EVERYONE url GROUP_INDEX s.

(** [allowsPublic (mode, resourceUrl)] *)
Definition allowsPublic (mode : string) (url : option string) : M bool :=
  s <~ get_this ;;
  let url := or_else url (resourceUrl s) in
  publicAuth <~ lift (findPublicAuth url s) ;;
  match publicAuth with
  | None => ret false
  | Some l => p <~ deref l ;; ret (Permission.allowsMode mode p)
  end.

(** [checkOrigin (authorization)] *)
Definition checkOrigin (s : t) (authorization : Permission.t) : bool :=
  if negb (strictOrigin s) || negb (truthy (origin s))
     || bool_decide (origin s = host s)
  then true
  else Permission.allowsOrigin (string_of_undefined (origin s))
         authorization.

(** [checkAccessForAgent (resourceUrl, agentId, accessMode)] *)
Definition checkAccessForAgent (url agentId accessMode : string)
    : M bool :=
  s <~ get_this ;;
  auth <~ lift (findAuthByAgent agentId (Some url) AGENT_INDEX s) ;;
  match auth with
  | None => ret false
  | Some l =>
      p <~ deref l ;;
      ret (checkOrigin s p && Permission.allowsMode accessMode p)
  end.

(** [groupsForMember (agentId)] *)
Definition groupsForMember (agentId : string) (s : t) : list string :=
  List.filter
    (fun groupWebId =>
       match groups s !! groupWebId with
       | Some g => GroupListing.hasMember (Str agentId) g
       | None => false
       end)
    (elements (dom (groups s))).

(** [groupUris (excludePublic)] *)
Definition groupUris (excludePublic : bool) (s : t) : list string :=
  let uris := elements (dom (authsBy_groups s)) in
  if excludePublic
  then List.filter (fun uri => negb (String.eqb uri EVERYONE)) uris
  else uris.

Definition hasGroups (s : t) : bool :=
  (0 <? length (groupUris true s))%nat.

(** [checkGroupAccess (resourceUrl, agentId, accessMode)]: the callback
    of [find] returns nothing, so every match is visited. *)
Definition checkGroupAccess (url agentId accessMode : string) : M bool :=
  s <~ get_this ;;
  foldl
    (fun (acc : M bool) groupWebId =>
       result <~ acc ;;
       granted <~ checkAccessForAgent url groupWebId accessMode ;;
       ret (if granted then true else result))
    (ret false)
    (groupsForMember agentId s).

(** Options of [checkAccess] / [loadGroups]. *)
Record load_options := mkLoadOptions {
  fetchGraph : option GroupListing.fetcher;
  load_rdf : bool
}.

(** [Promise.all] *)
Fixpoint promise_all {A} (l : list (promise A)) : promise (list A) :=
  match l with
  | [] => Resolved []
  | Resolved a :: rest =>
      match promise_all rest with
      | Resolved r => Resolved (a :: r)
      | Rejected msg => Rejected msg
      end
  | Rejected msg :: _ => Rejected msg
  end.

(** The [forEach] of [loadGroups]: [if (group) this.groups[group.uri] =
    group]. *)
Definition cache_groups (loaded : list (option GroupListing.t))
    (cache : gmap string GroupListing.t) : gmap string GroupListing.t :=
  foldl
    (fun acc group =>
       match group with
       | Some g => <[string_of_undefined (GroupListing.uri g) := g]> acc
       | None => acc
       end)
    cache loaded.

(** [loadGroups (options)] *)
Definition loadGroups (o : load_options) : M (promise unit) :=
  s <~ get_this ;;
  let rdf_lib := load_rdf o || rdf s in
  match fetchGraph o with
  | None =>
      ret (Rejected "Cannot load groups, fetchGraph() not supplied")
  | Some fetch =>
      if negb rdf_lib
      then ret (Rejected "Cannot load groups, rdf library not supplied")
      else
        let uris := groupUris true s in
        let loadActions :=
          List.map (fun uri => GroupListing.loadFrom uri fetch rdf_lib)
            uris in
        match promise_all loadActions with
        | Resolved loaded =>
            modify_this (fun s => set_groups (cache_groups loaded (groups s)) s) ;;;
            ret (Resolved tt)
        | Rejected msg => ret (Rejected msg)
        end
  end.

(** [checkAccess (resourceUrl, agentId, accessMode, options)]. The
    result is the settlement of the returned promise; [Throw] is a
    synchronous exception. The continuation of [loadGroups] runs without
    interleaving with other calls on the set. *)
Definition checkAccess (url agentId accessMode : string)
    (o : load_options) : M (promise bool) :=
  pub <~ allowsPublic accessMode (Some url) ;;
  if pub then ret (Resolved true)
  else
    individual <~ checkAccessForAgent url agentId accessMode ;;
    if individual then ret (Resolved true)
    else
      s <~ get_this ;;
      if hasGroups s
      then
        loaded <~ loadGroups o ;;
        match loaded with
        | Resolved _ =>
            in_then (checkGroupAccess url agentId accessMode)
        | Rejected msg => ret (Rejected msg)
        end
      else ret (Resolved false).

(** *** The collection as a whole *)

(** [allAuthorizations ()]: the objects of the collection, in the order of
    the keys of the map (JavaScript lists them in the order of insertion;
    the properties below are about the elements, not their order). *)
Definition allAuthorizations (s : t) : list loc :=
  (map_to_list (authorizations s)).*2.

(** [count] *)
Definition count (s : t) : nat := size (authorizations s).

(** [isEmpty ()] *)
Definition isEmpty (s : t) : bool := Nat.eqb (count s) 0.

(** [buildGraph (rdf)] *)
Definition buildGraph : M Graph.t :=
  s <~ get_this ;;
  foldl
    (fun (acc : M Graph.t) auth =>
       graph <~ acc ;;
       p <~ deref auth ;;
       statements <~ lift (Permission.rdfStatements p) ;;
       ret (Graph.add statements graph))
    (ret [])
    (allAuthorizations s).

(** *** Reading an ACL graph *)

(** [isMailTo (agent)] *)
Definition isMailTo (agent : Term) : bool :=
  startsWith (term_value agent) "mailto:".

(** [l.forEach(callback)] with a callback that may throw. *)
Fixpoint for_each {A} (l : list A) (callback : A -> M unit) : M unit :=
  match l with
  | [] => ret tt
  | x :: rest => callback x ;;; for_each rest callback
  end.

(** The keys of an object filled by the assignments [subjects[k] = ...]
    in the order of [l]: every key once, where it was first assigned
    (the keys are node identifiers, none is an array index). *)
Fixpoint keys_in_order (l : list string) : list string :=
  match l with
  | [] => []
  | k :: rest =>
      k :: List.filter (fun k' => negb (String.eqb k' k)) (keys_in_order rest)
  end.

(** The subjects whose authorizations [initFromGraph] reads: those typed
    [acl:Authorization] or, when there is none, those with an [acl:mode]. *)
Definition authSections (graph : Graph.t) : list string :=
  match Graph.match_o graph Graph.acl_Authorization with
  | [] => keys_in_order (Graph.subject <$> Graph.match_p graph Graph.acl_mode)
  | sections => Graph.subject <$> sections
  end.

(** A statement, where the code reads its [.object.value]. *)
Definition statement (tr : Graph.triple) : Term := Node (Graph.object tr).

(** The callback of [allAgents.forEach] in [initFromGraph]: one
    authorization for every [acl:accessTo] object and one for every
    [acl:default] / [acl:defaultForNew] object of the section. *)
Definition read_agent (graph : Graph.t) (fragment : string)
    (accessModes origins mailTos : list Graph.triple)
    (agentMatch : Permission.Principal) : M unit :=
  for_each (Graph.match_sp graph fragment Graph.acl_accessTo)
    (fun resourceMatch =>
       addAuthorizationFor (Graph.object resourceMatch) NOT_INHERIT
         agentMatch (statement <$> accessModes) (statement <$> origins)
         (statement <$> mailTos)) ;;;
  for_each (Graph.match_sp graph fragment Graph.acl_default
            ++ Graph.match_sp graph fragment Graph.acl_defaultForNew)%list
    (fun containerMatch =>
       addAuthorizationFor (Graph.object containerMatch) INHERIT
         agentMatch (statement <$> accessModes) (statement <$> origins)
         (statement <$> mailTos)).

(** The callback of [authSections.forEach] in [initFromGraph]. *)
Definition read_section (graph : Graph.t) (fragment : string) : M unit :=
  let accessModes := Graph.match_sp graph fragment Graph.acl_mode in
  let origins := Graph.match_sp graph fragment Graph.acl_origin in
  let agentMatches := Graph.match_sp graph fragment Graph.acl_agent in
  let mailTos :=
    List.filter (fun ea => isMailTo (statement ea)) agentMatches in
  let agentMatches :=
    List.filter (fun ea => negb (isMailTo (statement ea))) agentMatches in
  let publicMatches :=
    Graph.match_spo graph fragment Graph.acl_agentClass EVERYONE in
  let groupMatches :=
    (fun ea => GroupListing.new_listing (statement ea))
      <$> Graph.match_sp graph fragment Graph.acl_agentGroup in
  let allAgents :=
    (((fun ea => Permission.PTerm (statement ea)) <$> agentMatches)
     ++ ((fun ea => Permission.PTerm (statement ea)) <$> publicMatches)
     ++ (Permission.PListing <$> groupMatches))%list in
  for_each allAgents (read_agent graph fragment accessModes origins mailTos).

(** [initFromGraph (graph)]. The terms of the vocabulary come from
    [vocab(this.rdf)]: named nodes when the set has the RDF library, plain
    strings when it has not, and a plain string matches no statement of a
    parsed graph; the set then reads no section. *)
Definition initFromGraph (graph : Graph.t) : M unit :=
  s <~ get_this ;;
  if rdf s then for_each (authSections graph) (read_section graph)
  else ret tt.

(** *** Running methods *)

Definition init (url acl_url : option string) (isContainer : bool)
    (o : options) : world :=
  mkWorld ∅ (new url acl_url isContainer o).

Definition run {A} (m : M A) (w : world) : outcome A * world := m w.
Definition exec {A} (m : M A) (w : world) : world := snd (m w).
Definition eval {A} (m : M A) (w : world) : outcome A := fst (m w).

End PermissionSet.

(* ===================================================================== *)
(** * Vocabulary of the properties *)
(* ===================================================================== *)

Section Vocabulary.

Import PermissionSet.

#[global] Instance IndexType_eq_dec : EqDecision IndexType.
Proof. solve_decision. Defined.

(** The request-independent settings of a permission set, and its cache of
    group listings. *)
Definition settings (s : PermissionSet.t) :=
  (PermissionSet.aclUrl s, PermissionSet.host s, PermissionSet.rdf s,
   PermissionSet.resourceType s, PermissionSet.resourceUrl s,
   PermissionSet.strictOrigin s, PermissionSet.origin s,
   PermissionSet.aclUrlFor s, PermissionSet.isAcl s).

(** [p'] is [p] up to its access modes. *)
Definition same_identity (p p' : Permission.t) : Prop :=
  p' = Permission.set_accessModes (Permission.accessModes p') p.

(** The object at [l] is a permission of principal [webId], of access type
    [ty], for the resource [u]. *)
Definition entry_ok (w : PermissionSet.world) (webId : string)
    (ty : AccessType) (u : string) (l : nat) : Prop :=
  exists p,
    PermissionSet.heap w !! l = Some p
    /\ string_of_null (Permission.webId p) = webId
    /\ Permission.accessType p = ty
    /\ Permission.resourceUrl p = Some u
    /\ truthy (Some u) = true.

(** A store is well formed when the collection and the indexes refer to
    objects of the store, filed under their own key. *)
Record wf (w : PermissionSet.world) : Prop := mk_wf {
  wf_authorizations :
    forall h l,
      PermissionSet.authorizations (PermissionSet.this w) !! h = Some l ->
      exists p, PermissionSet.heap w !! l = Some p
                /\ Permission.hashFragment p = Ok h;
  wf_index :
    forall i webId ty u l,
      PermissionSet.lookup3
        (PermissionSet.authsBy (PermissionSet.this w) i) webId ty u = Some l ->
      entry_ok w webId ty u l
}.

(** [w'] comes from [w] by adding permissions: objects keep their identity
    and their modes, index entries stay, and only the index keys in [K] may
    have got an entry. *)
Record evolves (K : string -> AccessType -> string -> Prop)
    (w w' : PermissionSet.world) : Prop := mk_evolves {
  ev_heap :
    forall l p,
      PermissionSet.heap w !! l = Some p ->
      exists p', PermissionSet.heap w' !! l = Some p'
                 /\ same_identity p p'
                 /\ Permission.accessModes p ⊆ Permission.accessModes p';
  ev_keep :
    forall i webId ty u l,
      PermissionSet.lookup3
        (PermissionSet.authsBy (PermissionSet.this w) i) webId ty u = Some l ->
      PermissionSet.lookup3
        (PermissionSet.authsBy (PermissionSet.this w') i) webId ty u = Some l;
  ev_frame :
    forall i webId ty u,
      ~ K webId ty u ->
      PermissionSet.lookup3
        (PermissionSet.authsBy (PermissionSet.this w') i) webId ty u
      = PermissionSet.lookup3
          (PermissionSet.authsBy (PermissionSet.this w) i) webId ty u;
  ev_settings :
    settings (PermissionSet.this w') = settings (PermissionSet.this w)
}.

(** The index key under which a permission is filed. *)
Definition filed_under (p : Permission.t) (webId : string) (ty : AccessType)
    (u : string) : Prop :=
  webId = string_of_null (Permission.webId p)
  /\ ty = Permission.accessType p
  /\ Some u = Permission.resourceUrl p.

(** A method that does not change the store. *)
Definition readonly {A} (m : PermissionSet.M A) : Prop :=
  forall w, snd (m w) = w.

(** What [checkAccessForAgent] computes, as a function of the store. *)
Definition granted (w : PermissionSet.world) (url principal mode : string)
    : bool :=
  match PermissionSet.findAuthByAgent principal (Some url)
          PermissionSet.AGENT_INDEX (PermissionSet.this w) with
  | Ok (Some l) =>
      match PermissionSet.heap w !! l with
      | Some p => PermissionSet.checkOrigin (PermissionSet.this w) p
                  && Permission.allowsMode mode p
      | None => false
      end
  | _ => false
  end.

(** Origin enforcement does not apply to the current request. *)
Definition origin_unchecked (s : PermissionSet.t) : Prop :=
  PermissionSet.strictOrigin s = false
  \/ truthy (PermissionSet.origin s) = false
  \/ PermissionSet.origin s = PermissionSet.host s.

(** The objects of [hp] are in [hp'], with their identity and at least
    their modes. *)
Definition heap_grows (hp hp' : gmap nat Permission.t) : Prop :=
  forall l p,
    hp !! l = Some p ->
    exists p', hp' !! l = Some p' /\ same_identity p p'
               /\ Permission.accessModes p ⊆ Permission.accessModes p'.

(** The permission that [addControlPermissionsFor] derives from [pa]. *)
Definition implied_permission (s : t) (pa : Permission.t) (r : string)
    : Permission.t :=
  Permission.addMode (Many (Str <$> ALL_MODES))
    (Permission.set_virtual true
       (Permission.set_resourceUrl (Some (aclUrlFor s r)) pa)).

(** The applicability rule in the words of the specification: [d] is the
    entry of the inherited permissions [defaultAuths] whose resource URL
    [c] is a prefix of the resource [url] and is the longest such prefix,
    the greatest in the order of [sort()] among them. *)
Definition most_specific_container (defaultAuths : gmap string nat)
    (url c : string) (d : nat) : Prop :=
  defaultAuths !! c = Some d
  /\ String.prefix c url = true
  /\ forall c', is_Some (defaultAuths !! c') ->
                String.prefix c' url = true ->
                String.length c' <= String.length c /\ str_le c' c.

(** What [allowsPublic] computes, as a function of the store. *)
Definition publicly_allowed (w : PermissionSet.world) (mode url : string)
    : bool :=
  match PermissionSet.findPublicAuth (Some url) (PermissionSet.this w) with
  | Ok (Some l) =>
      match PermissionSet.heap w !! l with
      | Some p => Permission.allowsMode mode p
      | None => false
      end
  | _ => false
  end.

(** What the promise of [loadFrom] resolves to ([null] is [None]). *)
Definition listing_of (fetch : GroupListing.fetcher) (rdf_lib : bool)
    (u : string) : option GroupListing.t :=
  match GroupListing.loadFrom u fetch rdf_lib with
  | Resolved g => g
  | Rejected _ => None
  end.

(** The cache after [loadGroups]. *)
Definition cache_after_load (fetch : GroupListing.fetcher) (rdf_lib : bool)
    (s : PermissionSet.t) : gmap string GroupListing.t :=
  PermissionSet.cache_groups
    (listing_of fetch rdf_lib <$> PermissionSet.groupUris true s)
    (PermissionSet.groups s).

(** The fetcher failed for [u]: its promise was rejected, or it delivered no
    graph to parse. *)
Definition fetch_failed (fetch : GroupListing.fetcher) (u : string) : Prop :=
  (exists msg, fetch u = Rejected msg) \/ fetch u = Resolved None.

(** The stores reached from [w0] by calls of the public methods that
    returned. *)
Inductive reachable (w0 : PermissionSet.world) : PermissionSet.world -> Prop :=
| reach_start : reachable w0 w0
| reach_addPermission w webId accessMode origin w' :
    reachable w0 w ->
    PermissionSet.addPermission webId accessMode origin w = (Ok tt, w') ->
    reachable w0 w'
| reach_addGroupPermission w webId accessMode w' :
    reachable w0 w ->
    PermissionSet.addGroupPermission webId accessMode w = (Ok tt, w') ->
    reachable w0 w'
| reach_removePermission w webId accessMode w' :
    reachable w0 w ->
    PermissionSet.removePermission webId accessMode w = (Ok tt, w') ->
    reachable w0 w'
| reach_checkAccess w url agentId mode o :
    reachable w0 w ->
    reachable w0
      (PermissionSet.exec (PermissionSet.checkAccess url agentId mode o) w).

(** The values of a [string | NamedNode] argument, or of an array of
    them. *)
Definition values (a : OneOrMany Term) : gset string :=
  match a with
  | One m => {[ term_value m ]}
  | Many l => list_to_set (term_value <$> l)
  end.

(** The origins that [addPermission] records. *)
Definition origin_values (origin : option (OneOrMany Term)) : gset string :=
  match origin with
  | Some o => if arg_truthy o then values o else ∅
  | None => ∅
  end.

(** The alias that [addMailTo] stores for its argument. *)
Definition mail_alias (a : Term) : string :=
  let a0 := term_value a in
  if startsWith a0 "mailto:" then default a0 (split_colon_1 a0) else a0.

(** [p'] is a permission of the principal of [p], with its access type and
    its allowed origins. *)
Definition akin (p p' : Permission.t) : Prop :=
  Permission.webId p' = Permission.webId p
  /\ Permission.accessType p' = Permission.accessType p
  /\ Permission.originsAllowed p' = Permission.originsAllowed p
  /\ Permission.group p' = Permission.group p.

(** What adding the permission [pa] may change: the objects of the store
    keep their identity and their modes, new objects are permissions akin to
    [pa]; the entries of the collection and of the indexes stay, and a new
    entry refers to an object in [N], under the principal and the access
    type of [pa]; the group index gets no other principal. *)
Record tracks (N : nat -> Prop) (pa : Permission.t) (w w' : world)
    : Prop := mk_tracks {
  tr_heap_old : heap_grows (heap w) (heap w');
  tr_heap_new :
    forall l p', heap w !! l = None -> heap w' !! l = Some p' -> akin pa p';
  tr_auth_keep :
    forall h l, authorizations (this w) !! h = Some l ->
                authorizations (this w') !! h = Some l;
  tr_auth_new :
    forall h l, authorizations (this w') !! h = Some l ->
                authorizations (this w) !! h = Some l \/ N l;
  tr_index_keep :
    forall i k ty u l,
      lookup3 (authsBy (this w) i) k ty u = Some l ->
      lookup3 (authsBy (this w') i) k ty u = Some l;
  tr_index_new :
    forall i k ty u l,
      lookup3 (authsBy (this w') i) k ty u = Some l ->
      lookup3 (authsBy (this w) i) k ty u = Some l
      \/ (N l /\ k = string_of_null (Permission.webId pa)
          /\ ty = Permission.accessType pa);
  tr_groups_dom :
    dom (authsBy_groups (this w'))
    ⊆ dom (authsBy_groups (this w))
      ∪ (if Permission.isPublic pa || Permission.isGroup pa
         then {[ string_of_null (Permission.webId pa) ]} else ∅);
  tr_groups_keep :
    dom (authsBy_groups (this w)) ⊆ dom (authsBy_groups (this w'));
  tr_settings : settings (this w') = settings (this w);
  tr_cache : groups (this w') = groups (this w)
}.

(** The permission that [addPermission] builds before it adds it. *)
Definition agent_permission (s : PermissionSet.t) (webId : string)
    (accessMode : OneOrMany Term) (origin : option (OneOrMany Term))
    : Permission.t :=
  let p0 := Permission.new (resourceUrl s) (isAuthInherited s) in
  let p1 := match Permission.setAgent (Permission.PTerm (Str webId)) p0 with
            | Ok p => p
            | _ => p0
            end in
  let p2 := Permission.addMode accessMode p1 in
  match origin with
  | Some o => if arg_truthy o then Permission.addOrigin o p2 else p2
  | None => p2
  end.

(** The permission that [addGroupPermission] builds before it adds it. *)
Definition group_permission (s : PermissionSet.t) (webId : string)
    (accessMode : OneOrMany Term) : Permission.t :=
  Permission.addMode accessMode
    (Permission.set_group (Some webId)
       (Permission.new (resourceUrl s) (isAuthInherited s))).

(** Every permission of the store is of the inherited kind. *)
Definition all_inherited (w : world) : Prop :=
  resourceType (this w) = CONTAINER
  /\ forall l p, heap w !! l = Some p -> Permission.accessType p = DEFAULT.

(** The principals that [initFromGraph] passes to [addAuthorizationFor]:
    a statement, or a group listing made of a statement. *)
Definition stated_principal (agent : Permission.Principal) : Prop :=
  match agent with
  | Permission.PTerm _ => True
  | Permission.PListing gl => is_Some (GroupListing.listing gl)
  end.

(** The permission that [addAuthorizationFor] builds before it adds it. *)
Definition stated_permission (url : string) (inherit : bool)
    (agent : Permission.Principal) (accessModes origins mailTos : list Term)
    : Permission.t :=
  let p0 := Permission.new (Some url) inherit in
  let p1 :=
    match agent with
    | Permission.PListing gl =>
        match GroupListing.listing gl with
        | Some l =>
            match Permission.setGroup (Permission.PTerm l) p0 with
            | Ok p => p
            | _ => p0
            end
        | None => p0
        end
    | _ =>
        match Permission.setAgent agent p0 with
        | Ok p => p
        | _ => p0
        end
    end in
  foldl (fun acc mailTo => Permission.addMailTo mailTo acc)
    (Permission.addOrigin (Many origins)
       (Permission.addMode (Many accessModes) p1))
    mailTos.

(** [w'] holds the objects and the index entries of [w], with at least
    their modes, and has the settings of [w]. *)
Definition extends (w w' : world) : Prop := evolves (fun _ _ _ => True) w w'.

(** The agent index holds, for [k] and the resource [u], a direct
    permission with the mode [m]. *)
Definition direct_entry (k u m : string) (w : world) : Prop :=
  exists l q, lookup3 (authsBy_agents (this w)) k ACCESS_TO u = Some l
              /\ heap w !! l = Some q /\ m ∈ Permission.accessModes q.

(** The invariant of the parser: the store is well formed and the set has
    the settings it started with. *)
Definition parsing (s0 : PermissionSet.t) (w : world) : Prop :=
  wf w /\ settings (this w) = settings s0.

(** The resource URLs stated in the graph are not empty. *)
Definition resources_stated (graph : Graph.t) : Prop :=
  forall tr,
    tr ∈ graph ->
    Graph.predicate tr = Graph.acl_accessTo
    \/ Graph.predicate tr = Graph.acl_default
    \/ Graph.predicate tr = Graph.acl_defaultForNew ->
    truthy (Some (Graph.object tr)) = true.

End Vocabulary.

(** The names used in the scenarios of the specification. *)
Module Scenarios.

Import PermissionSet.

Definition file1 : string := "https://alice.example.com/docs/file1".
Definition file2 : string := "https://alice.example.com/docs/file2".
Definition docs : string := "https://alice.example.com/docs/".
Definition alice : string := "https://alice.example.com/#me".
Definition bob : string := "https://bob.example.com/#me".
Definition carol : string := "https://carol.example.com/#me".
Definition team : string := "https://alice.example.com/work-groups#Accounting".
Definition no_loader : load_options := mkLoadOptions None false.

(** A listing document with [bob] as the only member of [team]. *)
Definition team_graph : Graph.t :=
  [Graph.mkTriple team Graph.vcard_hasMember bob].
Definition reachable_listing : GroupListing.fetcher :=
  fun _ => Resolved (Some team_graph).
Definition absent_listing : GroupListing.fetcher :=
  fun _ => Resolved None.

End Scenarios.

(* ===================================================================== *)
(** * Properties of [Permission] *)
(* ===================================================================== *)

Section PermissionFacts.

Import Permission.

Lemma set_accessModes_id p : set_accessModes (accessModes p) p = p.
Proof. by destruct p. Qed.

Lemma set_accessModes_twice m m' p :
  set_accessModes m (set_accessModes m' p) = set_accessModes m p.
Proof. by destruct p. Qed.

(** The loop of [mergeWith] adds exactly the listed modes. *)
Lemma foldl_addMode (l : list string) p :
  foldl (fun acc accessMode => addMode (One (Str accessMode)) acc) p l
  = set_accessModes (list_to_set l ∪ accessModes p) p.
Proof.
  revert p. induction l as [|m l IH]; intros p; simpl.
  - rewrite union_empty_l_L. by rewrite set_accessModes_id.
  - rewrite IH. unfold addModeSingle. simpl.
    rewrite set_accessModes_twice. f_equal. set_solver.
Qed.

Lemma hashFragment_Ok p :
  truthy (resourceUrl p) = true ->
  hashFragment p
  = Ok (hashFragmentFor (webId p) (resourceUrl p) (accessType p)).
Proof. intros H. unfold hashFragment. by rewrite H. Qed.

Lemma hashFragment_incomplete p :
  truthy (resourceUrl p) = false ->
  hashFragment p
  = Throw "Cannot call hashFragment() on an incomplete permission".
Proof. intros H. unfold hashFragment. by rewrite H. Qed.

Lemma hashFragment_set_accessModes m p :
  hashFragment (set_accessModes m p) = hashFragment p.
Proof. by destruct p. Qed.

(** [mergeWith] on two permissions whose hash fragments agree. *)
Lemma mergeWith_same_hash auth p h :
  hashFragment p = Ok h -> hashFragment auth = Ok h ->
  mergeWith auth p
  = Ok (set_accessModes (accessModes auth ∪ accessModes p) p).
Proof.
  intros Hp Ha. unfold mergeWith. rewrite Hp, Ha.
  rewrite String.eqb_refl, foldl_addMode.
  by rewrite list_to_set_elements_L.
Qed.

End PermissionFacts.

(** C5. Write implies Append and not the reverse: after adding Write,
    [allowsAppend] holds; adding Append leaves [allowsWrite] as it was (so
    Append alone never grants Write); removing Write from a permission [q]
    that has Append but not Write changes nothing; removing Append from a
    permission [r] that has Write leaves both [allowsWrite] and
    [allowsAppend] true. *)
Theorem C5_write_implies_append (p q r : Permission.t)
    (Hq_append : Permission.allowsAppend q = true)
    (Hq_write : Permission.allowsWrite q = false)
    (Hr_write : Permission.allowsWrite r = true) :
  Permission.allowsAppend (Permission.addMode (One (Str WRITE)) p) = true
  /\ Permission.allowsWrite (Permission.addMode (One (Str APPEND)) p)
     = Permission.allowsWrite p
  /\ Permission.allowsWrite
       (Permission.addMode (One (Str APPEND)) (Permission.new None false))
     = false
  /\ Permission.removeMode (One (Str WRITE)) q = q
  /\ Permission.allowsAppend (Permission.removeMode (One (Str WRITE)) q)
     = true
  /\ Permission.allowsWrite (Permission.removeMode (One (Str APPEND)) r)
     = true
  /\ Permission.allowsAppend (Permission.removeMode (One (Str APPEND)) r)
     = true.
Proof.
  assert (Hne : APPEND <> WRITE) by discriminate.
  unfold Permission.allowsAppend, Permission.allowsWrite in *.
  apply bool_decide_eq_false in Hq_write.
  apply bool_decide_eq_true in Hr_write.
  assert (Hq : Permission.removeMode (One (Str WRITE)) q = q).
  { destruct q as [modes ? ? ? ? ? ? ? ?]. simpl in *.
    unfold Permission.removeModeSingle, Permission.set_accessModes. simpl.
    f_equal. set_solver. }
  repeat apply conj.
  - simpl. apply orb_true_iff. right. apply bool_decide_eq_true. set_solver.
  - simpl. apply bool_decide_ext. set_solver.
  - apply bool_decide_eq_false. simpl. set_solver.
  - exact Hq.
  - rewrite Hq. exact Hq_append.
  - simpl. apply bool_decide_eq_true. set_solver.
  - simpl. apply orb_true_iff. right. apply bool_decide_eq_true. set_solver.
Qed.

Lemma C5_write_implies_append_witness :
  let p := Permission.new (Some "https://bob.example.com/docs/file1") false in
  let q := Permission.addMode (One (Str APPEND)) p in
  let r := Permission.addMode (One (Str WRITE)) p in
  Permission.removeMode (One (Str WRITE)) q = q
  /\ Permission.allowsAppend (Permission.removeMode (One (Str APPEND)) r)
     = true.
Proof.
  intros p q r.
  pose proof (C5_write_implies_append p q r) as H.
  assert (Ha : Permission.allowsAppend q = true) by (vm_compute; reflexivity).
  assert (Hw : Permission.allowsWrite q = false) by (vm_compute; reflexivity).
  assert (Hr : Permission.allowsWrite r = true) by (vm_compute; reflexivity).
  destruct (H Ha Hw Hr) as (_ & _ & _ & H4 & _ & _ & H7).
  split; [exact H4 | exact H7].
Defined.

(** C6. For permissions [P] and [Q] with the same identity key (same
    principal id, resource URL and access type, the key being defined, i.e.
    the resource URL set), [P.mergeWith(Q)] succeeds and leaves [P] with the
    union of both mode sets; merging [Q] once more changes nothing; and the
    principal, resource URL, inheritance flag and every other field of [P]
    are as before. *)
Theorem C6_mergeWith_union (P Q : Permission.t)
    (Hid : Permission.webId P = Permission.webId Q)
    (Hurl : Permission.resourceUrl P = Permission.resourceUrl Q)
    (Hty : Permission.accessType P = Permission.accessType Q)
    (Hkey : truthy (Permission.resourceUrl P) = true) :
  exists P',
    Permission.mergeWith Q P = Ok P'
    /\ Permission.accessModes P'
       = Permission.accessModes P ∪ Permission.accessModes Q
    /\ Permission.mergeWith Q P' = Ok P'
    /\ Permission.agent P' = Permission.agent P
    /\ Permission.group P' = Permission.group P
    /\ Permission.resourceUrl P' = Permission.resourceUrl P
    /\ Permission.accessType P' = Permission.accessType P
    /\ Permission.inherited P' = Permission.inherited P
    /\ Permission.mailTo P' = Permission.mailTo P
    /\ Permission.originsAllowed P' = Permission.originsAllowed P
    /\ Permission.virtual P' = Permission.virtual P.
Proof.
  set (h := Permission.hashFragmentFor (Permission.webId P)
              (Permission.resourceUrl P) (Permission.accessType P)).
  assert (HP : Permission.hashFragment P = Ok h)
    by (by apply hashFragment_Ok).
  assert (HQ : Permission.hashFragment Q = Ok h).
  { unfold h. rewrite Hid, Hurl, Hty. apply hashFragment_Ok.
    by rewrite <- Hurl. }
  exists (Permission.set_accessModes
            (Permission.accessModes Q ∪ Permission.accessModes P) P).
  split; [by apply (mergeWith_same_hash Q P h)|].
  split; [simpl; set_solver|].
  split.
  - rewrite (mergeWith_same_hash Q _ h);
      [| by rewrite hashFragment_set_accessModes | done].
    rewrite set_accessModes_twice. simpl. do 2 f_equal. set_solver.
  - by destruct P.
Qed.

Lemma C6_mergeWith_union_witness :
  let url := Some "https://bob.example.com/docs/file1" in
  let bob := Permission.set_agent (Some "https://bob.example.com/#me")
               (Permission.new url false) in
  let P := Permission.addMode (One (Str READ)) bob in
  let Q := Permission.addMode (Many [Str WRITE; Str CONTROL]) bob in
  exists P',
    Permission.mergeWith Q P = Ok P'
    /\ Permission.accessModes P' = {[ READ ]} ∪ {[ CONTROL; WRITE ]}.
Proof.
  intros url bob P Q.
  destruct (C6_mergeWith_union P Q) as (P' & H1 & H2 & _);
    [reflexivity | reflexivity | reflexivity | reflexivity |].
  exists P'. split; [exact H1|]. rewrite H2. simpl. set_solver.
Defined.

(** [setGroup] raises whenever an agent is set, whatever it is given. *)
Lemma setGroup_agent_set (g : Permission.Principal) (p : Permission.t) :
  truthy (Permission.agent p) = true ->
  Permission.setGroup g p
  = Throw "Cannot set group, permission already has an agent set".
Proof. intros H. unfold Permission.setGroup. by rewrite H. Qed.

(** C8, as stated, fails for the reserved identifier: on a permission whose
    group is set (and whose agent is not), [setAgent(acl.EVERYONE)] returns
    normally, and the group that was set is replaced by the public one. *)
Lemma C8_setAgent_everyone_counterexample :
  let p := Permission.set_group (Some "https://devteam.example.com/something")
             (Permission.new None false) in
  truthy (Permission.group p) = true
  /\ exists p',
       Permission.setAgent (Permission.PTerm (Str EVERYONE)) p = Ok p'
       /\ Permission.group p' = Some EVERYONE.
Proof.
  intros p. split; [reflexivity|].
  eexists. split; [vm_compute; reflexivity | reflexivity].
Qed.

(** C8, amended. For every permission and every principal identifier other
    than the reserved 'everyone' identifier (given as a string or as an RDF
    statement), [setAgent] raises when a group is set; [setGroup] raises
    when an agent is set, for every identifier including 'everyone'; and
    [setAgent] with the 'everyone' identifier is handed to the public-grant
    helper, so it raises when an agent is set and otherwise returns a
    public permission. *)
Theorem C8_principal_kinds_exclusive (p : Permission.t) (tm : Term) :
  (truthy (Permission.group p) = true -> term_value tm <> EVERYONE ->
   Permission.setAgent (Permission.PTerm tm) p
   = Throw "Cannot set agent, permission already has a group set")
  /\ (truthy (Permission.agent p) = true ->
      Permission.setGroup (Permission.PTerm tm) p
      = Throw "Cannot set group, permission already has an agent set")
  /\ (truthy (Permission.agent p) = true ->
      Permission.setAgent (Permission.PTerm (Str EVERYONE)) p
      = Throw "Cannot set group, permission already has an agent set")
  /\ (truthy (Permission.agent p) = false ->
      exists p',
        Permission.setAgent (Permission.PTerm (Str EVERYONE)) p = Ok p'
        /\ Permission.isPublic p' = true).
Proof.
  repeat apply conj.
  - intros Hg Hne. unfold Permission.setAgent.
    apply String.eqb_neq in Hne. by rewrite Hne, Hg.
  - apply setGroup_agent_set.
  - intros Ha. unfold Permission.setAgent, Permission.setPublic. simpl.
    by rewrite setGroup_agent_set.
  - intros Ha. unfold Permission.setAgent, Permission.setPublic,
      Permission.setGroup. simpl. rewrite Ha. simpl.
    eexists. split; [reflexivity|]. reflexivity.
Qed.

Lemma C8_principal_kinds_exclusive_witness :
  let withGroup :=
    Permission.set_group (Some "https://devteam.example.com/something")
      (Permission.new None false) in
  let withAgent :=
    Permission.set_agent (Some "https://bob.example.com/profile/card#me")
      (Permission.new None false) in
  Permission.setAgent
    (Permission.PTerm (Str "https://bob.example.com/profile/card#me"))
    withGroup
  = Throw "Cannot set agent, permission already has a group set"
  /\ Permission.setGroup (Permission.PTerm (Str EVERYONE)) withAgent
     = Throw "Cannot set group, permission already has an agent set"
  /\ Permission.setAgent (Permission.PTerm (Str EVERYONE)) withAgent
     = Throw "Cannot set group, permission already has an agent set"
  /\ exists p',
       Permission.setAgent (Permission.PTerm (Str EVERYONE)) withGroup = Ok p'
       /\ Permission.isPublic p' = true.
Proof.
  intros withGroup withAgent.
  destruct (C8_principal_kinds_exclusive withGroup
              (Str "https://bob.example.com/profile/card#me"))
    as (H1 & _ & _ & H4).
  destruct (C8_principal_kinds_exclusive withAgent (Str EVERYONE))
    as (_ & H2 & H3 & _).
  split; [apply H1; [reflexivity | discriminate]|].
  split; [apply H2; reflexivity|].
  split; [apply H3; reflexivity|].
  apply H4; reflexivity.
Defined.

(** C9: what [hashFragment] does on a permission that has a resource URL
    but no principal. The guard tests [this.webId] (the method), not
    [this.webId()], so nothing is raised and the key is built from
    [null]. A missing resource URL does raise
    ([hashFragment_incomplete]). *)
Theorem C9_hashFragment_without_principal :
  let p := Permission.new (Some "https://bob.example.com/docs/file1") false in
  Permission.webId p = None
  /\ Permission.hashFragment p
     = Ok "null-https://bob.example.com/docs/file1-accessTo".
Proof. split; reflexivity. Qed.

(* ===================================================================== *)
(** * The order of [sort()] and the prefixes of a string *)
(* ===================================================================== *)

Section StringOrder.

Lemma ascii_compare_spec (x y : Ascii.ascii) :
  CompareSpec (x = y)
    (Ascii.N_of_ascii x < Ascii.N_of_ascii y)%N
    (Ascii.N_of_ascii y < Ascii.N_of_ascii x)%N
    (Ascii.compare x y).
Proof.
  unfold Ascii.compare.
  destruct (N.compare_spec (Ascii.N_of_ascii x) (Ascii.N_of_ascii y))
    as [E|L|G]; constructor; try done.
  rewrite <- (Ascii.ascii_N_embedding x), <- (Ascii.ascii_N_embedding y).
  by rewrite E.
Qed.

Lemma ascii_compare_refl x : Ascii.compare x x = Eq.
Proof. unfold Ascii.compare. apply N.compare_refl. Qed.

Lemma str_le_refl a : str_le a a.
Proof.
  unfold str_le, String.leb.
  induction a as [|x a IH]; simpl; [done|].
  by rewrite ascii_compare_refl.
Qed.

Lemma str_le_trans a b c : str_le a b -> str_le b c -> str_le a c.
Proof.
  unfold str_le, String.leb. revert b c.
  induction a as [|x a IH]; intros [|y b] [|z c]; simpl; try done.
  destruct (ascii_compare_spec x y) as [Exy|Hxy|Hxy];
    destruct (ascii_compare_spec y z) as [Eyz|Hyz|Hyz];
    destruct (ascii_compare_spec x z) as [Exz|Hxz|Hxz];
    try done; try lia; subst; try lia.
  apply IH.
Qed.

#[global] Instance str_le_transitive : Transitive str_le.
Proof. intros a b c. apply str_le_trans. Qed.

#[global] Instance str_le_total : Total str_le.
Proof. intros a b. apply String.leb_total. Qed.

Lemma str_le_antisym a b : str_le a b -> str_le b a -> a = b.
Proof. apply String.leb_antisym. Qed.

(** A prefix comes first in the order of [sort()]. *)
Lemma prefix_str_le a b : String.prefix a b = true -> str_le a b.
Proof.
  unfold str_le, String.leb. revert b.
  induction a as [|x a IH]; intros [|y b]; simpl; try done.
  destruct (Ascii.ascii_dec x y) as [->|]; [|done].
  rewrite ascii_compare_refl. apply IH.
Qed.

Lemma prefix_length a b :
  String.prefix a b = true -> String.length a <= String.length b.
Proof.
  revert b. induction a as [|x a IH]; intros [|y b]; simpl;
    try done; try lia.
  destruct (Ascii.ascii_dec x y); [|done].
  intros H. apply IH in H. lia.
Qed.

Lemma prefix_refl a : String.prefix a a = true.
Proof.
  induction a as [|x a IH]; simpl; [done|].
  by destruct (Ascii.ascii_dec x x).
Qed.

(** Two prefixes of one string are prefixes of each other, the shorter of
    the longer. *)
Lemma prefix_comparable a b u :
  String.prefix a u = true -> String.prefix b u = true ->
  String.prefix a b = true \/ String.prefix b a = true.
Proof.
  revert b u. induction a as [|x a IH]; intros [|y b] [|z u]; simpl;
    try done; auto.
  destruct (Ascii.ascii_dec x z) as [->|]; [|done].
  destruct (Ascii.ascii_dec y z) as [->|]; [|done].
  destruct (Ascii.ascii_dec z z); [|done].
  apply IH.
Qed.

Lemma prefix_same_length a b :
  String.prefix a b = true -> String.length b <= String.length a -> a = b.
Proof.
  revert b. induction a as [|x a IH]; intros [|y b]; simpl;
    try done; try lia.
  destruct (Ascii.ascii_dec x y) as [->|]; [|done].
  intros H L. f_equal. apply IH; [done|lia].
Qed.

(** Among the prefixes of one string, the order of [sort()] is the order
    of the lengths. *)
Lemma prefixes_le_length a b u :
  String.prefix a u = true -> String.prefix b u = true ->
  str_le a b -> String.length a <= String.length b.
Proof.
  intros Ha Hb Hle.
  destruct (prefix_comparable a b u Ha Hb) as [H|H].
  - by apply prefix_length.
  - apply prefix_str_le in H as Hle'.
    by rewrite (str_le_antisym a b Hle Hle').
Qed.

Lemma StronglySorted_flip_reverse {A} (R : relation A) (l : list A) :
  StronglySorted R l -> StronglySorted (flip R) (reverse l).
Proof.
  induction 1 as [|x l Hl IH Hx]; [constructor|].
  rewrite reverse_cons. apply StronglySorted_app_2.
  - intros x1 x2 H1 H2. apply list_elem_of_singleton in H2 as ->.
    rewrite elem_of_reverse in H1. unfold flip.
    rewrite Forall_forall in Hx. by apply Hx.
  - exact IH.
  - repeat constructor.
Qed.

(** [sort()] yields the sorted arrangement of its elements. *)
Lemma sort_sorted l : StronglySorted str_le (JS.sort l).
Proof. unfold JS.sort. apply StronglySorted_merge_sort; apply _. Qed.

Lemma elem_of_sort x l : x ∈ JS.sort l <-> x ∈ l.
Proof. unfold JS.sort. by rewrite merge_sort_Permutation. Qed.

End StringOrder.

(* ===================================================================== *)
(** * Resolution of the applicable permission *)
(* ===================================================================== *)

Section Applicability.

Import PermissionSet.

(** The containers tried by the loop are the keys of [defaultAuths], from
    the last to the first in the order of [sort()]. *)
Lemma sorted_containers_sorted (defaultAuths : gmap string nat) :
  StronglySorted (flip str_le) (sorted_containers defaultAuths).
Proof.
  unfold sorted_containers. apply StronglySorted_flip_reverse, sort_sorted.
Qed.

Lemma elem_of_sorted_containers (defaultAuths : gmap string nat) c :
  c ∈ sorted_containers defaultAuths <-> is_Some (defaultAuths !! c).
Proof.
  unfold sorted_containers.
  by rewrite elem_of_reverse, elem_of_sort, elem_of_elements, elem_of_dom.
Qed.

(** The loop returns the entry of the first container, in the order of the
    list, that is a prefix of the resource. On a list in descending order
    that container is the greatest prefix. *)
Lemma first_container_spec (l : list string) (u : string)
    (m : gmap string nat) :
  StronglySorted (flip str_le) l ->
  (forall c, c ∈ l -> is_Some (m !! c)) ->
  match first_container l u m with
  | Some d =>
      exists c, c ∈ l /\ m !! c = Some d /\ String.prefix c u = true
                /\ forall c', c' ∈ l -> String.prefix c' u = true ->
                              str_le c' c
  | None => forall c, c ∈ l -> String.prefix c u = false
  end.
Proof.
  induction l as [|c l IH]; intros Hs Hdom; simpl.
  - intros c Hc. by apply elem_of_nil in Hc.
  - apply StronglySorted_inv in Hs as [Hs Hc].
    rewrite Forall_forall in Hc. unfold startsWith.
    destruct (String.prefix c u) eqn:Hp.
    + destruct (Hdom c) as [d Hd]; [by left|]. rewrite Hd.
      exists c. split; [by left|]. split; [done|]. split; [done|].
      intros c' Hc' _. apply elem_of_cons in Hc' as [->|Hc'].
      * apply str_le_refl.
      * by apply Hc.
    + specialize (IH Hs).
      destruct (first_container l u m) as [d|].
      * destruct IH as (c0 & H0 & H1 & H2 & H3);
          [intros; apply Hdom; by right|].
        exists c0. split; [by right|]. split; [done|]. split; [done|].
        intros c' Hc' Hp'. apply elem_of_cons in Hc' as [->|Hc'].
        -- congruence.
        -- by apply H3.
      * intros c0 Hc0. apply elem_of_cons in Hc0 as [->|Hc0]; [done|].
        apply IH; [|done]. intros; apply Hdom; by right.
Qed.

End Applicability.

(** C1. [findAuthByAgent] returns the Direct ('accessTo') permission of the
    principal whose resource URL is the queried resource when there is one;
    otherwise, among the Inherited ('default') permissions of the principal
    whose resource URL is a prefix of the queried resource, the one with the
    longest resource URL, which is also the first one in reverse
    lexicographic order; and nothing when there is no such permission. *)
Theorem C1_findAuthByAgent_applicable (s : PermissionSet.t)
    (i : PermissionSet.IndexType) (webId url : string) :
  exists r,
    PermissionSet.findAuthByAgent webId (Some url) i s = Ok r
    /\ match PermissionSet.lookup3 (PermissionSet.authsBy s i) webId
               ACCESS_TO url with
       | Some direct => r = Some direct
       | None =>
           match PermissionSet.authsBy s i !! webId with
           | None => r = None
           | Some byType =>
               match byType !! DEFAULT with
               | None => r = None
               | Some defaultAuths =>
                   match r with
                   | Some d =>
                       exists c, most_specific_container defaultAuths url c d
                   | None =>
                       forall c, is_Some (defaultAuths !! c) ->
                                 String.prefix c url = false
                   end
               end
           end
       end.
Proof.
  unfold PermissionSet.findAuthByAgent, PermissionSet.lookup3. simpl.
  destruct (PermissionSet.authsBy s i !! webId) as [byType|];
    [|by exists None].
  set (direct := match byType !! ACCESS_TO with
                 | Some accessToAuths => accessToAuths !! url
                 | None => None
                 end).
  destruct direct as [a|]; [by exists (Some a)|].
  destruct (byType !! DEFAULT) as [defaultAuths|]; [|by exists None].
  destruct (defaultAuths !! url) as [d|] eqn:Hexact.
  - exists (Some d). split; [done|]. exists url.
    split; [done|]. split; [apply prefix_refl|].
    intros c' _ Hp. split; [by apply prefix_length|by apply prefix_str_le].
  - pose proof (first_container_spec (PermissionSet.sorted_containers
                  defaultAuths) url defaultAuths
                  (sorted_containers_sorted defaultAuths)) as Hspec.
    assert (Hdom : forall c,
               c ∈ PermissionSet.sorted_containers defaultAuths ->
               is_Some (defaultAuths !! c))
      by (intros c; apply elem_of_sorted_containers).
    specialize (Hspec Hdom).
    exists (PermissionSet.first_container
              (PermissionSet.sorted_containers defaultAuths) url
              defaultAuths).
    split.
    { by destruct (PermissionSet.sorted_containers defaultAuths). }
    destruct (PermissionSet.first_container _ url defaultAuths) as [d|].
    + destruct Hspec as (c & Hc & Hd & Hp & Hmax).
      exists c. split; [done|]. split; [done|].
      intros c' Hc' Hp'.
      assert (Hle : str_le c' c)
        by (apply Hmax; [by apply elem_of_sorted_containers|done]).
      split; [|done]. by apply (prefixes_le_length c' c url).
    + intros c Hc. apply Hspec. by apply elem_of_sorted_containers.
Qed.

(* ===================================================================== *)
(** * Well-formed stores and the steps of the methods *)
(* ===================================================================== *)

Section Steps.

Import PermissionSet.

Lemma bind_Ok {A B} (m : M A) (k : A -> M B) w a w1 :
  m w = (Ok a, w1) -> bind m k w = k a w1.
Proof. intros H. unfold bind. by rewrite H. Qed.

Lemma deref_Some l p w : heap w !! l = Some p -> deref l w = (Ok p, w).
Proof. intros H. unfold deref. by rewrite H. Qed.

(** *** Read-only methods *)

Lemma readonly_ret {A} (a : A) : readonly (ret a).
Proof. by intros w. Qed.

Lemma readonly_lift {A} (o : outcome A) : readonly (lift o).
Proof. by intros w. Qed.

Lemma readonly_get_this : readonly get_this.
Proof. by intros w. Qed.

Lemma readonly_deref l : readonly (deref l).
Proof. intros w. unfold deref. by destruct (heap w !! l). Qed.

Lemma readonly_bind {A B} (m : M A) (k : A -> M B) :
  readonly m -> (forall a, readonly (k a)) -> readonly (bind m k).
Proof.
  intros Hm Hk w. unfold bind. specialize (Hm w).
  destruct (m w) as [[a|msg|] w1]; simpl in *; subst; try done.
  apply Hk.
Qed.

Lemma readonly_in_then {A} (m : M A) : readonly m -> readonly (in_then m).
Proof.
  intros Hm w. unfold in_then. specialize (Hm w).
  by destruct (m w) as [[a|msg|] w1].
Qed.

Lemma readonly_allowsPublic mode url : readonly (allowsPublic mode url).
Proof.
  unfold allowsPublic.
  apply readonly_bind; [apply readonly_get_this|]. intros s.
  apply readonly_bind; [apply readonly_lift|]. intros [l|].
  - apply readonly_bind; [apply readonly_deref|]. intros p.
    apply readonly_ret.
  - apply readonly_ret.
Qed.

Lemma readonly_checkAccessForAgent url agentId mode :
  readonly (checkAccessForAgent url agentId mode).
Proof.
  unfold checkAccessForAgent.
  apply readonly_bind; [apply readonly_get_this|]. intros s.
  apply readonly_bind; [apply readonly_lift|]. intros [l|].
  - apply readonly_bind; [apply readonly_deref|]. intros p.
    apply readonly_ret.
  - apply readonly_ret.
Qed.

Lemma readonly_checkGroupAccess url agentId mode :
  readonly (checkGroupAccess url agentId mode).
Proof.
  unfold checkGroupAccess.
  apply readonly_bind; [apply readonly_get_this|]. intros s.
  generalize (groupsForMember agentId s). intros l.
  assert (H : forall (acc : M bool), readonly acc ->
            readonly (foldl (fun (acc : M bool) groupWebId =>
                        result <~ acc ;;
                        granted <~ checkAccessForAgent url groupWebId mode ;;
                        ret (if granted then true else result)) acc l)).
  { induction l as [|g l IH]; intros acc Hacc; simpl; [done|].
    apply IH. apply readonly_bind; [done|]. intros r.
    apply readonly_bind; [apply readonly_checkAccessForAgent|]. intros b.
    apply readonly_ret. }
  apply H, readonly_ret.
Qed.

End Steps.

(* ===================================================================== *)
(** * [checkAccess]: public grants, and what the call changes *)
(* ===================================================================== *)

Section CheckAccessFacts.

Import PermissionSet.

Lemma readonly_run {A} (m : M A) w : readonly m -> m w = (fst (m w), w).
Proof. intros H. specialize (H w). destruct (m w). simpl in *. by subst. Qed.

(** The lookup of a permission does not read the origin context. *)
Lemma findAuthByAgent_origin_context webId url i strict o h s :
  findAuthByAgent webId url i (set_origin_context strict o h s)
  = findAuthByAgent webId url i s.
Proof. unfold findAuthByAgent. by destruct i. Qed.

Lemma allowsPublic_origin_context mode url strict o h w :
  fst (allowsPublic mode url
         (mkWorld (heap w) (set_origin_context strict o h (this w))))
  = fst (allowsPublic mode url w).
Proof.
  unfold allowsPublic, bind, get_this, lift, findPublicAuth. simpl.
  rewrite findAuthByAgent_origin_context.
  destruct (findAuthByAgent EVERYONE _ GROUP_INDEX (this w)) as [[l|]| |];
    try done.
  unfold deref. simpl. by destruct (heap w !! l).
Qed.

(** The elements of the cache after [loadGroups] stored its results. *)
Lemma cache_groups_lookup loaded cache k :
  cache_groups loaded cache !! k = cache !! k
  \/ exists g, Some g ∈ loaded
               /\ string_of_undefined (GroupListing.uri g) = k
               /\ cache_groups loaded cache !! k = Some g.
Proof.
  unfold cache_groups. revert cache.
  induction loaded as [|[g|] loaded IH]; intros cache; simpl.
  - by left.
  - destruct (IH (<[string_of_undefined (GroupListing.uri g) := g]> cache))
      as [E|(g' & Hin & Hk & Hl)].
    + destruct (decide (string_of_undefined (GroupListing.uri g) = k))
        as [Hk|Hk].
      * right. exists g. split; [by left|]. split; [done|].
        rewrite E. subst k. apply lookup_insert_eq.
      * left. rewrite E. by apply lookup_insert_ne.
    + right. exists g'. split; [by right|]. done.
  - destruct (IH cache) as [E|(g' & Hin & Hk & Hl)]; [by left|].
    right. exists g'. split; [by right|]. done.
Qed.

Lemma cache_groups_dom loaded cache :
  dom cache ⊆ dom (cache_groups loaded cache).
Proof.
  unfold cache_groups. revert cache.
  induction loaded as [|[g|] loaded IH]; intros cache; simpl; [done| |done].
  etrans; [|apply IH]. rewrite dom_insert. set_solver.
Qed.

Lemma promise_all_Resolved {A} (l : list (promise A)) r x :
  promise_all l = Resolved r -> x ∈ r -> Resolved x ∈ l.
Proof.
  revert r. induction l as [|[a|msg] l IH]; intros r; simpl.
  - intros [= <-] Hx. by apply elem_of_nil in Hx.
  - destruct (promise_all l) as [r'|]; [|done]. intros [= <-] Hx.
    apply elem_of_cons in Hx as [->|Hx]; [by left|].
    right. by apply (IH r').
  - done.
Qed.

(** A loaded listing carries the URI it was loaded from. *)
Lemma initFromGraph_uri u graph rdf_lib g g' :
  GroupListing.initFromGraph u graph rdf_lib g = Ok g' ->
  GroupListing.uri g' = GroupListing.uri g.
Proof.
  unfold GroupListing.initFromGraph.
  set (u' := match u with Some _ => u | None => GroupListing.uri g end).
  destruct (negb (truthy u')); [done|].
  destruct (GroupListing.or_own graph (GroupListing.graph g)) as [gr|];
    [|done].
  destruct (GroupListing.or_own rdf_lib (GroupListing.rdf g)); [|done].
  intros [= <-].
  generalize (Graph.match_sp gr (string_of_undefined u')
                Graph.vcard_hasMember).
  intros l.
  set (g1 := GroupListing.mk _ _ _ _ _ _).
  change (GroupListing.uri g) with (GroupListing.uri g1).
  generalize g1. clear g1.
  induction l as [|tr l IH]; intros g1; simpl; [done|].
  by rewrite IH.
Qed.

Lemma loadFrom_uri u fetch rdf_lib g :
  GroupListing.loadFrom u fetch rdf_lib = Resolved (Some g) ->
  GroupListing.uri g = Some u.
Proof.
  unfold GroupListing.loadFrom, catch_, then_.
  destruct (fetch u) as [graph|msg]; [|done].
  destruct (GroupListing.initFromGraph _ (Some graph) _ _) as [g'| |] eqn:E;
    try done.
  intros [= <-]. by apply initFromGraph_uri in E.
Qed.

(** [loadGroups] changes nothing but the cache, where it stores the
    listings that were loaded. *)
Lemma loadGroups_effect o w :
  exists r cache,
    loadGroups o w = (Ok r, mkWorld (heap w) (set_groups cache (this w)))
    /\ dom (groups (this w)) ⊆ dom cache
    /\ forall k,
         cache !! k = groups (this w) !! k
         \/ exists fetch g,
              fetchGraph o = Some fetch
              /\ GroupListing.loadFrom k fetch (load_rdf o || rdf (this w))
                 = Resolved (Some g)
              /\ cache !! k = Some g.
Proof.
  assert (Hid : forall r : promise unit,
             exists r' cache,
               (Ok r, w)
               = (Ok r', mkWorld (heap w) (set_groups cache (this w)))
               /\ dom (groups (this w)) ⊆ dom cache
               /\ forall k,
                    cache !! k = groups (this w) !! k
                    \/ exists fetch g,
                         fetchGraph o = Some fetch
                         /\ GroupListing.loadFrom k fetch
                              (load_rdf o || rdf (this w))
                            = Resolved (Some g)
                         /\ cache !! k = Some g).
  { intros r. exists r, (groups (this w)).
    split; [by destruct w as [hp []]|]. split; [done|]. by left. }
  unfold loadGroups, bind, get_this. simpl.
  destruct (fetchGraph o) as [fetch|] eqn:Hfetch; [|apply Hid].
  destruct (negb (load_rdf o || rdf (this w))); [apply Hid|].
  destruct (promise_all _) as [loaded|msg] eqn:Hall; [|apply Hid].
  unfold modify_this, ret. simpl.
  exists (Resolved tt), (cache_groups loaded (groups (this w))).
  split; [done|]. split; [apply cache_groups_dom|].
  intros k.
  destruct (cache_groups_lookup loaded (groups (this w)) k)
    as [E|(g & Hin & Hk & Hl)]; [by left|].
  right. exists fetch, g. split; [done|]. split; [|done].
  apply (promise_all_Resolved _ _ _ Hall) in Hin.
  apply list_elem_of_fmap in Hin as (u & Hu & _).
  symmetry in Hu. apply loadFrom_uri in Hu as Huri.
  rewrite Huri in Hk. simpl in Hk. by subst u.
Qed.

(** [checkAccess] changes nothing but the cache of group listings. *)
Lemma checkAccess_effect w url agentId mode o :
  exists cache,
    exec (checkAccess url agentId mode o) w
    = mkWorld (heap w) (set_groups cache (this w))
    /\ dom (groups (this w)) ⊆ dom cache
    /\ forall k,
         cache !! k = groups (this w) !! k
         \/ exists fetch g,
              fetchGraph o = Some fetch
              /\ GroupListing.loadFrom k fetch (load_rdf o || rdf (this w))
                 = Resolved (Some g)
              /\ cache !! k = Some g.
Proof.
  assert (Hsame : forall w1, w1 = w ->
            exists cache,
              w1 = mkWorld (heap w) (set_groups cache (this w))
              /\ dom (groups (this w)) ⊆ dom cache
              /\ forall k,
                   cache !! k = groups (this w) !! k
                   \/ exists fetch g,
                        fetchGraph o = Some fetch
                        /\ GroupListing.loadFrom k fetch
                             (load_rdf o || rdf (this w))
                           = Resolved (Some g)
                        /\ cache !! k = Some g).
  { intros w1 ->. exists (groups (this w)).
    split; [by destruct w as [hp []]|]. split; [done|]. by left. }
  unfold exec, checkAccess.
  unfold bind at 1.
  rewrite (readonly_run _ w (readonly_allowsPublic mode (Some url))).
  destruct (fst (allowsPublic mode (Some url) w))
    as [[|]| |]; try (by apply Hsame).
  unfold bind at 1.
  rewrite (readonly_run _ w (readonly_checkAccessForAgent url agentId mode)).
  destruct (fst (checkAccessForAgent url agentId mode w))
    as [[|]| |]; try (by apply Hsame).
  unfold bind at 1, get_this.
  destruct (hasGroups (this w)); [|by apply Hsame].
  unfold bind.
  destruct (loadGroups_effect o w) as (r & cache & Hrun & Hdom & Hcache).
  rewrite Hrun. exists cache. split; [|done].
  destruct r as [[]|msg]; [|done].
  by rewrite (readonly_run _ _
                (readonly_in_then _
                   (readonly_checkGroupAccess url agentId mode))).
Qed.

End CheckAccessFacts.

(** C3. When the public permission that applies to the queried resource
    allows the requested mode, [checkAccess] resolves to [true] for every
    agent and under every origin context ([strictOrigin], [origin],
    [host]), leaving the set as it is; and the outcome of the public check
    is the same in any two origin contexts, for every set. *)
Theorem C3_public_access_ignores_origin (w : PermissionSet.world)
    (url mode : string) (l : nat) (p : Permission.t)
    (Hurl : truthy (Some url) = true)
    (Hfind : PermissionSet.findPublicAuth (Some url) (PermissionSet.this w)
             = Ok (Some l))
    (Hp : PermissionSet.heap w !! l = Some p)
    (Hmode : Permission.allowsMode mode p = true) :
  (forall agentId strict o h opts,
     let w_ctx :=
       PermissionSet.mkWorld (PermissionSet.heap w)
         (PermissionSet.set_origin_context strict o h (PermissionSet.this w))
     in
     PermissionSet.run (PermissionSet.checkAccess url agentId mode opts) w_ctx
     = (Ok (Resolved true), w_ctx))
  /\ (forall (w0 : PermissionSet.world) url0 strict o h strict' o' h',
        PermissionSet.eval (PermissionSet.allowsPublic mode url0)
          (PermissionSet.mkWorld (PermissionSet.heap w0)
             (PermissionSet.set_origin_context strict o h
                (PermissionSet.this w0)))
        = PermissionSet.eval (PermissionSet.allowsPublic mode url0)
            (PermissionSet.mkWorld (PermissionSet.heap w0)
               (PermissionSet.set_origin_context strict' o' h'
                  (PermissionSet.this w0)))).
Proof.
  split.
  - intros agentId strict o h opts w_ctx.
    unfold PermissionSet.run, PermissionSet.checkAccess.
    assert (Hpub : PermissionSet.allowsPublic mode (Some url) w_ctx
                   = (Ok true, w_ctx)).
    { unfold PermissionSet.allowsPublic, PermissionSet.bind,
        PermissionSet.get_this, PermissionSet.lift. simpl.
      unfold or_else. rewrite Hurl.
      unfold PermissionSet.findPublicAuth in *.
      rewrite findAuthByAgent_origin_context, Hfind.
      unfold PermissionSet.deref. simpl. rewrite Hp.
      unfold PermissionSet.ret. by rewrite Hmode. }
    by rewrite (bind_Ok _ _ _ _ _ Hpub).
  - intros w0 url0 strict o h strict' o' h'. unfold PermissionSet.eval.
    by rewrite !allowsPublic_origin_context.
Qed.

(** C10. [checkAccess] leaves the store of permissions, the collection, the
    two indexes and the settings of the set as they were, whatever its
    arguments and its outcome. Only the cache of group listings may differ:
    no key is lost, and a key whose entry differs holds the listing that
    the fetcher of this call loaded for it. *)
Theorem C10_checkAccess_frame (w : PermissionSet.world)
    (url agentId mode : string) (o : PermissionSet.load_options) :
  let w' := PermissionSet.exec
              (PermissionSet.checkAccess url agentId mode o) w in
  PermissionSet.heap w' = PermissionSet.heap w
  /\ PermissionSet.authorizations (PermissionSet.this w')
     = PermissionSet.authorizations (PermissionSet.this w)
  /\ PermissionSet.authsBy_agents (PermissionSet.this w')
     = PermissionSet.authsBy_agents (PermissionSet.this w)
  /\ PermissionSet.authsBy_groups (PermissionSet.this w')
     = PermissionSet.authsBy_groups (PermissionSet.this w)
  /\ settings (PermissionSet.this w') = settings (PermissionSet.this w)
  /\ dom (PermissionSet.groups (PermissionSet.this w))
     ⊆ dom (PermissionSet.groups (PermissionSet.this w'))
  /\ forall k,
       PermissionSet.groups (PermissionSet.this w') !! k
       = PermissionSet.groups (PermissionSet.this w) !! k
       \/ exists fetch g,
            PermissionSet.fetchGraph o = Some fetch
            /\ GroupListing.loadFrom k fetch
                 (PermissionSet.load_rdf o
                  || PermissionSet.rdf (PermissionSet.this w))
               = Resolved (Some g)
            /\ PermissionSet.groups (PermissionSet.this w') !! k = Some g.
Proof.
  intros w'. subst w'.
  destruct (checkAccess_effect w url agentId mode o)
    as (cache & -> & Hdom & Hcache).
  simpl. repeat (split; [done|]). exact Hcache.
Qed.

(* ===================================================================== *)
(** * [checkAccess] as a function of the store *)
(* ===================================================================== *)

Section CheckAccessSpec.

Import PermissionSet.

Lemma first_container_value containers url (defaultAuths : gmap string nat)
    d :
  first_container containers url defaultAuths = Some d ->
  exists c, defaultAuths !! c = Some d.
Proof.
  induction containers as [|c containers IH]; simpl; [done|].
  destruct (startsWith url c); eauto.
Qed.

Lemma findAuthByAgent_total webId url i s :
  exists r, findAuthByAgent webId (Some url) i s = Ok r.
Proof.
  unfold findAuthByAgent. simpl.
  destruct (authsBy s i !! webId) as [byType|]; [|eauto].
  destruct (match byType !! ACCESS_TO with
            | Some accessToAuths => accessToAuths !! url
            | None => None
            end); [eauto|].
  destruct (byType !! DEFAULT) as [defaultAuths|]; [|eauto].
  destruct (defaultAuths !! url); [eauto|].
  destruct (sorted_containers defaultAuths); eauto.
Qed.

Lemma findAuthByAgent_lookup3 webId url i s l :
  findAuthByAgent webId (Some url) i s = Ok (Some l) ->
  exists ty u, lookup3 (authsBy s i) webId ty u = Some l.
Proof.
  unfold findAuthByAgent, lookup3. simpl.
  destruct (authsBy s i !! webId) as [byType|]; [|done].
  destruct (byType !! ACCESS_TO) as [accessToAuths|] eqn:Hdirect.
  - destruct (accessToAuths !! url) as [a|] eqn:Ha.
    + intros [= <-]. exists ACCESS_TO, url. by rewrite Hdirect.
    + destruct (byType !! DEFAULT) as [defaultAuths|] eqn:Hdef; [|done].
      destruct (defaultAuths !! url) as [d|] eqn:Hd.
      * intros [= <-]. exists DEFAULT, url. by rewrite Hdef.
      * intros H.
        assert (Hf : first_container (sorted_containers defaultAuths) url
                       defaultAuths = Some l)
          by (destruct (sorted_containers defaultAuths); by injection H).
        apply first_container_value in Hf as (c & Hc).
        exists DEFAULT, c. by rewrite Hdef.
  - destruct (byType !! DEFAULT) as [defaultAuths|] eqn:Hdef; [|done].
    destruct (defaultAuths !! url) as [d|] eqn:Hd.
    + intros [= <-]. exists DEFAULT, url. by rewrite Hdef.
    + intros H.
      assert (Hf : first_container (sorted_containers defaultAuths) url
                     defaultAuths = Some l)
        by (destruct (sorted_containers defaultAuths); by injection H).
      apply first_container_value in Hf as (c & Hc).
      exists DEFAULT, c. by rewrite Hdef.
Qed.

Lemma wf_live w i webId url l :
  wf w ->
  findAuthByAgent webId (Some url) i (this w) = Ok (Some l) ->
  is_Some (heap w !! l).
Proof.
  intros Hwf H. apply findAuthByAgent_lookup3 in H as (ty & u & H).
  apply (wf_index w Hwf) in H as (p & Hp & _). eauto.
Qed.

Lemma allowsPublic_run w mode url :
  wf w -> truthy (Some url) = true ->
  allowsPublic mode (Some url) w = (Ok (publicly_allowed w mode url), w).
Proof.
  intros Hwf Hurl.
  unfold allowsPublic, publicly_allowed, bind, get_this, lift, or_else.
  rewrite Hurl. unfold findPublicAuth.
  destruct (findAuthByAgent_total EVERYONE url GROUP_INDEX (this w))
    as ([l|] & Hr); rewrite Hr; [|done].
  destruct (wf_live w _ _ _ _ Hwf Hr) as [p Hp].
  unfold deref. by rewrite Hp.
Qed.

Lemma checkAccessForAgent_run w url agentId mode :
  wf w ->
  checkAccessForAgent url agentId mode w
  = (Ok (granted w url agentId mode), w).
Proof.
  intros Hwf.
  unfold checkAccessForAgent, granted, bind, get_this, lift.
  destruct (findAuthByAgent_total agentId url AGENT_INDEX (this w))
    as ([l|] & Hr); rewrite Hr; [|done].
  destruct (wf_live w _ _ _ _ Hwf Hr) as [p Hp].
  unfold deref. by rewrite Hp.
Qed.

Lemma checkGroupAccess_run w url agentId mode :
  wf w ->
  checkGroupAccess url agentId mode w
  = (Ok (existsb (fun g => granted w url g mode)
           (groupsForMember agentId (this w))), w).
Proof.
  intros Hwf. unfold checkGroupAccess.
  rewrite (bind_Ok _ _ w (this w) w); [|done].
  assert (H : forall l (acc : M bool) b,
            acc w = (Ok b, w) ->
            foldl (fun (acc : M bool) groupWebId =>
                     result <~ acc ;;
                     granted <~ checkAccessForAgent url groupWebId mode ;;
                     ret (if granted then true else result)) acc l w
            = (Ok (b || existsb (fun g => granted w url g mode) l), w)).
  { induction l as [|g l IH]; intros acc b Hacc; simpl.
    - by rewrite orb_false_r.
    - erewrite IH; [by rewrite orb_assoc|].
      rewrite (bind_Ok _ _ _ _ _ Hacc).
      rewrite (bind_Ok _ _ _ _ _ (checkAccessForAgent_run w url g mode Hwf)).
      unfold ret. do 2 f_equal.
      destruct (granted w url g mode), b; done. }
  by rewrite (H _ _ false).
Qed.

(** [loadFrom] settles to a value, never to a rejection. *)
Lemma loadFrom_resolves u fetch rdf_lib :
  GroupListing.loadFrom u fetch rdf_lib
  = Resolved (listing_of fetch rdf_lib u).
Proof.
  unfold listing_of, GroupListing.loadFrom, catch_, then_.
  destruct (fetch u) as [graph|msg]; [|done].
  by destruct (GroupListing.initFromGraph _ (Some graph) _ _).
Qed.

Lemma promise_all_resolved {A} (f : string -> promise A)
    (g : string -> A) (l : list string) :
  (forall u, f u = Resolved (g u)) ->
  promise_all (List.map f l) = Resolved (g <$> l).
Proof.
  intros H. induction l as [|u l IH]; simpl; [done|].
  by rewrite H, IH.
Qed.

Lemma loadGroups_run w fetch rdf_opt :
  rdf_opt || rdf (this w) = true ->
  loadGroups (mkLoadOptions (Some fetch) rdf_opt) w
  = (Ok (Resolved tt),
     mkWorld (heap w)
       (set_groups (cache_after_load fetch (rdf_opt || rdf (this w)) (this w))
          (this w))).
Proof.
  intros Hrdf. unfold loadGroups, bind, get_this. simpl.
  rewrite Hrdf. simpl.
  rewrite (promise_all_resolved _ (listing_of fetch true));
    [|intros u; apply loadFrom_resolves].
  done.
Qed.

Lemma wf_set_groups w cache :
  wf w -> wf (mkWorld (heap w) (set_groups cache (this w))).
Proof.
  intros [H1 H2]. split; simpl.
  - exact H1.
  - intros i webId ty u l Hl.
    assert (Hl' : lookup3 (authsBy (this w) i) webId ty u = Some l)
      by (by destruct i).
    apply H2 in Hl'. exact Hl'.
Qed.

(** The whole of [checkAccess] on a well-formed store, with a fetcher and
    an RDF library at hand. *)
Lemma checkAccess_run w url agentId mode fetch rdf_opt :
  wf w -> truthy (Some url) = true ->
  rdf_opt || rdf (this w) = true ->
  checkAccess url agentId mode (mkLoadOptions (Some fetch) rdf_opt) w
  = if publicly_allowed w mode url || granted w url agentId mode
    then (Ok (Resolved true), w)
    else if hasGroups (this w)
    then
      let cache :=
        cache_after_load fetch (rdf_opt || rdf (this w)) (this w) in
      (Ok (Resolved
             (existsb (fun g => granted w url g mode)
                (groupsForMember agentId (set_groups cache (this w))))),
       mkWorld (heap w) (set_groups cache (this w)))
    else (Ok (Resolved false), w).
Proof.
  intros Hwf Hurl Hrdf. unfold checkAccess.
  rewrite (bind_Ok _ _ _ _ _ (allowsPublic_run w mode url Hwf Hurl)).
  destruct (publicly_allowed w mode url); [done|].
  rewrite (bind_Ok _ _ _ _ _ (checkAccessForAgent_run w url agentId mode Hwf)).
  destruct (granted w url agentId mode); [done|]. simpl.
  rewrite (bind_Ok _ _ w (this w) w); [|done].
  destruct (hasGroups (this w)); [|done].
  rewrite (bind_Ok _ _ _ _ _ (loadGroups_run w fetch rdf_opt Hrdf)).
  unfold in_then.
  rewrite (checkGroupAccess_run _ url agentId mode
             (wf_set_groups w _ Hwf)).
  done.
Qed.

(** The cache after loading: a group that was listed and loaded holds its
    new listing, every other key holds what it held. *)
Lemma cache_groups_fmap_lookup (L : string -> option GroupListing.t)
    (uris : list string) cache k :
  NoDup uris ->
  (forall u g, L u = Some g -> GroupListing.uri g = Some u) ->
  cache_groups (L <$> uris) cache !! k
  = if bool_decide (k ∈ uris)
    then match L k with Some g => Some g | None => cache !! k end
    else cache !! k.
Proof.
  intros Hnd HL. unfold cache_groups. revert cache.
  induction uris as [|u uris IH]; intros cache; simpl; [done|].
  apply NoDup_cons in Hnd as [Hu Hnd]. rewrite (IH Hnd).
  destruct (decide (k = u)) as [->|Hne].
  - rewrite (bool_decide_eq_false_2 (u ∈ uris)) by done.
    rewrite (bool_decide_eq_true_2 (u ∈ u :: uris)) by (by left).
    destruct (L u) as [g|] eqn:Hg; [|done].
    rewrite (HL u g Hg). simpl. apply lookup_insert_eq.
  - assert (Hiff : bool_decide (k ∈ u :: uris) = bool_decide (k ∈ uris)).
    { apply bool_decide_ext. rewrite elem_of_cons. naive_solver. }
    rewrite Hiff.
    assert (Hc : (match L u with
                  | Some g =>
                      <[string_of_undefined (GroupListing.uri g) := g]> cache
                  | None => cache
                  end) !! k = cache !! k).
    { destruct (L u) as [g|] eqn:Hg; [|done].
      rewrite (HL u g Hg). simpl. by apply lookup_insert_ne. }
    by rewrite Hc.
Qed.

Lemma listing_of_uri fetch rdf_lib u g :
  listing_of fetch rdf_lib u = Some g -> GroupListing.uri g = Some u.
Proof.
  intros H. apply (loadFrom_uri u fetch rdf_lib).
  by rewrite loadFrom_resolves, H.
Qed.

Lemma groupUris_NoDup b s : NoDup (groupUris b s).
Proof.
  unfold groupUris. destruct b.
  - apply NoDup_ListNoDup, List.NoDup_filter, NoDup_ListNoDup,
      NoDup_elements.
  - apply NoDup_elements.
Qed.

Lemma cache_after_load_lookup fetch rdf_lib s k :
  cache_after_load fetch rdf_lib s !! k
  = if bool_decide (k ∈ groupUris true s)
    then match listing_of fetch rdf_lib k with
         | Some g => Some g
         | None => groups s !! k
         end
    else groups s !! k.
Proof.
  unfold cache_after_load. apply cache_groups_fmap_lookup.
  - apply groupUris_NoDup.
  - apply listing_of_uri.
Qed.

End CheckAccessSpec.

Lemma loadFrom_failed fetch rdf_lib u :
  fetch_failed fetch u ->
  GroupListing.loadFrom u fetch rdf_lib = Resolved None.
Proof.
  unfold GroupListing.loadFrom, catch_, then_.
  intros [[msg ->]| ->]; [done|].
  unfold GroupListing.initFromGraph. cbn [GroupListing.or_own].
  by destruct (negb (truthy (Some u))).
Qed.

Lemma groupsForMember_elem agentId s G :
  G ∈ PermissionSet.groupsForMember agentId s <->
  exists g, PermissionSet.groups s !! G = Some g
            /\ GroupListing.hasMember (Str agentId) g = true.
Proof.
  unfold PermissionSet.groupsForMember.
  rewrite list_elem_of_In, List.filter_In, <- list_elem_of_In,
    elem_of_elements, elem_of_dom.
  split.
  - intros [[g Hg] H]. rewrite Hg in H. eauto.
  - intros (g & Hg & H). rewrite Hg. eauto.
Qed.

(** Failed loads on a set without cached listings. With a fetcher
    injected, on a well-formed set: when the fetcher fails for a group
    (rejected promise, or no graph to parse), [GroupListing.loadFrom]
    resolves to [null], and its promise is never rejected; [checkAccess]
    still settles to a boolean; a group whose load failed and that has no
    cached listing is not among the groups of the agent, so it grants
    nothing; a group that did load, lists the agent and holds the grant
    still yields [true]; and when every load fails and nothing is cached,
    the outcome is that of the public and individual checks alone. *)
Lemma load_failure_without_cache_is_deny (w : PermissionSet.world)
    (url agentId mode : string) (fetch : GroupListing.fetcher)
    (rdf_opt : bool)
    (Hwf : wf w)
    (Hurl : truthy (Some url) = true)
    (Hrdf : rdf_opt || PermissionSet.rdf (PermissionSet.this w) = true) :
  let o := PermissionSet.mkLoadOptions (Some fetch) rdf_opt in
  let rdf_lib := rdf_opt || PermissionSet.rdf (PermissionSet.this w) in
  (forall u lib, fetch_failed fetch u ->
                 GroupListing.loadFrom u fetch lib = Resolved None)
  /\ (forall u lib, exists r, GroupListing.loadFrom u fetch lib = Resolved r)
  /\ exists b w',
       PermissionSet.checkAccess url agentId mode o w = (Ok (Resolved b), w')
       /\ (forall G,
             fetch_failed fetch G ->
             PermissionSet.groups (PermissionSet.this w) !! G = None ->
             G ∉ PermissionSet.groupsForMember agentId (PermissionSet.this w'))
       /\ (forall G g,
             G ∈ PermissionSet.groupUris true (PermissionSet.this w) ->
             GroupListing.loadFrom G fetch rdf_lib = Resolved (Some g) ->
             GroupListing.hasMember (Str agentId) g = true ->
             granted w url G mode = true ->
             b = true)
       /\ ((forall G,
              G ∈ PermissionSet.groupUris true (PermissionSet.this w) ->
              fetch_failed fetch G) ->
           PermissionSet.groups (PermissionSet.this w) = ∅ ->
           b = publicly_allowed w mode url || granted w url agentId mode).
Proof.
  intros o rdf_lib.
  split; [intros u lib; apply loadFrom_failed|].
  split; [intros u lib; eexists; apply loadFrom_resolves|].
  pose proof (checkAccess_run w url agentId mode fetch rdf_opt Hwf Hurl Hrdf)
    as Hrun.
  fold o in Hrun.
  destruct (publicly_allowed w mode url || granted w url agentId mode)
    eqn:Hdirect.
  { exists true, w. split; [done|]. split; [|done].
    intros G _ Hnone HG. apply groupsForMember_elem in HG as (g & Hg & _).
    congruence. }
  destruct (PermissionSet.hasGroups (PermissionSet.this w)) eqn:Hhas.
  2:{ exists false, w. split; [done|]. split; [|split; [|done]].
      - intros G _ Hnone HG.
        apply groupsForMember_elem in HG as (g & Hg & _). congruence.
      - intros G g HG _ _ _. unfold PermissionSet.hasGroups in Hhas.
        apply Nat.ltb_ge in Hhas.
        destruct (PermissionSet.groupUris true (PermissionSet.this w));
          [by apply elem_of_nil in HG | simpl in Hhas; lia]. }
  simpl in Hrun. fold rdf_lib in Hrun.
  set (cache := cache_after_load fetch rdf_lib (PermissionSet.this w))
    in Hrun.
  eexists _, _. split; [exact Hrun|]. simpl.
  split; [|split].
  - intros G Hfail Hnone HG.
    apply groupsForMember_elem in HG as (g & Hg & _). simpl in Hg.
    unfold cache in Hg. rewrite cache_after_load_lookup in Hg.
    assert (Hl : listing_of fetch rdf_lib G = None)
      by (unfold listing_of; by rewrite loadFrom_failed).
    rewrite Hl in Hg. destruct (bool_decide _); congruence.
  - intros G g HG Hload Hmem Hgrant.
    apply existsb_exists. exists G. split; [|done].
    apply list_elem_of_In, groupsForMember_elem. exists g.
    split; [|done]. simpl. unfold cache.
    rewrite cache_after_load_lookup.
    rewrite (bool_decide_eq_true_2 _ HG).
    unfold listing_of. by rewrite Hload.
  - intros Hall Hempty.
    assert (Hcache : cache = ∅).
    { apply map_eq. intros k. unfold cache.
      rewrite cache_after_load_lookup, lookup_empty, Hempty, lookup_empty.
      destruct (bool_decide _) eqn:Hk; [|done].
      apply bool_decide_eq_true in Hk.
      unfold listing_of. by rewrite (loadFrom_failed _ _ _ (Hall k Hk)). }
    rewrite Hcache. unfold PermissionSet.groupsForMember. simpl.
    by rewrite dom_empty_L, elements_empty.
Qed.

(* ===================================================================== *)
(** * Adding a permission, step by step *)
(* ===================================================================== *)

Section AddSteps.

Import PermissionSet.

Lemma same_identity_refl p : same_identity p p.
Proof. unfold same_identity. by destruct p. Qed.

Lemma same_identity_trans p1 p2 p3 :
  same_identity p1 p2 -> same_identity p2 p3 -> same_identity p1 p3.
Proof.
  unfold same_identity. intros H12 H23. rewrite H23 at 1. rewrite H12.
  by rewrite set_accessModes_twice.
Qed.

Lemma same_identity_set_accessModes m p :
  same_identity p (Permission.set_accessModes m p).
Proof. unfold same_identity. by destruct p. Qed.

Lemma same_identity_fields p p' :
  same_identity p p' ->
  Permission.webId p' = Permission.webId p
  /\ Permission.accessType p' = Permission.accessType p
  /\ Permission.resourceUrl p' = Permission.resourceUrl p
  /\ Permission.virtual p' = Permission.virtual p
  /\ Permission.originsAllowed p' = Permission.originsAllowed p
  /\ Permission.group p' = Permission.group p
  /\ Permission.hashFragment p' = Permission.hashFragment p.
Proof. unfold same_identity. intros ->. by destruct p. Qed.

(** The hash fragment of a permission filed under a key. *)
Lemma hashFragment_filed p webId ty u :
  filed_under p webId ty u -> truthy (Some u) = true ->
  Permission.hashFragment p
  = Ok (webId +:+ "-" +:+ u +:+ "-" +:+ accessType_string ty).
Proof.
  intros (-> & -> & Hu) Ht. rewrite hashFragment_Ok; [|by rewrite <- Hu].
  unfold Permission.hashFragmentFor. by rewrite <- Hu.
Qed.

Lemma entry_ok_filed w webId ty u l :
  entry_ok w webId ty u l <->
  exists p, heap w !! l = Some p /\ filed_under p webId ty u
            /\ truthy (Some u) = true.
Proof.
  unfold entry_ok, filed_under. split.
  - intros (p & Hp & <- & <- & Hu & Ht). exists p. by rewrite Hu.
  - intros (p & Hp & (-> & -> & Hu) & Ht). exists p. by rewrite <- Hu.
Qed.

(** *** Lookups in an index *)

Lemma lookup3_default (x : gmap string (gmap AccessType (gmap string nat)))
    webId ty u :
  lookup3 x webId ty u = default ∅ (default ∅ (x !! webId) !! ty) !! u.
Proof.
  unfold lookup3. destruct (x !! webId) as [byType|]; simpl.
  - destruct (byType !! ty); simpl; [done|by rewrite lookup_empty].
  - by rewrite !lookup_empty.
Qed.

Lemma lookup3_insert (x : gmap string (gmap AccessType (gmap string nat)))
    webId ty (byUrl : gmap string nat) webId' ty' u' :
  lookup3 (<[webId := <[ty := byUrl]> (default ∅ (x !! webId))]> x)
    webId' ty' u'
  = if decide (webId' = webId /\ ty' = ty)
    then byUrl !! u'
    else lookup3 x webId' ty' u'.
Proof.
  unfold lookup3 at 1.
  destruct (decide (webId' = webId)) as [->|Hw].
  - rewrite lookup_insert_eq.
    destruct (decide (ty' = ty)) as [->|Ht].
    + rewrite lookup_insert_eq. by rewrite decide_True.
    + rewrite lookup_insert_ne by done. rewrite decide_False by naive_solver.
      unfold lookup3. destruct (x !! webId); simpl; [done|].
      by rewrite lookup_empty.
  - rewrite lookup_insert_ne by done. rewrite decide_False by naive_solver.
    done.
Qed.

Lemma authsBy_set_authsBy_eq i x s : authsBy (set_authsBy i x s) i = x.
Proof. by destruct i. Qed.

Lemma authsBy_set_authsBy_ne i j x s :
  i <> j -> authsBy (set_authsBy i x s) j = authsBy s j.
Proof. by destruct i, j. Qed.

Lemma authsBy_set_authorizations a s i :
  authsBy (set_authorizations a s) i = authsBy s i.
Proof. by destruct i. Qed.

(** *** Well-formedness and evolution *)

Lemma wf_from w w' :
  wf w ->
  (forall l p, heap w !! l = Some p ->
               exists p', heap w' !! l = Some p' /\ same_identity p p') ->
  (forall h l, authorizations (this w') !! h = Some l ->
               authorizations (this w) !! h = Some l
               \/ exists p, heap w' !! l = Some p
                            /\ Permission.hashFragment p = Ok h) ->
  (forall i webId ty u l,
     lookup3 (authsBy (this w') i) webId ty u = Some l ->
     lookup3 (authsBy (this w) i) webId ty u = Some l
     \/ entry_ok w' webId ty u l) ->
  wf w'.
Proof.
  intros [Ha Hi] Hheap Hauth Hidx. split.
  - intros h l Hl. destruct (Hauth h l Hl) as [Hold|Hnew]; [|done].
    destruct (Ha h l Hold) as (p & Hp & Hh).
    destruct (Hheap l p Hp) as (p' & Hp' & Hid).
    exists p'. split; [done|].
    apply same_identity_fields in Hid as (_ & _ & _ & _ & _ & _ & E).
    by rewrite E.
  - intros i webId ty u l Hl.
    destruct (Hidx i webId ty u l Hl) as [Hold|Hnew]; [|done].
    destruct (Hi i webId ty u l Hold) as (p & Hp & H1 & H2 & H3 & H4).
    destruct (Hheap l p Hp) as (p' & Hp' & Hid).
    exists p'. split; [done|].
    apply same_identity_fields in Hid as (E1 & E2 & E3 & _).
    by rewrite E1, E2, E3.
Qed.

Lemma evolves_refl K w : evolves K w w.
Proof.
  split; try done.
  intros l p Hp. exists p. split; [done|].
  split; [apply same_identity_refl|done].
Qed.

Lemma evolves_trans (K1 K2 K : string -> AccessType -> string -> Prop)
    w1 w2 w3 :
  (forall a b c, K1 a b c -> K a b c) ->
  (forall a b c, K2 a b c -> K a b c) ->
  evolves K1 w1 w2 -> evolves K2 w2 w3 -> evolves K w1 w3.
Proof.
  intros HK1 HK2 [H1 H2 H3 H4] [G1 G2 G3 G4]. split.
  - intros l p Hp. destruct (H1 l p Hp) as (p' & Hp' & Hid & Hsub).
    destruct (G1 l p' Hp') as (p'' & Hp'' & Hid' & Hsub').
    exists p''. split; [done|].
    split; [by eapply same_identity_trans|set_solver].
  - intros i webId ty u l Hl. by apply G2, H2.
  - intros i webId ty u HK. rewrite G3, H3; [done| |]; naive_solver.
  - by rewrite G4.
Qed.

Lemma wf_evolves_heap w hp' :
  wf w ->
  (forall l p, heap w !! l = Some p ->
               exists p', hp' !! l = Some p' /\ same_identity p p') ->
  wf (mkWorld hp' (this w)).
Proof.
  intros Hwf H. apply (wf_from w); simpl; auto.
Qed.

(** [target.mergeWith(auth)] when both hash alike. *)
Lemma mergeWith_run w target auth pt pa h :
  heap w !! target = Some pt -> heap w !! auth = Some pa ->
  Permission.hashFragment pt = Ok h -> Permission.hashFragment pa = Ok h ->
  mergeWith target auth w
  = (Ok tt,
     mkWorld
       (<[target := Permission.set_accessModes
                      (Permission.accessModes pa ∪ Permission.accessModes pt)
                      pt]> (heap w))
       (this w)).
Proof.
  intros Ht Ha Hht Hha. unfold mergeWith.
  rewrite (bind_Ok _ _ _ _ _ (deref_Some _ _ _ Ha)).
  unfold update_or_throw.
  rewrite (bind_Ok _ _ _ _ _ (deref_Some _ _ _ Ht)).
  unfold bind, lift. by rewrite (mergeWith_same_hash pa pt h).
Qed.

(** Merging into [target] leaves the object [auth] as it is. *)
Lemma merge_keeps_source (hp : gmap nat Permission.t) target auth pt pa :
  hp !! target = Some pt -> hp !! auth = Some pa ->
  <[target := Permission.set_accessModes
                (Permission.accessModes pa ∪ Permission.accessModes pt) pt]>
    hp !! auth = Some pa.
Proof.
  intros Ht Ha. destruct (decide (auth = target)) as [->|Hne].
  - rewrite lookup_insert_eq. assert (pt = pa) as -> by congruence.
    f_equal. rewrite union_idemp_L. apply set_accessModes_id.
  - by rewrite lookup_insert_ne.
Qed.

Lemma heap_grows_refl hp : heap_grows hp hp.
Proof.
  intros l p Hp. exists p. split; [done|].
  split; [apply same_identity_refl|done].
Qed.

Lemma heap_grows_update hp l p m :
  hp !! l = Some p -> Permission.accessModes p ⊆ m ->
  heap_grows hp (<[l := Permission.set_accessModes m p]> hp).
Proof.
  intros Hp Hsub l' p' Hp'. destruct (decide (l' = l)) as [->|Hne].
  - rewrite lookup_insert_eq. eexists. split; [done|].
    assert (p' = p) as -> by congruence.
    split; [apply same_identity_set_accessModes|by destruct p].
  - rewrite lookup_insert_ne by done. exists p'. split; [done|].
    split; [apply same_identity_refl|done].
Qed.

Lemma heap_grows_alloc hp l p :
  hp !! l = None -> heap_grows hp (<[l := p]> hp).
Proof.
  intros Hl l' p' Hp'. exists p'.
  rewrite lookup_insert_ne by congruence.
  split; [done|]. split; [apply same_identity_refl|done].
Qed.

Lemma heap_grows_weaken hp hp' l p :
  heap_grows hp hp' -> hp !! l = Some p ->
  exists p', hp' !! l = Some p' /\ same_identity p p'.
Proof. intros H Hp. destruct (H l p Hp) as (p' & ? & ? & ?). eauto. Qed.

Lemma evolves_intro (K : string -> AccessType -> string -> Prop) w hp' s' :
  heap_grows (heap w) hp' ->
  (forall j webId ty u,
     lookup3 (authsBy s' j) webId ty u
     = lookup3 (authsBy (this w) j) webId ty u
     \/ (K webId ty u
         /\ lookup3 (authsBy (this w) j) webId ty u = None)) ->
  settings s' = settings (this w) ->
  evolves K w (mkWorld hp' s').
Proof.
  intros Hheap Hidx Hset. split; simpl; [done| | |done].
  - intros j webId ty u l Hl.
    destruct (Hidx j webId ty u) as [E|[_ E]]; congruence.
  - intros j webId ty u HK.
    destruct (Hidx j webId ty u) as [E|[? _]]; done.
Qed.

Lemma settings_set_authsBy i x s : settings (set_authsBy i x s) = settings s.
Proof. by destruct i. Qed.

Lemma authorizations_set_authsBy i x s :
  authorizations (set_authsBy i x s) = authorizations s.
Proof. by destruct i. Qed.

(** Creating the missing sub-objects of an index adds no entry. *)
Lemma lookup3_create i (s : t) webId ty j webId' ty' u' :
  let idx := authsBy s i in
  let byType := default ∅ (idx !! webId) in
  let byUrl := default ∅ (byType !! ty) in
  lookup3 (authsBy (set_authsBy i (<[webId := <[ty := byUrl]> byType]> idx) s)
             j) webId' ty' u'
  = lookup3 (authsBy s j) webId' ty' u'.
Proof.
  intros idx byType byUrl. destruct (decide (i = j)) as [<-|Hne].
  - rewrite authsBy_set_authsBy_eq. unfold byType.
    rewrite lookup3_insert. case_decide as H; [|done].
    destruct H as [-> ->]. by rewrite (lookup3_default idx).
  - by rewrite authsBy_set_authsBy_ne.
Qed.

(** Setting an entry adds that entry and no other. *)
Lemma lookup3_set i (s : t) webId ty u a j webId' ty' u' :
  let idx := authsBy s i in
  let byType := default ∅ (idx !! webId) in
  let byUrl := default ∅ (byType !! ty) in
  lookup3
    (authsBy (set_authsBy i
                (<[webId := <[ty := <[u := a]> byUrl]> byType]> idx) s) j)
    webId' ty' u'
  = if decide (j = i /\ webId' = webId /\ ty' = ty /\ u' = u)
    then Some a
    else lookup3 (authsBy s j) webId' ty' u'.
Proof.
  intros idx byType byUrl. destruct (decide (i = j)) as [<-|Hne].
  - rewrite authsBy_set_authsBy_eq. unfold byType.
    rewrite lookup3_insert.
    destruct (decide (webId' = webId /\ ty' = ty)) as [[-> ->]|H].
    + destruct (decide (u' = u)) as [->|Hu].
      * rewrite lookup_insert_eq. by rewrite decide_True.
      * rewrite lookup_insert_ne by done.
        rewrite decide_False by naive_solver.
        by rewrite (lookup3_default idx).
    + rewrite decide_False by naive_solver. done.
  - rewrite authsBy_set_authsBy_ne by done.
    rewrite decide_False by naive_solver. done.
Qed.

(** [addToAgentIndex] / [addToGroupIndex] on an object of the store that has
    a resource URL: the call returns; the object gets filed under its key,
    or merged into the entry that is there; nothing else changes. *)
Lemma addToIndex_step i a w pa r :
  wf w -> heap w !! a = Some pa ->
  Permission.resourceUrl pa = Some r -> truthy (Some r) = true ->
  exists w',
    addToIndex i a w = (Ok tt, w')
    /\ wf w'
    /\ evolves (filed_under pa) w w'
    /\ authorizations (this w') = authorizations (this w)
    /\ dom (heap w') = dom (heap w)
    /\ heap w' !! a = Some pa
    /\ exists l q,
         lookup3 (authsBy (this w') i) (string_of_null (Permission.webId pa))
           (Permission.accessType pa) r = Some l
         /\ heap w' !! l = Some q
         /\ Permission.accessModes pa ⊆ Permission.accessModes q
         /\ (lookup3 (authsBy (this w) i)
               (string_of_null (Permission.webId pa))
               (Permission.accessType pa) r = Some l
             \/ l = a).
Proof.
  intros Hwf Ha Hr Ht. unfold addToIndex.
  rewrite (bind_Ok _ _ _ _ _ (deref_Some _ _ _ Ha)).
  rewrite (bind_Ok _ _ w (this w) w) by done.
  rewrite Hr. simpl.
  set (webId := string_of_null (Permission.webId pa)).
  set (ty := Permission.accessType pa).
  assert (Hfiled : filed_under pa webId ty r)
    by (unfold filed_under; by rewrite Hr).
  assert (Hlk : default ∅ (default ∅ (authsBy (this w) i !! webId) !! ty) !! r
                = lookup3 (authsBy (this w) i) webId ty r)
    by (by rewrite lookup3_default).
  destruct (default ∅ (default ∅ (authsBy (this w) i !! webId) !! ty) !! r)
    as [e|] eqn:He.
  - (* an entry exists: merge into it *)
    symmetry in Hlk.
    destruct (wf_index w Hwf _ _ _ _ _ Hlk) as (pe & Hpe & He1 & He2 & He3 & _).
    assert (Hfe : filed_under pe webId ty r)
      by (unfold filed_under; by rewrite He1, He2, He3).
    pose proof (hashFragment_filed _ _ _ _ Hfe Ht) as Hhe.
    pose proof (hashFragment_filed _ _ _ _ Hfiled Ht) as Hha.
    match goal with
    | |- context [modify_this (set_authsBy i ?x)] =>
        set (s1 := set_authsBy i x (this w))
    end.
    rewrite (bind_Ok _ _ w tt (mkWorld (heap w) s1)) by done.
    rewrite (mergeWith_run (mkWorld (heap w) s1) e a pe pa _ Hpe Ha Hhe Hha).
    simpl.
    assert (Hgrow : heap_grows (heap w)
                      (<[e := Permission.set_accessModes
                                (Permission.accessModes pa
                                 ∪ Permission.accessModes pe) pe]> (heap w)))
      by (apply heap_grows_update; [done|set_solver]).
    assert (Hsame : forall j webId' ty' u',
               lookup3 (authsBy s1 j) webId' ty' u'
               = lookup3 (authsBy (this w) j) webId' ty' u')
      by (intros; apply lookup3_create).
    eexists. split; [done|]. split; [|split; [|split; [|split; [|split]]]].
    + apply (wf_from w); simpl.
      * done.
      * intros l p Hp. by apply (heap_grows_weaken _ _ _ _ Hgrow).
      * intros h l Hl. left. unfold s1 in Hl.
        by rewrite authorizations_set_authsBy in Hl.
      * intros j webId' ty' u' l Hl. left. by rewrite Hsame in Hl.
    + apply evolves_intro; [done| |apply settings_set_authsBy].
      intros. left. apply Hsame.
    + apply authorizations_set_authsBy.
    + simpl. rewrite dom_insert_L.
      assert (e ∈ dom (heap w)) by (apply elem_of_dom; eauto). set_solver.
    + simpl. by apply merge_keeps_source.
    + exists e. eexists. simpl. rewrite Hsame, Hlk.
      split; [done|]. rewrite lookup_insert_eq. split; [done|].
      split; [simpl; set_solver|by left].
  - (* no entry: file the object *)
    match goal with
    | |- context [modify_this (set_authsBy i ?x)] =>
        set (s1 := set_authsBy i x (this w))
    end.
    assert (Hnew : forall j webId' ty' u',
               lookup3 (authsBy s1 j) webId' ty' u'
               = if decide (j = i /\ webId' = webId /\ ty' = ty /\ u' = r)
                 then Some a
                 else lookup3 (authsBy (this w) j) webId' ty' u')
      by (intros; apply lookup3_set).
    exists (mkWorld (heap w) s1). split; [done|].
    split; [|split; [|split; [|split; [|split]]]].
    + apply (wf_from w); simpl.
      * done.
      * intros l p Hp. exists p. split; [done|apply same_identity_refl].
      * intros h l Hl. left. unfold s1 in Hl.
        by rewrite authorizations_set_authsBy in Hl.
      * intros j webId' ty' u' l Hl. rewrite Hnew in Hl.
        case_decide as Hk; [|by left].
        destruct Hk as (-> & -> & -> & ->). injection Hl as <-.
        right. apply entry_ok_filed. exists pa. done.
    + apply evolves_intro; [apply heap_grows_refl| |apply settings_set_authsBy].
      intros j webId' ty' u'. rewrite Hnew.
      case_decide as Hk; [|by left].
      destruct Hk as (-> & -> & -> & ->). right. split; [done|].
      by rewrite <- Hlk.
    + apply authorizations_set_authsBy.
    + done.
    + done.
    + exists a, pa. simpl. rewrite Hnew. rewrite decide_True by done.
      split; [done|]. split; [done|]. split; [done|by right].
Qed.

(** The first step of [addAuthorization]: the object is stored in the
    collection under its hash fragment, or merged into the object that is
    stored there. *)
Lemma collect_step a w pa h :
  wf w -> heap w !! a = Some pa -> Permission.hashFragment pa = Ok h ->
  exists w',
    (match authorizations (this w) !! h with
     | Some existing => mergeWith existing a
     | None =>
         modify_this
           (fun s => set_authorizations (<[h := a]> (authorizations s)) s)
     end) w = (Ok tt, w')
    /\ wf w'
    /\ evolves (fun _ _ _ => False) w w'
    /\ dom (heap w') = dom (heap w)
    /\ heap w' !! a = Some pa.
Proof.
  intros Hwf Ha Hh.
  destruct (authorizations (this w) !! h) as [e|] eqn:He.
  - destruct (wf_authorizations w Hwf h e He) as (pe & Hpe & Hhe).
    rewrite (mergeWith_run w e a pe pa h Hpe Ha Hhe Hh).
    assert (Hgrow : heap_grows (heap w)
                      (<[e := Permission.set_accessModes
                                (Permission.accessModes pa
                                 ∪ Permission.accessModes pe) pe]> (heap w)))
      by (apply heap_grows_update; [done|set_solver]).
    eexists. split; [done|]. split; [|split; [|split]].
    + apply wf_evolves_heap; [done|].
      intros l p Hp. by apply (heap_grows_weaken _ _ _ _ Hgrow).
    + apply evolves_intro; [done| |done]. intros. by left.
    + simpl. rewrite dom_insert_L.
      assert (e ∈ dom (heap w)) by (apply elem_of_dom; eauto). set_solver.
    + simpl. by apply merge_keeps_source.
  - eexists. split; [done|]. split; [|split; [|split]].
    + apply (wf_from w); simpl.
      * done.
      * intros l p Hp. exists p. split; [done|apply same_identity_refl].
      * intros h' l Hl. destruct (decide (h' = h)) as [->|Hne].
        -- rewrite lookup_insert_eq in Hl. injection Hl as <-.
           right. by exists pa.
        -- rewrite lookup_insert_ne in Hl by done. by left.
      * intros j webId ty u l Hl. left.
        by rewrite authsBy_set_authorizations in Hl.
    + apply evolves_intro; [apply heap_grows_refl| |done].
      intros. left. by rewrite authsBy_set_authorizations.
    + done.
    + done.
Qed.

(** Objects of the store stay, with their identity, along an evolution. *)
Lemma evolves_object K w w' l p :
  evolves K w w' -> heap w !! l = Some p ->
  exists p', heap w' !! l = Some p' /\ same_identity p p'
             /\ Permission.accessModes p ⊆ Permission.accessModes p'.
Proof. intros H. apply (ev_heap K w w' H). Qed.

(** A grant found through an index entry stays along an evolution. *)
Lemma evolves_entry K w w' i webId ty u l q (m : gset string) :
  evolves K w w' ->
  lookup3 (authsBy (this w) i) webId ty u = Some l ->
  heap w !! l = Some q -> m ⊆ Permission.accessModes q ->
  exists q', lookup3 (authsBy (this w') i) webId ty u = Some l
             /\ heap w' !! l = Some q'
             /\ same_identity q q'
             /\ m ⊆ Permission.accessModes q'.
Proof.
  intros H Hl Hq Hm.
  destruct (ev_heap K w w' H l q Hq) as (q' & Hq' & Hid & Hsub).
  exists q'. split; [by apply (ev_keep K w w' H)|].
  split; [done|]. split; [done|set_solver].
Qed.

(** [addAuthorization] of an object that is virtual or does not grant
    Control: one level of the recursion is enough, the call returns, and
    the object ends up in the collection and in the agent index. *)
Lemma addAuthorization_plain a w pa r :
  wf w -> heap w !! a = Some pa ->
  Permission.resourceUrl pa = Some r -> truthy (Some r) = true ->
  negb (Permission.virtual pa) && Permission.allowsControl pa = false ->
  exists w',
    (forall n, addAuthorization_fuel (S n) a w = (Ok tt, w'))
    /\ wf w'
    /\ evolves (filed_under pa) w w'
    /\ dom (heap w') = dom (heap w)
    /\ heap w' !! a = Some pa
    /\ exists l q,
         lookup3 (authsBy_agents (this w'))
           (string_of_null (Permission.webId pa))
           (Permission.accessType pa) r = Some l
         /\ heap w' !! l = Some q
         /\ Permission.accessModes pa ⊆ Permission.accessModes q
         /\ (lookup3 (authsBy_agents (this w))
               (string_of_null (Permission.webId pa))
               (Permission.accessType pa) r = Some l
             \/ l = a).
Proof.
  intros Hwf Ha Hr Ht Hplain.
  assert (Hh : Permission.hashFragment pa
               = Ok (Permission.hashFragmentFor (Permission.webId pa)
                       (Permission.resourceUrl pa) (Permission.accessType pa)))
    by (apply hashFragment_Ok; by rewrite Hr).
  destruct (collect_step a w pa _ Hwf Ha Hh)
    as (w1 & Hrun1 & Hwf1 & Hev1 & Hdom1 & Ha1).
  destruct (addToIndex_step AGENT_INDEX a w1 pa r Hwf1 Ha1 Hr Ht)
    as (w2 & Hrun2 & Hwf2 & Hev2 & _ & Hdom2 & Ha2 & l & q & Hl & Hq & Hsub
        & Hold).
  rewrite (ev_frame _ _ _ Hev1 AGENT_INDEX) in Hold by tauto.
  assert (Hev12 : evolves (filed_under pa) w w2)
    by (eapply (evolves_trans _ _ _ w w1 w2); [| |done|done]; naive_solver).
  assert (Hprefix : forall n,
             addAuthorization_fuel (S n) a w
             = (p <~ deref a ;;
                if Permission.isPublic p || Permission.isGroup p
                then addToGroupIndex a else ret tt) w2).
  { intros n. simpl. unfold addAuthorization_body.
    rewrite (bind_Ok _ _ _ _ _ (deref_Some _ _ _ Ha)).
    rewrite Hh. rewrite (bind_Ok _ _ w _ w) by done.
    rewrite (bind_Ok _ _ w (this w) w) by done.
    rewrite (bind_Ok _ _ _ _ _ Hrun1).
    rewrite (bind_Ok _ _ _ _ _ (deref_Some _ _ _ Ha1)).
    rewrite Hplain. rewrite (bind_Ok _ _ w1 tt w1) by done.
    unfold addToAgentIndex. by rewrite (bind_Ok _ _ _ _ _ Hrun2). }
  destruct (Permission.isPublic pa || Permission.isGroup pa) eqn:Hgroup.
  - destruct (addToIndex_step GROUP_INDEX a w2 pa r Hwf2 Ha2 Hr Ht)
      as (w3 & Hrun3 & Hwf3 & Hev3 & _ & Hdom3 & Ha3 & _).
    exists w3. split.
    { intros n. rewrite (Hprefix n).
      rewrite (bind_Ok _ _ _ _ _ (deref_Some _ _ _ Ha2)).
      by rewrite Hgroup. }
    split; [done|].
    split; [eapply (evolves_trans _ _ _ w w2 w3); [| |done|done];
            naive_solver|].
    split; [congruence|]. split; [done|].
    destruct (evolves_entry _ _ _ AGENT_INDEX _ _ _ _ _ _ Hev3 Hl Hq Hsub)
      as (q' & Hl' & Hq' & _ & Hsub').
    by exists l, q'.
  - exists w2. split.
    { intros n. rewrite (Hprefix n).
      rewrite (bind_Ok _ _ _ _ _ (deref_Some _ _ _ Ha2)).
      by rewrite Hgroup. }
    split; [done|]. split; [done|].
    split; [congruence|]. split; [done|]. by exists l, q.
Qed.

Lemma update_run l f w p :
  heap w !! l = Some p ->
  update l f w = (Ok tt, mkWorld (<[l := f p]> (heap w)) (this w)).
Proof.
  intros H. unfold update. by rewrite (bind_Ok _ _ _ _ _ (deref_Some _ _ _ H)).
Qed.

Lemma settings_fields s s' :
  settings s = settings s' ->
  aclUrlFor s = aclUrlFor s' /\ strictOrigin s = strictOrigin s'
  /\ origin s = origin s' /\ host s = host s'
  /\ resourceUrl s = resourceUrl s'.
Proof. unfold settings. intros [= ? ? ? ? ? ? ? ? ?]. done. Qed.

Lemma implied_permission_fields s pa r :
  let pc := implied_permission s pa r in
  Permission.webId pc = Permission.webId pa
  /\ Permission.accessType pc = Permission.accessType pa
  /\ Permission.resourceUrl pc = Some (aclUrlFor s r)
  /\ Permission.virtual pc = true
  /\ Permission.originsAllowed pc = Permission.originsAllowed pa
  /\ {[READ; WRITE; CONTROL]} ∪ Permission.accessModes pa
     ⊆ Permission.accessModes pc.
Proof.
  destruct pa. unfold implied_permission, ALL_MODES. simpl.
  repeat split; try done. set_solver.
Qed.

(** [addControlPermissionsFor]: a new virtual object for the ACL of the
    resource is allocated and added as a plain permission. *)
Lemma addControl_step a w pa r :
  wf w -> heap w !! a = Some pa ->
  Permission.resourceUrl pa = Some r ->
  truthy (Some (aclUrlFor (this w) r)) = true ->
  exists w' c,
    (forall n,
       addControlPermissionsFor (addAuthorization_fuel (S n)) a w
       = (Ok tt, w'))
    /\ wf w'
    /\ evolves (filed_under (implied_permission (this w) pa r)) w w'
    /\ heap w !! c = None
    /\ heap w' !! c = Some (implied_permission (this w) pa r)
    /\ exists l q,
         lookup3 (authsBy_agents (this w'))
           (string_of_null (Permission.webId pa))
           (Permission.accessType pa) (aclUrlFor (this w) r) = Some l
         /\ heap w' !! l = Some q
         /\ {[READ; WRITE; CONTROL]} ⊆ Permission.accessModes q
         /\ (lookup3 (authsBy_agents (this w))
               (string_of_null (Permission.webId pa))
               (Permission.accessType pa) (aclUrlFor (this w) r) = Some l
             \/ l = c).
Proof.
  intros Hwf Ha Hr Hacl.
  set (pc := implied_permission (this w) pa r).
  destruct (implied_permission_fields (this w) pa r)
    as (Hc1 & Hc2 & Hc3 & Hc4 & _ & Hc6). fold pc in Hc1, Hc2, Hc3, Hc4, Hc6.
  set (c := fresh (dom (heap w))).
  assert (Hc : heap w !! c = None)
    by (apply not_elem_of_dom, is_fresh).
  set (w3 := mkWorld (<[c := pc]> (heap w)) (this w)).
  assert (Hwf3 : wf w3).
  { apply wf_evolves_heap; [done|]. intros l p Hp.
    by apply (heap_grows_weaken _ _ _ _ (heap_grows_alloc _ c pc Hc)). }
  assert (Hev3 : evolves (filed_under pc) w w3).
  { apply evolves_intro; [by apply heap_grows_alloc| |done]. intros. by left. }
  assert (Hpc : heap w3 !! c = Some pc) by apply lookup_insert_eq.
  destruct (addAuthorization_plain c w3 pc _ Hwf3 Hpc Hc3 Hacl)
    as (w4 & Hrun4 & Hwf4 & Hev4 & _ & Hpc4 & l & q & Hl & Hq & Hsub
        & Hold).
  { by rewrite Hc4. }
  exists w4, c. split.
  { intros n. unfold addControlPermissionsFor.
    rewrite (bind_Ok _ _ _ _ _ (deref_Some _ _ _ Ha)).
    rewrite (bind_Ok _ _ w (this w) w) by done.
    rewrite (bind_Ok _ _ w c (mkWorld (<[c := pa]> (heap w)) (this w)))
      by done.
    rewrite Hr.
    erewrite bind_Ok; [|apply update_run; apply lookup_insert_eq].
    erewrite bind_Ok; [|apply update_run; apply lookup_insert_eq].
    erewrite bind_Ok; [|apply update_run; apply lookup_insert_eq].
    simpl. rewrite !insert_insert_eq. apply Hrun4. }
  split; [done|].
  split; [eapply (evolves_trans _ _ _ w w3 w4); [| |done|done]; naive_solver|].
  split; [done|]. split; [done|].
  exists l, q. rewrite Hc1, Hc2 in Hl, Hold.
  split; [done|]. split; [done|]. split; [set_solver|done].
Qed.

(** [addAuthorization] of a non-virtual object that grants Control: two
    levels of the recursion are enough, the call returns, and the agent
    index holds, for the ACL of the resource, an entry with all modes. *)
Lemma addAuthorization_control a w pa r :
  wf w -> heap w !! a = Some pa ->
  Permission.resourceUrl pa = Some r -> truthy (Some r) = true ->
  negb (Permission.virtual pa) && Permission.allowsControl pa = true ->
  truthy (Some (aclUrlFor (this w) r)) = true ->
  exists w',
    (forall n, addAuthorization_fuel (S (S n)) a w = (Ok tt, w'))
    /\ wf w'
    /\ evolves
         (fun webId ty u =>
            webId = string_of_null (Permission.webId pa)
            /\ ty = Permission.accessType pa
            /\ (u = r \/ u = aclUrlFor (this w) r)) w w'
    /\ exists c pc l q,
         heap w !! c = None /\ heap w' !! c = Some pc
         /\ same_identity (implied_permission (this w) pa r) pc
         /\ Permission.accessModes (implied_permission (this w) pa r)
            ⊆ Permission.accessModes pc
         /\ lookup3 (authsBy_agents (this w'))
              (string_of_null (Permission.webId pa))
              (Permission.accessType pa) (aclUrlFor (this w) r) = Some l
         /\ heap w' !! l = Some q
         /\ {[READ; WRITE; CONTROL]} ⊆ Permission.accessModes q
         /\ (lookup3 (authsBy_agents (this w))
               (string_of_null (Permission.webId pa))
               (Permission.accessType pa) (aclUrlFor (this w) r) = Some l
             \/ l = c).
Proof.
  intros Hwf Ha Hr Ht Hcontrol Hacl.
  assert (Hh : Permission.hashFragment pa
               = Ok (Permission.hashFragmentFor (Permission.webId pa)
                       (Permission.resourceUrl pa) (Permission.accessType pa)))
    by (apply hashFragment_Ok; by rewrite Hr).
  destruct (collect_step a w pa _ Hwf Ha Hh)
    as (w1 & Hrun1 & Hwf1 & Hev1 & Hdom1 & Ha1).
  destruct (settings_fields _ _ (ev_settings _ _ _ Hev1)) as (Hs1 & _).
  assert (Hacl1 : truthy (Some (aclUrlFor (this w1) r)) = true)
    by (by rewrite Hs1).
  destruct (addControl_step a w1 pa r Hwf1 Ha1 Hr Hacl1)
    as (w4 & c & Hrun4 & Hwf4 & Hev4 & Hc & Hpc & l & q & Hl & Hq & Hsub
        & Hold).
  assert (Himp : implied_permission (this w1) pa r
                 = implied_permission (this w) pa r)
    by (unfold implied_permission; by rewrite Hs1).
  rewrite Himp in Hev4, Hpc. rewrite Hs1 in Hl, Hold.
  rewrite (ev_frame _ _ _ Hev1 AGENT_INDEX) in Hold by tauto.
  destruct (implied_permission_fields (this w) pa r)
    as (Hc1 & Hc2 & Hc3 & _).
  destruct (evolves_object _ _ _ a pa Hev4 Ha1) as (pa4 & Ha4 & Hid4 & _).
  destruct (same_identity_fields _ _ Hid4) as (Hw4 & Hty4 & Hr4 & _).
  rewrite Hr in Hr4.
  destruct (addToIndex_step AGENT_INDEX a w4 pa4 r Hwf4 Ha4 Hr4 Ht)
    as (w5 & Hrun5 & Hwf5 & Hev5 & _ & _ & Ha5 & _).
  set (K := fun webId ty u =>
              webId = string_of_null (Permission.webId pa)
              /\ ty = Permission.accessType pa
              /\ (u = r \/ u = aclUrlFor (this w) r)).
  assert (HKa : forall x y z, filed_under pa4 x y z -> K x y z).
  { intros x y z (-> & -> & Hz). rewrite Hr4 in Hz. injection Hz as ->.
    unfold K. rewrite Hw4, Hty4. auto. }
  assert (HKc : forall x y z,
             filed_under (implied_permission (this w) pa r) x y z -> K x y z).
  { intros x y z (-> & -> & Hz). rewrite Hc3 in Hz. injection Hz as ->.
    unfold K. rewrite Hc1, Hc2. auto. }
  assert (Hev04 : evolves K w w4)
    by (eapply (evolves_trans _ _ _ w w1 w4); [| |done|done]; naive_solver).
  assert (Hev05 : evolves K w w5)
    by (eapply (evolves_trans _ _ _ w w4 w5); [| |done|done]; naive_solver).
  assert (Hprefix : forall n,
             addAuthorization_fuel (S (S n)) a w
             = (p <~ deref a ;;
                if Permission.isPublic p || Permission.isGroup p
                then addToGroupIndex a else ret tt) w5).
  { intros n. change (addAuthorization_fuel (S (S n)) a w)
      with (addAuthorization_body (addAuthorization_fuel (S n)) a w).
    unfold addAuthorization_body.
    rewrite (bind_Ok _ _ _ _ _ (deref_Some _ _ _ Ha)).
    rewrite Hh. rewrite (bind_Ok _ _ w _ w) by done.
    rewrite (bind_Ok _ _ w (this w) w) by done.
    rewrite (bind_Ok _ _ _ _ _ Hrun1).
    rewrite (bind_Ok _ _ _ _ _ (deref_Some _ _ _ Ha1)).
    rewrite Hcontrol. rewrite (bind_Ok _ _ _ _ _ (Hrun4 n)).
    unfold addToAgentIndex. by rewrite (bind_Ok _ _ _ _ _ Hrun5). }
  assert (Hc0 : heap w !! c = None).
  { apply not_elem_of_dom. rewrite <- Hdom1. by apply not_elem_of_dom. }
  destruct (evolves_object _ _ _ c _ Hev5 Hpc)
    as (pc5 & Hpc5 & Hidc5 & Hsubc5).
  destruct (evolves_entry _ _ _ AGENT_INDEX _ _ _ _ _ _ Hev5 Hl Hq Hsub)
    as (q5 & Hl5 & Hq5 & _ & Hsub5).
  destruct (Permission.isPublic pa4 || Permission.isGroup pa4) eqn:Hgroup.
  - destruct (addToIndex_step GROUP_INDEX a w5 pa4 r Hwf5 Ha5 Hr4 Ht)
      as (w6 & Hrun6 & Hwf6 & Hev6 & _).
    exists w6. split.
    { intros n. rewrite (Hprefix n).
      rewrite (bind_Ok _ _ _ _ _ (deref_Some _ _ _ Ha5)).
      by rewrite Hgroup. }
    split; [done|].
    split; [eapply (evolves_trans _ _ _ w w5 w6); [| |done|done];
            naive_solver|].
    destruct (evolves_object _ _ _ c _ Hev6 Hpc5)
      as (pc6 & Hpc6 & Hidc6 & Hsubc6).
    destruct (evolves_entry _ _ _ AGENT_INDEX _ _ _ _ _ _ Hev6 Hl5 Hq5 Hsub5)
      as (q6 & Hl6 & Hq6 & _ & Hsub6).
    exists c, pc6, l, q6. split; [done|]. split; [done|].
    split; [by eapply same_identity_trans|]. split; [set_solver|]. done.
  - exists w5. split.
    { intros n. rewrite (Hprefix n).
      rewrite (bind_Ok _ _ _ _ _ (deref_Some _ _ _ Ha5)).
      by rewrite Hgroup. }
    split; [done|]. split; [done|].
    by exists c, pc5, l, q5.
Qed.

End AddSteps.

(* ===================================================================== *)
(** * Control implies access to the ACL document *)
(* ===================================================================== *)

Section ControlFacts.

Import PermissionSet.

Lemma findAuthByAgent_direct webId url i s l :
  lookup3 (authsBy s i) webId ACCESS_TO url = Some l ->
  findAuthByAgent webId (Some url) i s = Ok (Some l).
Proof.
  unfold lookup3, findAuthByAgent. simpl.
  destruct (authsBy s i !! webId) as [byType|]; [|done].
  destruct (byType !! ACCESS_TO) as [accessToAuths|]; [|done].
  by intros ->.
Qed.

Lemma findAuthByAgent_inherited_exact webId url i s l :
  lookup3 (authsBy s i) webId ACCESS_TO url = None ->
  lookup3 (authsBy s i) webId DEFAULT url = Some l ->
  findAuthByAgent webId (Some url) i s = Ok (Some l).
Proof.
  unfold lookup3, findAuthByAgent. simpl.
  destruct (authsBy s i !! webId) as [byType|]; [|done].
  intros Hdirect.
  assert (Hd : match byType !! ACCESS_TO with
               | Some accessToAuths => accessToAuths !! url
               | None => None
               end = None)
    by (by destruct (byType !! ACCESS_TO)).
  rewrite Hd.
  destruct (byType !! DEFAULT) as [defaultAuths|]; [|done].
  by intros ->.
Qed.

Lemma checkOrigin_unchecked s q : origin_unchecked s -> checkOrigin s q = true.
Proof.
  unfold checkOrigin. intros [H|[H|H]].
  - by rewrite H.
  - rewrite H. by rewrite orb_true_r.
  - rewrite (bool_decide_eq_true_2 _ H). by rewrite orb_true_r.
Qed.

Lemma checkOrigin_ext s s' q q' :
  settings s = settings s' ->
  Permission.originsAllowed q = Permission.originsAllowed q' ->
  checkOrigin s q = checkOrigin s' q'.
Proof.
  intros Hs Ho. destruct (settings_fields _ _ Hs) as (_ & E2 & E3 & E4 & _).
  unfold checkOrigin, Permission.allowsOrigin. by rewrite E2, E3, E4, Ho.
Qed.

Lemma allowsMode_listed mode p :
  mode ∈ [READ; WRITE; CONTROL] ->
  Permission.allowsMode mode p
  = bool_decide (mode ∈ Permission.accessModes p).
Proof.
  intros H. repeat (apply elem_of_cons in H as [->|H]; [reflexivity|]).
  by apply elem_of_nil in H.
Qed.

Lemma allowsMode_APPEND p :
  Permission.allowsMode APPEND p = Permission.allowsAppend p.
Proof. reflexivity. Qed.

(** A permission with Read, Write and Control allows each of the four
    modes. *)
Lemma allowsMode_all p mode :
  {[READ; WRITE; CONTROL]} ⊆ Permission.accessModes p ->
  mode ∈ [READ; WRITE; APPEND; CONTROL] ->
  Permission.allowsMode mode p = true.
Proof.
  intros Hsub H.
  assert (Hr : READ ∈ Permission.accessModes p) by set_solver.
  assert (Hw : WRITE ∈ Permission.accessModes p) by set_solver.
  assert (Hc : CONTROL ∈ Permission.accessModes p) by set_solver.
  apply elem_of_cons in H as [->|H].
  { rewrite allowsMode_listed by set_solver. by apply bool_decide_eq_true. }
  apply elem_of_cons in H as [->|H].
  { rewrite allowsMode_listed by set_solver. by apply bool_decide_eq_true. }
  apply elem_of_cons in H as [->|H].
  { rewrite allowsMode_APPEND. unfold Permission.allowsAppend.
    rewrite (bool_decide_eq_true_2 _ Hw). apply orb_true_r. }
  apply elem_of_cons in H as [->|H].
  { rewrite allowsMode_listed by set_solver. by apply bool_decide_eq_true. }
  by apply elem_of_nil in H.
Qed.

(** The default [aclUrlFor] of a non-empty URL is not empty. *)
Lemma defaultAclUrlFor_truthy url :
  truthy (Some url) = true -> truthy (Some (defaultAclUrlFor url)) = true.
Proof.
  unfold defaultAclUrlFor. destruct (defaultIsAcl url); [done|].
  by destruct url.
Qed.

End ControlFacts.

(** C2, as stated, fails under strict-origin enforcement: with a request
    origin that differs from the host and is not among the allowed origins
    of the permission, [checkAccess] on the ACL document resolves to
    [false] after Control was granted. *)
Lemma C2_strict_origin_counterexample :
  let file1 := "https://alice.example.com/docs/file1" in
  let alice := "https://alice.example.com/#me" in
  let w0 := PermissionSet.init (Some file1) (Some (file1 +:+ ".acl")) false
              (PermissionSet.mkOptions (Some "https://alice.example.com")
                 false true (Some "https://evil.example") None None) in
  let add := PermissionSet.addPermission alice (One (Str CONTROL)) None in
  let w1 := PermissionSet.exec add w0 in
  PermissionSet.eval add w0 = Ok tt
  /\ PermissionSet.aclUrlFor (PermissionSet.this w1) file1
     = "https://alice.example.com/docs/file1.acl"
  /\ PermissionSet.eval
       (PermissionSet.checkAccess
          (PermissionSet.aclUrlFor (PermissionSet.this w1) file1) alice WRITE
          (PermissionSet.mkLoadOptions None false)) w1
     = Ok (Resolved false).
Proof. vm_compute. repeat split. Qed.

(** C2, amended. Let a non-virtual permission granting Control, with a
    principal and a resource URL, be added to a well-formed set whose
    [aclUrlFor] gives a non-empty URL. Then [addAuthorization] returns; it
    has allocated a virtual permission of the same principal for
    [aclUrlFor(resourceUrl)] that allows all four modes; and the agent index
    holds, for that principal and URL, a permission that allows all four
    modes. If moreover the origin check passes for the added permission and
    for the permission of the principal that was indexed for the ACL URL, if
    any (it always passes when enforcement is off, no origin is given, or
    the origin is the host), and, for an Inherited permission, the
    principal has no Direct permission for the ACL URL, then
    [checkAccess(aclUrlFor(resourceUrl), principal, Write)] resolves to
    [true], with every options argument. *)
Theorem C2_control_grants_acl_access (w : PermissionSet.world) (auth : nat)
    (p : Permission.t) (principal url : string)
    (Hwf : wf w)
    (Hauth : PermissionSet.heap w !! auth = Some p)
    (Hvirtual : Permission.virtual p = false)
    (Hcontrol : Permission.allowsControl p = true)
    (Hprincipal : Permission.webId p = Some principal)
    (Hurl : Permission.resourceUrl p = Some url)
    (Hurl_set : truthy (Some url) = true)
    (Hacl : truthy (Some (PermissionSet.aclUrlFor (PermissionSet.this w) url))
            = true) :
  let acl := PermissionSet.aclUrlFor (PermissionSet.this w) url in
  exists w',
    PermissionSet.addAuthorization auth w = (Ok tt, w')
    /\ (exists c pc,
          PermissionSet.heap w !! c = None
          /\ PermissionSet.heap w' !! c = Some pc
          /\ Permission.virtual pc = true
          /\ Permission.webId pc = Some principal
          /\ Permission.resourceUrl pc = Some acl
          /\ forall mode, mode ∈ [READ; WRITE; APPEND; CONTROL] ->
                          Permission.allowsMode mode pc = true)
    /\ (exists l q,
          PermissionSet.lookup3
            (PermissionSet.authsBy_agents (PermissionSet.this w'))
            principal (Permission.accessType p) acl = Some l
          /\ PermissionSet.heap w' !! l = Some q
          /\ forall mode, mode ∈ [READ; WRITE; APPEND; CONTROL] ->
                          Permission.allowsMode mode q = true)
    /\ (PermissionSet.checkOrigin (PermissionSet.this w) p = true ->
        (forall l0 q0,
           PermissionSet.lookup3
             (PermissionSet.authsBy_agents (PermissionSet.this w))
             principal (Permission.accessType p) acl = Some l0 ->
           PermissionSet.heap w !! l0 = Some q0 ->
           PermissionSet.checkOrigin (PermissionSet.this w) q0 = true) ->
        Permission.accessType p = ACCESS_TO
        \/ PermissionSet.lookup3
             (PermissionSet.authsBy_agents (PermissionSet.this w))
             principal ACCESS_TO acl = None ->
        forall o,
          PermissionSet.run (PermissionSet.checkAccess acl principal WRITE o)
            w'
          = (Ok (Resolved true), w')).
Proof.
  intros acl.
  assert (Hc : negb (Permission.virtual p) && Permission.allowsControl p
               = true) by (by rewrite Hvirtual, Hcontrol).
  destruct (addAuthorization_control auth w p url Hwf Hauth Hurl Hurl_set
              Hc Hacl)
    as (w' & Hrun & Hwf' & Hev & c & pc & l & q & Hc0 & Hpc & Hidc & Hsubc
        & Hl & Hq & Hsub & Hold).
  fold acl in Hev, Hidc, Hsubc, Hl, Hold.
  rewrite Hprincipal in Hl, Hold. simpl in Hl, Hold.
  destruct (implied_permission_fields (PermissionSet.this w) p url)
    as (Hi1 & _ & Hi3 & Hi4 & Hi5 & Hi6).
  destruct (same_identity_fields _ _ Hidc) as (E1 & _ & E3 & E4 & E5 & _).
  exists w'. split; [apply (Hrun 0)|]. split; [|split].
  - exists c, pc. split; [done|]. split; [done|].
    split; [by rewrite E4|]. split; [by rewrite E1, Hi1|].
    split; [by rewrite E3|].
    intros mode Hmode. apply allowsMode_all; [|done]. set_solver.
  - exists l, q. split; [done|]. split; [done|].
    intros mode Hmode. by apply allowsMode_all.
  - intros Hop Hoq Hdirect o.
    assert (Hfind : PermissionSet.findAuthByAgent principal (Some acl)
                      PermissionSet.AGENT_INDEX (PermissionSet.this w')
                    = Ok (Some l)).
    { destruct (Permission.accessType p) eqn:Hty.
      - by apply findAuthByAgent_direct.
      - destruct Hdirect as [?|Hnone]; [done|].
        apply findAuthByAgent_inherited_exact; [|done].
        rewrite (ev_frame _ _ _ Hev PermissionSet.AGENT_INDEX); [done|].
        intros (_ & Hbad & _). discriminate Hbad. }
    assert (Horigin : PermissionSet.checkOrigin (PermissionSet.this w') q
                      = true).
    { pose proof (ev_settings _ _ _ Hev) as Hs.
      destruct Hold as [Hold| ->].
      - destruct (wf_index w Hwf PermissionSet.AGENT_INDEX _ _ _ _ Hold)
          as (q0 & Hq0 & _).
        destruct (evolves_object _ _ _ l q0 Hev Hq0) as (q' & Hq' & Hid & _).
        assert (q' = q) as -> by congruence.
        destruct (same_identity_fields _ _ Hid) as (_ & _ & _ & _ & Eo & _).
        rewrite (checkOrigin_ext _ _ _ q0 Hs Eo). by apply (Hoq l).
      - assert (q = pc) as -> by congruence.
        rewrite (checkOrigin_ext _ (PermissionSet.this w) _ p Hs);
          [done|by rewrite E5, Hi5]. }
    assert (Hgranted : granted w' acl principal WRITE = true).
    { unfold granted. rewrite Hfind, Hq, Horigin. simpl.
      rewrite allowsMode_listed by set_solver.
      apply bool_decide_eq_true. set_solver. }
    unfold PermissionSet.run, PermissionSet.checkAccess.
    rewrite (bind_Ok _ _ _ _ _ (allowsPublic_run w' WRITE acl Hwf' Hacl)).
    destruct (publicly_allowed w' WRITE acl); [done|].
    rewrite (bind_Ok _ _ _ _ _
               (checkAccessForAgent_run w' acl principal WRITE Hwf')).
    by rewrite Hgranted.
Qed.

(* ===================================================================== *)
(** * The mutation methods return and keep the store well formed *)
(* ===================================================================== *)

Section MutationFacts.

Import PermissionSet.

Lemma wf_empty w :
  authorizations (this w) = ∅ ->
  authsBy_agents (this w) = ∅ -> authsBy_groups (this w) = ∅ ->
  wf w.
Proof.
  intros Ha Hag Hgr. split.
  - intros h l. by rewrite Ha, lookup_empty.
  - intros i webId ty u l. unfold lookup3.
    destruct i; simpl; [rewrite Hag|rewrite Hgr]; by rewrite lookup_empty.
Qed.

Lemma wf_init url acl_url isContainer o :
  wf (init url acl_url isContainer o).
Proof. by apply wf_empty. Qed.

(** [addAuthorization] of an object of the store that has a resource URL,
    in a set whose [aclUrlFor] gives a non-empty URL for it: the call
    returns with any recursion budget of two or more, and the store stays
    well formed. *)
Lemma addAuthorization_ok a w pa r :
  wf w -> heap w !! a = Some pa ->
  Permission.resourceUrl pa = Some r -> truthy (Some r) = true ->
  truthy (Some (aclUrlFor (this w) r)) = true ->
  exists w',
    (forall n, addAuthorization_fuel (S (S n)) a w = (Ok tt, w'))
    /\ wf w'
    /\ settings (this w') = settings (this w)
    /\ heap_grows (heap w) (heap w').
Proof.
  intros Hwf Ha Hr Ht Hacl.
  destruct (negb (Permission.virtual pa) && Permission.allowsControl pa)
    eqn:Hc.
  - destruct (addAuthorization_control a w pa r Hwf Ha Hr Ht Hc Hacl)
      as (w' & Hrun & Hwf' & Hev & _).
    exists w'. split; [done|]. split; [done|].
    split; [apply (ev_settings _ _ _ Hev)|exact (ev_heap _ _ _ Hev)].
  - destruct (addAuthorization_plain a w pa r Hwf Ha Hr Ht Hc)
      as (w' & Hrun & Hwf' & Hev & _).
    exists w'. split; [intros n; apply Hrun|]. split; [done|].
    split; [apply (ev_settings _ _ _ Hev)|exact (ev_heap _ _ _ Hev)].
Qed.

(** The recursion budget of [addAuthorization] is never exhausted: any
    larger budget gives the same result. *)
Lemma addAuthorization_fuel_enough a w pa r n :
  wf w -> heap w !! a = Some pa ->
  Permission.resourceUrl pa = Some r -> truthy (Some r) = true ->
  truthy (Some (aclUrlFor (this w) r)) = true ->
  addAuthorization_fuel (S (S n)) a w = addAuthorization a w
  /\ fst (addAuthorization a w) = Ok tt.
Proof.
  intros Hwf Ha Hr Ht Hacl.
  destruct (addAuthorization_ok a w pa r Hwf Ha Hr Ht Hacl)
    as (w' & Hrun & _).
  unfold addAuthorization. by rewrite (Hrun n), (Hrun 0).
Qed.

(** The setters leave the resource URL alone. *)
Lemma addMode_resourceUrl m p :
  Permission.resourceUrl (Permission.addMode m p) = Permission.resourceUrl p.
Proof.
  destruct m as [x|l]; simpl; [done|].
  revert p. induction l as [|x l IH]; intros p; simpl; [done|].
  by rewrite IH.
Qed.

Lemma addOrigin_resourceUrl o p :
  Permission.resourceUrl (Permission.addOrigin o p)
  = Permission.resourceUrl p.
Proof.
  destruct o as [x|l]; simpl; [done|].
  revert p. induction l as [|x l IH]; intros p; simpl; [done|].
  by rewrite IH.
Qed.

Lemma setGroup_new url inh g :
  exists p, Permission.setGroup (Permission.PTerm (Str g))
              (Permission.new url inh) = Ok p
            /\ Permission.resourceUrl p = url.
Proof. eexists. split; reflexivity. Qed.

Lemma setAgent_new url inh a :
  exists p, Permission.setAgent (Permission.PTerm (Str a))
              (Permission.new url inh) = Ok p
            /\ Permission.resourceUrl p = url.
Proof.
  unfold Permission.setAgent. simpl.
  destruct (String.eqb a EVERYONE); simpl;
    destruct (startsWith a "mailto:"); eexists; split; reflexivity.
Qed.

Lemma alloc_run w p :
  let l := fresh (dom (heap w)) in
  alloc p w = (Ok l, mkWorld (<[l := p]> (heap w)) (this w))
  /\ heap w !! l = None.
Proof. split; [done|]. apply not_elem_of_dom, is_fresh. Qed.

Lemma wf_alloc w l p :
  wf w -> heap w !! l = None ->
  wf (mkWorld (<[l := p]> (heap w)) (this w)).
Proof.
  intros Hwf Hl. apply wf_evolves_heap; [done|]. intros l' p' Hp'.
  by apply (heap_grows_weaken _ _ _ _ (heap_grows_alloc _ l p Hl)).
Qed.

(** [addGroupPermission] on a set with a resource URL returns, and the store
    stays well formed. *)
Lemma addGroupPermission_ok w webId accessMode url :
  wf w -> resourceUrl (this w) = Some url -> truthy (Some url) = true ->
  truthy (Some (aclUrlFor (this w) url)) = true ->
  exists w',
    addGroupPermission webId accessMode w = (Ok tt, w')
    /\ wf w'
    /\ settings (this w') = settings (this w).
Proof.
  intros Hwf Hurl Ht Hacl. unfold addGroupPermission.
  rewrite (bind_Ok _ _ w (this w) w) by done.
  rewrite Hurl, Ht. simpl.
  destruct (alloc_run w (Permission.new (Some url) (isAuthInherited (this w))))
    as [Halloc Hfresh].
  set (l := fresh (dom (heap w))) in *.
  rewrite (bind_Ok _ _ _ _ _ Halloc).
  destruct (setGroup_new (Some url) (isAuthInherited (this w)) webId)
    as (p1 & Hp1 & Hu1).
  unfold update_or_throw.
  erewrite (bind_Ok (bind (deref l) _));
    [|erewrite bind_Ok; [|apply deref_Some, lookup_insert_eq];
      unfold bind, lift; rewrite Hp1; reflexivity].
  erewrite bind_Ok; [|apply update_run; apply lookup_insert_eq].
  simpl. rewrite !insert_insert_eq.
  set (p2 := Permission.addMode accessMode p1).
  set (w2 := mkWorld (<[l := p2]> (heap w)) (this w)).
  assert (Hwf2 : wf w2) by (by apply wf_alloc).
  destruct (addAuthorization_ok l w2 p2 url Hwf2) as (w' & Hrun & Hwf' & Hs & _).
  - apply lookup_insert_eq.
  - unfold p2. by rewrite addMode_resourceUrl.
  - done.
  - done.
  - exists w'. split; [apply (Hrun 0)|]. done.
Qed.

(** [addPermission] with a web id and a mode, on a set with a resource URL,
    returns, and the store stays well formed. *)
Lemma addPermission_ok w webId accessMode origin url :
  wf w -> truthy (Some webId) = true -> arg_truthy accessMode = true ->
  resourceUrl (this w) = Some url -> truthy (Some url) = true ->
  truthy (Some (aclUrlFor (this w) url)) = true ->
  exists w',
    addPermission webId accessMode origin w = (Ok tt, w')
    /\ wf w'
    /\ settings (this w') = settings (this w).
Proof.
  intros Hwf Hid Hmode Hurl Ht Hacl. unfold addPermission.
  rewrite (bind_Ok _ _ w (this w) w) by done.
  rewrite Hid, Hmode, Hurl, Ht. simpl.
  destruct (alloc_run w (Permission.new (Some url) (isAuthInherited (this w))))
    as [Halloc Hfresh].
  set (l := fresh (dom (heap w))) in *.
  rewrite (bind_Ok _ _ _ _ _ Halloc).
  destruct (setAgent_new (Some url) (isAuthInherited (this w)) webId)
    as (p1 & Hp1 & Hu1).
  unfold update_or_throw.
  erewrite (bind_Ok (bind (deref l) _));
    [|erewrite bind_Ok; [|apply deref_Some, lookup_insert_eq];
      unfold bind, lift; rewrite Hp1; reflexivity].
  erewrite bind_Ok; [|apply update_run; apply lookup_insert_eq].
  simpl. rewrite !insert_insert_eq.
  set (p2 := Permission.addMode accessMode p1).
  assert (Hu2 : Permission.resourceUrl p2 = Some url)
    by (unfold p2; by rewrite addMode_resourceUrl).
  assert (Hfinal : forall p3,
             Permission.resourceUrl p3 = Some url ->
             exists w',
               addAuthorization l (mkWorld (<[l := p3]> (heap w)) (this w))
               = (Ok tt, w')
               /\ wf w' /\ settings (this w') = settings (this w)).
  { intros p3 Hu3.
    destruct (addAuthorization_ok l (mkWorld (<[l := p3]> (heap w)) (this w))
                p3 url) as (w' & Hrun & Hwf' & Hs & _).
    - by apply wf_alloc.
    - apply lookup_insert_eq.
    - done.
    - done.
    - done.
    - exists w'. split; [apply (Hrun 0)|]. done. }
  destruct origin as [o|].
  - destruct (arg_truthy o).
    + erewrite bind_Ok; [|apply update_run; apply lookup_insert_eq].
      simpl. rewrite insert_insert_eq. apply Hfinal.
      by rewrite addOrigin_resourceUrl.
    + rewrite (bind_Ok _ _ _ tt _) by done. by apply Hfinal.
  - rewrite (bind_Ok _ _ _ tt _) by done. by apply Hfinal.
Qed.

End MutationFacts.

Section MutationCorollaries.

Import PermissionSet.

Lemma addGroupPermission_wf w webId accessMode url :
  wf w -> resourceUrl (this w) = Some url -> truthy (Some url) = true ->
  truthy (Some (aclUrlFor (this w) url)) = true ->
  wf (exec (addGroupPermission webId accessMode) w).
Proof.
  intros Hwf Hurl Ht Hacl.
  destruct (addGroupPermission_ok w webId accessMode url Hwf Hurl Ht Hacl)
    as (w' & Hrun & Hwf' & _).
  unfold exec. by rewrite Hrun.
Qed.

Lemma addPermission_wf w webId accessMode origin url :
  wf w -> truthy (Some webId) = true -> arg_truthy accessMode = true ->
  resourceUrl (this w) = Some url -> truthy (Some url) = true ->
  truthy (Some (aclUrlFor (this w) url)) = true ->
  wf (exec (addPermission webId accessMode origin) w).
Proof.
  intros Hwf Hid Hmode Hurl Ht Hacl.
  destruct (addPermission_ok w webId accessMode origin url Hwf Hid Hmode
              Hurl Ht Hacl) as (w' & Hrun & Hwf' & _).
  unfold exec. by rewrite Hrun.
Qed.

End MutationCorollaries.

(* ===================================================================== *)
(** * Instances *)
(* ===================================================================== *)

Lemma C2_control_grants_acl_access_witness :
  let file1 := "https://alice.example.com/docs/file1" in
  let alice := "https://alice.example.com/#me" in
  let p := Permission.addMode (One (Str CONTROL))
             (Permission.set_agent (Some alice)
                (Permission.new (Some file1) false)) in
  let w := PermissionSet.mkWorld {[ 0 := p ]}
             (PermissionSet.new (Some file1) None false
                PermissionSet.no_options) in
  exists w',
    PermissionSet.addAuthorization 0 w = (Ok tt, w')
    /\ forall o,
         PermissionSet.run
           (PermissionSet.checkAccess
              (PermissionSet.aclUrlFor (PermissionSet.this w) file1)
              alice WRITE o) w'
         = (Ok (Resolved true), w').
Proof.
  intros file1 alice p w.
  destruct (C2_control_grants_acl_access w 0 p alice file1)
    as (w' & Hrun & _ & _ & Hcheck).
  - by apply wf_empty.
  - apply lookup_singleton_eq.
  - reflexivity.
  - vm_compute. reflexivity.
  - reflexivity.
  - reflexivity.
  - reflexivity.
  - vm_compute. reflexivity.
  - exists w'. split; [exact Hrun|].
    apply Hcheck; [reflexivity | | left; reflexivity].
    intros l0 q0 Hl0. discriminate Hl0.
Defined.

Lemma C3_public_access_ignores_origin_witness :
  let docs := "https://alice.example.com/docs/" in
  let w := PermissionSet.exec
             (PermissionSet.addGroupPermission EVERYONE (One (Str READ)))
             (PermissionSet.init (Some docs) None true
                PermissionSet.no_options) in
  let w_strict :=
    PermissionSet.mkWorld (PermissionSet.heap w)
      (PermissionSet.set_origin_context true (Some "https://evil.example")
         (Some "https://alice.example.com") (PermissionSet.this w)) in
  PermissionSet.run
    (PermissionSet.checkAccess "https://alice.example.com/docs/file1"
       "https://someone.else.com/" READ
       (PermissionSet.mkLoadOptions None false)) w_strict
  = (Ok (Resolved true), w_strict).
Proof.
  intros docs w w_strict.
  refine (proj1 (C3_public_access_ignores_origin w
                   "https://alice.example.com/docs/file1" READ 0
                   (Permission.addMode (One (Str READ))
                      (Permission.set_group (Some EVERYONE)
                         (Permission.new (Some docs) true)))
                   _ _ _ _) _ _ _ _ _).
  - reflexivity.
  - vm_compute. reflexivity.
  - vm_compute. reflexivity.
  - vm_compute. reflexivity.
Defined.

Lemma load_failure_without_cache_is_deny_instance :
  let file2 := "https://alice.example.com/docs/file2.ttl" in
  let accounting := "https://alice.example.com/work-groups#Accounting" in
  let bob := "https://bob.example.com/profile/card#me" in
  let w := PermissionSet.exec
             (PermissionSet.addGroupPermission accounting (One (Str WRITE)))
             (PermissionSet.init (Some file2) None false
                PermissionSet.no_options) in
  let unreachable : GroupListing.fetcher := fun _ => Rejected "404" in
  GroupListing.loadFrom accounting unreachable true = Resolved None
  /\ PermissionSet.eval
       (PermissionSet.checkAccess file2 bob APPEND
          (PermissionSet.mkLoadOptions (Some unreachable) true)) w
     = Ok (Resolved false).
Proof.
  intros file2 accounting bob w unreachable.
  destruct (load_failure_without_cache_is_deny w file2 bob APPEND unreachable true)
    as (Hload & _ & b & w' & Hrun & _ & _ & Hdeny).
  - apply (addGroupPermission_wf _ _ _ file2);
      [apply wf_init | reflexivity | reflexivity | reflexivity].
  - reflexivity.
  - reflexivity.
  - split.
    + apply Hload. left. by exists "404".
    + unfold PermissionSet.eval. rewrite Hrun. simpl.
      rewrite Hdeny.
      * vm_compute. reflexivity.
      * intros G _. left. by exists "404".
      * vm_compute. reflexivity.
Defined.


(** C7: what the code does. After [addPermission(bob, Read)] and
    [removePermission(bob, Read)] the collection is empty, but the agent
    index still holds the emptied permission: [removeAuthorization] deletes
    from [authorizations] only. After the permission is granted again with
    Read and Write and Write is removed, the object of the collection has
    Read only, while the object of the index, the one [checkAccess] reads,
    still grants Write. *)
Theorem C7_removePermission_leaves_index_entry :
  let file1 := "https://alice.example.com/docs/file1" in
  let bob := "https://bob.example.com/#me" in
  let w0 := PermissionSet.init (Some file1) (Some (file1 +:+ ".acl")) false
              PermissionSet.no_options in
  let w1 := PermissionSet.exec
              (PermissionSet.addPermission bob (One (Str READ)) None) w0 in
  let w2 := PermissionSet.exec
              (PermissionSet.removePermission bob (One (Str READ))) w1 in
  let w3 := PermissionSet.exec
              (PermissionSet.addPermission bob (Many [Str READ; Str WRITE])
                 None) w2 in
  let w4 := PermissionSet.exec
              (PermissionSet.removePermission bob (One (Str WRITE))) w3 in
  PermissionSet.eval (PermissionSet.removePermission bob (One (Str READ))) w1
  = Ok tt
  /\ PermissionSet.authorizations (PermissionSet.this w2) = ∅
  /\ PermissionSet.lookup3
       (PermissionSet.authsBy_agents (PermissionSet.this w2))
       bob ACCESS_TO file1 = Some 0
  /\ PermissionSet.permissionFor bob None (PermissionSet.this w4) = Some 1
  /\ (Permission.allowsWrite <$> PermissionSet.heap w4 !! 1) = Some false
  /\ PermissionSet.findAuthByAgent bob (Some file1)
       PermissionSet.AGENT_INDEX (PermissionSet.this w4) = Ok (Some 0)
  /\ PermissionSet.eval
       (PermissionSet.checkAccess file1 bob WRITE
          (PermissionSet.mkLoadOptions None false)) w4
     = Ok (Resolved true).
Proof. vm_compute. repeat split. Qed.

(* ===================================================================== *)
(** * Well-formedness is an invariant of the interface *)
(* ===================================================================== *)

Section Invariant.

Import PermissionSet.

Lemma removeMode_same_identity m p :
  same_identity p (Permission.removeMode m p).
Proof.
  destruct m as [x|l]; simpl; [apply same_identity_set_accessModes|].
  revert p. induction l as [|x l IH]; intros p; simpl;
    [apply same_identity_refl|].
  eapply same_identity_trans; [|apply IH].
  apply same_identity_set_accessModes.
Qed.

Lemma wf_update w l p p' :
  wf w -> heap w !! l = Some p -> same_identity p p' ->
  wf (mkWorld (<[l := p']> (heap w)) (this w)).
Proof.
  intros Hwf Hl Hid. apply wf_evolves_heap; [done|].
  intros l0 p0 Hp0. destruct (decide (l0 = l)) as [->|Hne].
  - rewrite lookup_insert_eq. exists p'. split; [done|]. congruence.
  - rewrite lookup_insert_ne by done. exists p0.
    split; [done|apply same_identity_refl].
Qed.

(** [removePermission] returns on a well-formed store and keeps it well
    formed. *)
Lemma removePermission_ok w webId accessMode :
  wf w ->
  exists w',
    removePermission webId accessMode w = (Ok tt, w')
    /\ wf w'
    /\ settings (this w') = settings (this w).
Proof.
  intros Hwf. unfold removePermission.
  rewrite (bind_Ok _ _ w (this w) w) by done.
  destruct (permissionFor webId (resourceUrl (this w)) (this w))
    as [auth|] eqn:Hfor; [|by exists w].
  unfold permissionFor in Hfor.
  destruct (negb (truthy (Some webId))); [done|].
  destruct (wf_authorizations w Hwf _ _ Hfor) as (p & Hp & Hh).
  rewrite (bind_Ok _ _ _ _ _ (update_run auth _ w p Hp)).
  set (p1 := Permission.removeMode accessMode p).
  set (w1 := mkWorld (<[auth := p1]> (heap w)) (this w)).
  assert (Hid : same_identity p p1) by apply removeMode_same_identity.
  assert (Hwf1 : wf w1) by (by apply (wf_update w auth p p1)).
  assert (Hp1 : heap w1 !! auth = Some p1) by apply lookup_insert_eq.
  rewrite (bind_Ok _ _ _ _ _ (deref_Some _ _ _ Hp1)).
  destruct (Permission.isEmpty p1); [|by exists w1].
  unfold removeAuthorization.
  rewrite (bind_Ok _ _ _ _ _ (deref_Some _ _ _ Hp1)).
  destruct (same_identity_fields _ _ Hid) as (_ & _ & _ & _ & _ & _ & Eh).
  rewrite Eh, Hh. rewrite (bind_Ok _ _ w1 _ w1) by done.
  eexists. split; [done|]. split; [|done].
  apply (wf_from w1); simpl.
  - done.
  - intros l p0 Hp0. exists p0. split; [done|apply same_identity_refl].
  - intros h l Hl. left. apply lookup_delete_Some in Hl as [_ Hl]. done.
  - intros i u ty r l Hl. left. by rewrite authsBy_set_authorizations in Hl.
Qed.

Lemma checkAccess_wf w url agentId mode o :
  wf w -> wf (exec (checkAccess url agentId mode o) w).
Proof.
  intros Hwf.
  destruct (checkAccess_effect w url agentId mode o) as (cache & -> & _).
  by apply wf_set_groups.
Qed.

Lemma checkAccess_settings w url agentId mode o :
  settings (this (exec (checkAccess url agentId mode o) w))
  = settings (this w).
Proof.
  by destruct (checkAccess_effect w url agentId mode o) as (cache & -> & _).
Qed.

(** Every store reached from a new permission set that uses the default
    [aclUrlFor] is well formed. *)
Theorem reachable_wf url acl_url isContainer o w :
  opt_aclUrlFor o = None ->
  reachable (init url acl_url isContainer o) w -> wf w.
Proof.
  intros Ho Hreach.
  set (w0 := init url acl_url isContainer o) in *.
  assert (H : wf w /\ settings (this w) = settings (this w0)).
  { induction Hreach as [|w webId accessMode origin w' _ [IH Hs] Hrun
                          |w webId accessMode w' _ [IH Hs] Hrun
                          |w webId accessMode w' _ [IH Hs] Hrun
                          |w url' agentId mode o' _ [IH Hs]].
    - split; [apply wf_init|done].
    - destruct (settings_fields _ _ Hs) as (Ea & _ & _ & _ & Er).
      unfold addPermission in Hrun.
      rewrite (bind_Ok _ _ w (this w) w) in Hrun by done.
      destruct (truthy (Some webId)) eqn:Hid; [|done].
      destruct (arg_truthy accessMode) eqn:Hmode; [|done].
      destruct (resourceUrl (this w)) as [r|] eqn:Hr; [|done].
      destruct (truthy (Some r)) eqn:Ht; [|done].
      destruct (addPermission_ok w webId accessMode origin r IH Hid Hmode
                  Hr Ht) as (w'' & Hrun' & Hwf'' & Hs'').
      { rewrite Ea. simpl. rewrite Ho. by apply defaultAclUrlFor_truthy. }
      unfold addPermission in Hrun'.
      rewrite (bind_Ok _ _ w (this w) w) in Hrun' by done.
      rewrite Hid, Hmode, Hr, Ht in Hrun'. simpl in Hrun, Hrun'.
      rewrite Hrun in Hrun'. injection Hrun' as <-.
      split; [done|congruence].
    - destruct (settings_fields _ _ Hs) as (Ea & _ & _ & _ & Er).
      unfold addGroupPermission in Hrun.
      rewrite (bind_Ok _ _ w (this w) w) in Hrun by done.
      destruct (resourceUrl (this w)) as [r|] eqn:Hr; [|done].
      destruct (truthy (Some r)) eqn:Ht; [|done].
      destruct (addGroupPermission_ok w webId accessMode r IH Hr Ht)
        as (w'' & Hrun' & Hwf'' & Hs'').
      { rewrite Ea. simpl. rewrite Ho. by apply defaultAclUrlFor_truthy. }
      unfold addGroupPermission in Hrun'.
      rewrite (bind_Ok _ _ w (this w) w) in Hrun' by done.
      rewrite Hr, Ht in Hrun'. simpl in Hrun, Hrun'.
      rewrite Hrun in Hrun'. injection Hrun' as <-.
      split; [done|congruence].
    - destruct (removePermission_ok w webId accessMode IH)
        as (w'' & Hrun' & Hwf'' & Hs'').
      rewrite Hrun in Hrun'. injection Hrun' as <-.
      split; [done|congruence].
    - split; [by apply checkAccess_wf|].
      by rewrite checkAccess_settings. }
  apply H.
Qed.

End Invariant.

(* ===================================================================== *)
(** * The scenarios of the specification, evaluated *)
(* ===================================================================== *)

Section ScenarioFacts.

Import PermissionSet.
Import Scenarios.

(** A Direct grant of Read. *)
Example direct_grant :
  let w := exec (addPermission alice (One (Str READ)) None)
             (init (Some file1) None false no_options) in
  eval (checkAccess file1 alice READ no_loader) w = Ok (Resolved true)
  /\ eval (checkAccess file1 alice WRITE no_loader) w = Ok (Resolved false)
  /\ eval (checkAccess "https://alice.example.com/other/file2" alice READ
             no_loader) w = Ok (Resolved false).
Proof. vm_compute. repeat split. Qed.

(** An Inherited grant of Read on the container. *)
Example inherited_grant :
  let w := exec (addPermission alice (One (Str READ)) None)
             (init (Some docs) None true no_options) in
  eval (checkAccess file1 alice READ no_loader) w = Ok (Resolved true)
  /\ eval (checkAccess file1 bob READ no_loader) w = Ok (Resolved false).
Proof. vm_compute. repeat split. Qed.

(** The more specific of two containers is chosen. *)
Example most_specific_inherited_grant :
  let add u m :=
    addAuthorizationFor u true (Permission.PTerm (Str alice)) [Str m] [] [] in
  let w := exec (add docs WRITE)
             (exec (add "https://alice.example.com/" READ)
                (init (Some docs) None true no_options)) in
  eval (checkAccess file1 alice WRITE no_loader) w = Ok (Resolved true)
  /\ eval (checkAccess file1 alice READ no_loader) w = Ok (Resolved false)
  /\ eval (checkAccess "https://alice.example.com/profile" alice READ
             no_loader) w = Ok (Resolved true).
Proof. vm_compute. repeat split. Qed.

(** Control on a resource gives Write on its ACL document. *)
Example control_grant :
  let w := exec (addPermission alice (One (Str CONTROL)) None)
             (init (Some file1) None false no_options) in
  eval (checkAccess (file1 +:+ ".acl") alice WRITE no_loader) w
  = Ok (Resolved true).
Proof. vm_compute. reflexivity. Qed.

(** A group grant of Write: a member may append, another agent may not,
    and an absent listing is a deny. *)
Example group_grant :
  let w := exec (addGroupPermission team (One (Str WRITE)))
             (init (Some file2) None false no_options) in
  eval (checkAccess file2 bob APPEND
          (mkLoadOptions (Some reachable_listing) true)) w
  = Ok (Resolved true)
  /\ eval (checkAccess file2 carol APPEND
             (mkLoadOptions (Some reachable_listing) true)) w
     = Ok (Resolved false)
  /\ eval (checkAccess file2 bob APPEND
             (mkLoadOptions (Some absent_listing) true)) w
     = Ok (Resolved false).
Proof. vm_compute. repeat split. Qed.

(** Strict origin: the grant counts once the origin is allowed. *)
Example strict_origin :
  let o := mkOptions (Some "https://alice.example.com") false true
             (Some "https://app.example") None None in
  let w0 := init (Some file1) None false o in
  let w := exec (addPermission alice (One (Str READ)) None) w0 in
  let w' := exec (addPermission alice (One (Str READ))
                    (Some (One (Str "https://app.example")))) w0 in
  eval (checkAccess file1 alice READ no_loader) w = Ok (Resolved false)
  /\ eval (checkAccess file1 alice READ no_loader) w' = Ok (Resolved true).
Proof. vm_compute. repeat split. Qed.

End ScenarioFacts.

(* ===================================================================== *)
(** * Modes, origins and e-mail aliases of a [Permission] *)
(* ===================================================================== *)

Section PermissionRoundTrips.

Import Permission.

Lemma foldl_addModeSingle (l : list Term) p :
  foldl (fun acc ea => addModeSingle ea acc) p l
  = set_accessModes (list_to_set (term_value <$> l) ∪ accessModes p) p.
Proof.
  revert p. induction l as [|m l IH]; intros p; simpl.
  - rewrite union_empty_l_L. by destruct p.
  - rewrite IH. unfold addModeSingle. destruct p; simpl. unfold set_accessModes; simpl.
    f_equal. set_solver.
Qed.

Lemma foldl_removeModeSingle (l : list Term) p :
  foldl (fun acc ea => removeModeSingle ea acc) p l
  = set_accessModes (accessModes p ∖ list_to_set (term_value <$> l)) p.
Proof.
  revert p. induction l as [|m l IH]; intros p; simpl.
  - rewrite difference_empty_L. by destruct p.
  - rewrite IH. unfold removeModeSingle. destruct p; simpl. unfold set_accessModes; simpl.
    f_equal. set_solver.
Qed.

Lemma addMode_modes a p :
  addMode a p = set_accessModes (values a ∪ accessModes p) p.
Proof.
  destruct a as [m|l]; simpl.
  - reflexivity.
  - apply foldl_addModeSingle.
Qed.

Lemma removeMode_modes a p :
  removeMode a p = set_accessModes (accessModes p ∖ values a) p.
Proof.
  destruct a as [m|l]; simpl.
  - reflexivity.
  - apply foldl_removeModeSingle.
Qed.

End PermissionRoundTrips.

(** X1: [addMode] adds exactly the given modes to the permission and
    [removeMode] removes exactly them; neither changes anything else of the
    permission. Adding the same modes twice is adding them once, removing
    after adding is removing, and it gives back the permission when it had
    none of the modes before; a permission whose only modes were just added
    is empty once they are removed. *)
Theorem X1_addMode_removeMode_round_trip (a : OneOrMany Term)
    (p : Permission.t) :
  Permission.accessModes (Permission.addMode a p)
  = values a ∪ Permission.accessModes p
  /\ Permission.accessModes (Permission.removeMode a p)
     = Permission.accessModes p ∖ values a
  /\ same_identity p (Permission.addMode a p)
  /\ same_identity p (Permission.removeMode a p)
  /\ Permission.addMode a (Permission.addMode a p) = Permission.addMode a p
  /\ Permission.removeMode a (Permission.addMode a p)
     = Permission.removeMode a p
  /\ (values a ## Permission.accessModes p ->
      Permission.removeMode a (Permission.addMode a p) = p)
  /\ Permission.isEmpty (Permission.removeMode a (Permission.addMode a
                           (Permission.set_accessModes ∅ p))) = true.
Proof.
  rewrite !addMode_modes, !removeMode_modes.
  destruct p as [m ty ag gr inh ml og url vi]; unfold same_identity; simpl.
  unfold Permission.set_accessModes, Permission.isEmpty; simpl.
  repeat apply conj; try reflexivity.
  - f_equal. set_solver.
  - f_equal. set_solver.
  - intros Hd. f_equal. set_solver.
  - apply bool_decide_eq_true. set_solver.
Qed.

(** X2: [allowsMode] takes the name of a standard mode in any letter case
    as it takes the ACL URL of the mode: for Read, Write, Append and Control
    it answers as [allowsRead], [allowsWrite], [allowsAppend] and
    [allowsControl] do. *)
Theorem X2_allowsMode_names (s : string) (p : Permission.t) :
  (toUpperCase s = "READ" ->
   Permission.allowsMode s p = Permission.allowsRead p)
  /\ (toUpperCase s = "WRITE" ->
      Permission.allowsMode s p = Permission.allowsWrite p)
  /\ (toUpperCase s = "APPEND" ->
      Permission.allowsMode s p = Permission.allowsAppend p)
  /\ (toUpperCase s = "CONTROL" ->
      Permission.allowsMode s p = Permission.allowsControl p)
  /\ Permission.allowsMode READ p = Permission.allowsRead p
  /\ Permission.allowsMode WRITE p = Permission.allowsWrite p
  /\ Permission.allowsMode APPEND p = Permission.allowsAppend p
  /\ Permission.allowsMode CONTROL p = Permission.allowsControl p.
Proof.
  unfold Permission.allowsMode.
  repeat apply conj; try (intros ->); reflexivity.
Qed.

Lemma X2_allowsMode_names_witness :
  let p := Permission.addMode (One (Str WRITE))
             (Permission.new (Some "https://bob.example.com/docs/file1") false)
  in
  Permission.allowsMode "Append" p = true
  /\ Permission.allowsMode "write" p = true
  /\ Permission.allowsMode "read" p = false
  /\ Permission.allowsMode "CONTROL" p = false.
Proof.
  intros p.
  destruct (X2_allowsMode_names "Append" p) as (_ & _ & Ha & _).
  destruct (X2_allowsMode_names "write" p) as (_ & Hw & _).
  destruct (X2_allowsMode_names "read" p) as (Hr & _).
  destruct (X2_allowsMode_names "CONTROL" p) as (_ & _ & _ & Hc & _).
  rewrite (Ha eq_refl), (Hw eq_refl), (Hr eq_refl), (Hc eq_refl).
  vm_compute. repeat split.
Defined.

Section Origins.
Import Permission.

Lemma foldl_addOriginSingle (l : list Term) p :
  foldl (fun acc ea => addOriginSingle ea acc) p l
  = set_originsAllowed (list_to_set (term_value <$> l) ∪ originsAllowed p) p.
Proof.
  revert p. induction l as [|m l IH]; intros p; simpl.
  - rewrite union_empty_l_L. by destruct p.
  - rewrite IH. unfold addOriginSingle. destruct p; simpl.
    unfold set_originsAllowed; simpl. f_equal. set_solver.
Qed.

Lemma foldl_removeOriginSingle (l : list Term) p :
  foldl (fun acc ea => removeOriginSingle ea acc) p l
  = set_originsAllowed (originsAllowed p ∖ list_to_set (term_value <$> l)) p.
Proof.
  revert p. induction l as [|m l IH]; intros p; simpl.
  - rewrite difference_empty_L. by destruct p.
  - rewrite IH. unfold removeOriginSingle. destruct p; simpl.
    unfold set_originsAllowed; simpl. f_equal. set_solver.
Qed.

Lemma addOrigin_origins a p :
  addOrigin a p = set_originsAllowed (values a ∪ originsAllowed p) p.
Proof.
  destruct a as [m|l]; simpl; [reflexivity|apply foldl_addOriginSingle].
Qed.

Lemma removeOrigin_origins a p :
  removeOrigin a p = set_originsAllowed (originsAllowed p ∖ values a) p.
Proof.
  destruct a as [m|l]; simpl; [reflexivity|apply foldl_removeOriginSingle].
Qed.

End Origins.

(** X3: an origin is allowed after [addOrigin] when it is one of the added
    origins or was allowed before, and after [removeOrigin] when it was
    allowed and is not one of the removed origins; removing after adding is
    removing. The origins change neither the modes nor the hash fragment of
    the permission, and [allOrigins] lists the added and the former
    origins. *)
Theorem X3_origins_round_trip (a : OneOrMany Term) (o : string)
    (p : Permission.t) :
  Permission.allowsOrigin o (Permission.addOrigin a p)
  = bool_decide (o ∈ values a) || Permission.allowsOrigin o p
  /\ Permission.allowsOrigin o (Permission.removeOrigin a p)
     = negb (bool_decide (o ∈ values a)) && Permission.allowsOrigin o p
  /\ Permission.allowsOrigin o
       (Permission.removeOrigin a (Permission.addOrigin a p))
     = negb (bool_decide (o ∈ values a)) && Permission.allowsOrigin o p
  /\ Permission.accessModes (Permission.addOrigin a p)
     = Permission.accessModes p
  /\ Permission.accessModes (Permission.removeOrigin a p)
     = Permission.accessModes p
  /\ Permission.hashFragment (Permission.addOrigin a p)
     = Permission.hashFragment p
  /\ Permission.hashFragment (Permission.removeOrigin a p)
     = Permission.hashFragment p
  /\ forall x, x ∈ Permission.allOrigins (Permission.addOrigin a p)
               <-> x ∈ values a \/ x ∈ Permission.allOrigins p.
Proof.
  rewrite !addOrigin_origins, !removeOrigin_origins.
  unfold Permission.allowsOrigin, Permission.allOrigins.
  destruct p as [m ty ag gr inh ml og url vi]; simpl.
  repeat apply conj; try reflexivity.
  - repeat case_bool_decide; simpl; try reflexivity; set_solver.
  - repeat case_bool_decide; simpl; try reflexivity; set_solver.
  - repeat case_bool_decide; simpl; try reflexivity; set_solver.
  - intros x. rewrite !elem_of_elements. set_solver.
Qed.

Section MailTo.
Import Permission.

Lemma upto_colon_no_colon addr :
  ~ In colon (String.list_ascii_of_string addr) -> upto_colon addr = addr.
Proof.
  induction addr as [|c addr IH]; simpl; intros H; [reflexivity|].
  destruct (Ascii.eqb c colon) eqn:E.
  - apply Ascii.eqb_eq in E. exfalso. apply H. by left.
  - f_equal. apply IH. intros Hin. apply H. by right.
Qed.

Lemma startsWith_app p s : startsWith (p +:+ s) p = true.
Proof.
  unfold startsWith. induction p as [|c p IH].
  - change (EmptyString +:+ s) with s. by destruct s.
  - change (String c p +:+ s) with (String c (p +:+ s)). simpl.
    destruct (Ascii.ascii_dec c c); [exact IH|done].
Qed.

Lemma mail_alias_mailto a addr :
  term_value a = "mailto:" +:+ addr -> mail_alias a = upto_colon addr.
Proof.
  intros Ha. unfold mail_alias. rewrite Ha, startsWith_app. reflexivity.
Qed.

End MailTo.

(** X4: [addMailTo] stores the alias of its argument and sorts the list:
    the new list of aliases is in order and is, up to the order, the old
    list with the new alias. The alias of [mailto:addr] is [addr] (for an
    [addr] without a colon), the alias of a string that does not start with
    [mailto:] is the string; nothing else of the permission changes. *)
Theorem X4_addMailTo_sorted_aliases (a : Term) (p : Permission.t) :
  let p' := Permission.addMailTo a p in
  StronglySorted str_le (Permission.mailTo p')
  /\ Permission.mailTo p' ≡ₚ mail_alias a :: Permission.mailTo p
  /\ (forall addr,
        term_value a = "mailto:" +:+ addr ->
        ~ In colon (String.list_ascii_of_string addr) ->
        mail_alias a = addr)
  /\ (startsWith (term_value a) "mailto:" = false ->
      mail_alias a = term_value a)
  /\ Permission.set_mailTo (Permission.mailTo p) p' = p.
Proof.
  simpl. unfold Permission.addMailTo. fold (mail_alias a).
  destruct p as [m ty ag gr inh ml og url vi]; simpl.
  repeat apply conj.
  - apply sort_sorted.
  - unfold JS.sort. rewrite merge_sort_Permutation.
    by rewrite Permutation_app_comm.
  - intros addr Ha Hno. rewrite (mail_alias_mailto a addr Ha).
    by apply upto_colon_no_colon.
  - intros Hs. unfold mail_alias. by rewrite Hs.
  - reflexivity.
Qed.

Lemma X4_addMailTo_sorted_aliases_witness :
  let p := Permission.addMailTo (Str "mailto:carol@example.com")
             (Permission.new None false) in
  Permission.mailTo
    (Permission.addMailTo (Node "mailto:alice@example.com")
       (Permission.addMailTo (Str "bob@example.com") p))
  = ["alice@example.com"; "bob@example.com"; "carol@example.com"]
  /\ mail_alias (Node "mailto:alice@example.com") = "alice@example.com"
  /\ mail_alias (Str "bob@example.com") = "bob@example.com".
Proof.
  intros p. split; [vm_compute; reflexivity|]. split.
  - apply (X4_addMailTo_sorted_aliases (Node "mailto:alice@example.com") p).
    + reflexivity.
    + vm_compute. intros H. repeat (destruct H as [H|H]; [discriminate H|]).
      exact H.
  - apply (X4_addMailTo_sorted_aliases (Str "bob@example.com") p).
    reflexivity.
Defined.

(** X5: on a permission that has no group, [setAgent] of a [mailto:]
    address is [addMailTo]: the agent, the web id and the hash fragment
    stay as they are. [setAgent] of another identifier, other than the
    public agent class, sets the agent, which is then the web id if it is
    not empty, and leaves the aliases. *)
Theorem X5_setAgent_mailto_is_alias (addr a : string) (p : Permission.t)
    (Hgroup : truthy (Permission.group p) = false) :
  (exists p',
     Permission.setAgent (Permission.PTerm (Str ("mailto:" +:+ addr))) p
     = Ok p'
     /\ p' = Permission.addMailTo (Str ("mailto:" +:+ addr)) p
     /\ Permission.agent p' = Permission.agent p
     /\ Permission.webId p' = Permission.webId p
     /\ Permission.hashFragment p' = Permission.hashFragment p)
  /\ (startsWith a "mailto:" = false -> a <> EVERYONE ->
      exists p',
        Permission.setAgent (Permission.PTerm (Str a)) p = Ok p'
        /\ Permission.agent p' = Some a
        /\ Permission.mailTo p' = Permission.mailTo p
        /\ (truthy (Some a) = true -> Permission.webId p' = Some a)).
Proof.
  split.
  - eexists. split; [|split; [reflexivity|]].
    + unfold Permission.setAgent. simpl term_value.
      change (String.eqb ("mailto:" +:+ addr) EVERYONE) with false.
      rewrite Hgroup.
      rewrite startsWith_app. reflexivity.
    + by destruct p.
  - intros Hm Hne. eexists. split.
    + unfold Permission.setAgent. simpl term_value.
      destruct (String.eqb_spec a EVERYONE) as [->|_]; [done|].
      rewrite Hgroup, Hm. reflexivity.
    + destruct p as [m ty ag gr inh ml og url vi]; simpl.
      repeat apply conj; try reflexivity.
      intros Ht. unfold Permission.webId, or_else. simpl. simpl in Ht.
      by rewrite Ht.
Qed.

Lemma X5_setAgent_mailto_is_alias_witness :
  let p := Permission.new (Some "https://bob.example.com/docs/file1") false in
  exists p',
    Permission.setAgent (Permission.PTerm (Str "mailto:bob@example.com")) p
    = Ok p'
    /\ Permission.webId p' = None
    /\ Permission.mailTo p' = ["bob@example.com"].
Proof.
  intros p.
  destruct (X5_setAgent_mailto_is_alias "bob@example.com" "x" p eq_refl)
    as [(p' & Hset & Hp' & Hag & Hw & Hh) _].
  exists p'. split; [exact Hset|]. split.
  - rewrite Hw. reflexivity.
  - rewrite Hp'. vm_compute. reflexivity.
Defined.

(* ===================================================================== *)
(** * Members of a [GroupListing] *)
(* ===================================================================== *)

(** X6: after [addMember(a)] the listing has [a]; it has [b] exactly when
    [b] is the key of [a] or was a member before. [count] grows by one when
    [a] is new and stays when it is not, and adding twice is adding once. A
    named node with a value and the string of that value are the same
    member. *)
Theorem X6_addMember_hasMember (a b : Term) (g : GroupListing.t) :
  GroupListing.hasMember a (GroupListing.addMember a g) = true
  /\ GroupListing.hasMember b (GroupListing.addMember a g)
     = bool_decide (GroupListing.member_key b = GroupListing.member_key a)
       || GroupListing.hasMember b g
  /\ GroupListing.count (GroupListing.addMember a g)
     = (if GroupListing.hasMember a g then GroupListing.count g
        else S (GroupListing.count g))
  /\ GroupListing.addMember a (GroupListing.addMember a g)
     = GroupListing.addMember a g
  /\ (forall v, truthy (Some v) = true ->
                GroupListing.addMember (Node v) g
                = GroupListing.addMember (Str v) g).
Proof.
  unfold GroupListing.hasMember, GroupListing.count, GroupListing.addMember.
  destruct g as [u i m l r gr]; simpl.
  repeat apply conj.
  - apply bool_decide_eq_true. set_solver.
  - repeat case_bool_decide; simpl; try reflexivity; set_solver.
  - case_bool_decide as Hin.
    + f_equal. set_solver.
    + rewrite size_union by set_solver. by rewrite size_singleton.
  - f_equal. set_solver.
  - intros v Hv. simpl in Hv. by rewrite Hv.
Qed.

Lemma X6_addMember_hasMember_witness :
  GroupListing.addMember (Node "https://bob.com/#i")
    (GroupListing.new_uri "https://example.com/g" true)
  = GroupListing.addMember (Str "https://bob.com/#i")
      (GroupListing.new_uri "https://example.com/g" true).
Proof.
  apply (X6_addMember_hasMember (Str "x") (Str "y")). reflexivity.
Defined.

Section Listing.
Import GroupListing.

Lemma foldl_addMember (l : list Graph.triple) g :
  foldl (fun acc memberMatch => addMember (Node (Graph.object memberMatch)) acc)
    g l
  = mk (uri g) (uid g)
      (list_to_set ((fun tr => member_key (Node (Graph.object tr))) <$> l)
       ∪ members g)
      (listing g) (rdf g) (graph g).
Proof.
  revert g. induction l as [|tr l IH]; intros g; simpl.
  - rewrite union_empty_l_L. by destruct g.
  - rewrite IH. unfold addMember; simpl. f_equal. set_solver.
Qed.

Lemma elem_of_match_sp gr s p tr :
  tr ∈ Graph.match_sp gr s p
  <-> tr ∈ gr /\ Graph.subject tr = s /\ Graph.predicate tr = p.
Proof.
  unfold Graph.match_sp. rewrite !list_elem_of_In, List.filter_In.
  rewrite andb_true_iff, !String.eqb_eq. reflexivity.
Qed.

(** [initFromGraph] when, after the defaults, it has a group URI, a graph
    and an RDF library. *)
Lemma listing_initFromGraph_run u graph_arg rdf_arg g group gr :
  match u with Some _ => u | None => uri g end = Some group ->
  truthy (Some group) = true ->
  or_own graph_arg (graph g) = Some gr ->
  or_own rdf_arg (rdf g) = true ->
  initFromGraph u graph_arg rdf_arg g
  = Ok (mk (uri g) (Graph.anyValue gr group Graph.vcard_hasUID)
          (list_to_set
             ((fun tr => member_key (Node (Graph.object tr)))
                <$> Graph.match_sp gr group Graph.vcard_hasMember)
           ∪ members g)
          (listing g) (rdf g) (graph g)).
Proof.
  intros Hu Ht Hg Hr. unfold initFromGraph. rewrite Hu, Hg, Hr, Ht. simpl.
  by rewrite foldl_addMember.
Qed.

Lemma listing_initFromGraph_members group gr g k :
  k ∈ list_to_set
        ((fun tr => member_key (Node (Graph.object tr)))
           <$> Graph.match_sp gr group Graph.vcard_hasMember)
      ∪ members g
  <-> k ∈ members g
      \/ exists tr, tr ∈ gr /\ Graph.subject tr = group
                    /\ Graph.predicate tr = Graph.vcard_hasMember
                    /\ member_key (Node (Graph.object tr)) = k.
Proof.
  rewrite elem_of_union, elem_of_list_to_set, list_elem_of_fmap.
  split.
  - intros [(tr & -> & Htr)|Hk]; [right|by left].
    apply elem_of_match_sp in Htr as (? & ? & ?). eauto.
  - intros [Hk|(tr & ? & ? & ? & <-)]; [by right|left].
    exists tr. split; [done|]. by apply elem_of_match_sp.
Qed.

(** [loadFrom] when the fetcher delivers a graph. *)
Lemma loadFrom_run u fetch gr :
  truthy (Some u) = true -> fetch u = Resolved (Some gr) ->
  exists g,
    loadFrom u fetch true = Resolved (Some g)
    /\ uri g = Some u
    /\ forall agentId,
         hasMember (Str agentId) g = true <->
         exists tr, tr ∈ gr /\ Graph.subject tr = u
                    /\ Graph.predicate tr = Graph.vcard_hasMember
                    /\ member_key (Node (Graph.object tr)) = agentId.
Proof.
  intros Hu Hfetch. unfold loadFrom. rewrite Hfetch. simpl then_.
  rewrite (listing_initFromGraph_run (Some u) (Some (Some gr)) None
             (new_uri u true) u gr eq_refl Hu eq_refl eq_refl).
  simpl.
  eexists. split; [reflexivity|]. split; [reflexivity|].
  intros agentId. unfold hasMember. rewrite bool_decide_eq_true.
  pose proof (listing_initFromGraph_members u gr (new_uri u true)
                (member_key (Str agentId))) as H.
  simpl in H |- *. rewrite H. set_solver.
Qed.

End Listing.

(** X7: [GroupListing.initFromGraph] takes the URI, the graph and the RDF
    library of the listing for the arguments that are omitted. It returns
    exactly when, with these defaults, the group URI is not empty and the
    graph and the library are there. It then changes the UID, read from the
    graph, and the members, which are the former ones and the objects of
    the [vcard:hasMember] statements about the group, and nothing else.
    Otherwise it throws: for the URI first, then for the graph or the
    library. *)
Theorem X7_listing_initFromGraph_members (u : option string)
    (graph_arg : option (option Graph.t)) (rdf_arg : option bool)
    (g : GroupListing.t) :
  let uri' := match u with Some _ => u | None => GroupListing.uri g end in
  let graph' := GroupListing.or_own graph_arg (GroupListing.graph g) in
  let rdf' := GroupListing.or_own rdf_arg (GroupListing.rdf g) in
  match GroupListing.initFromGraph u graph_arg rdf_arg g with
  | Ok g' =>
      exists group gr,
        uri' = Some group /\ truthy uri' = true /\ graph' = Some gr
        /\ rdf' = true
        /\ GroupListing.uri g' = GroupListing.uri g
        /\ GroupListing.listing g' = GroupListing.listing g
        /\ GroupListing.rdf g' = GroupListing.rdf g
        /\ GroupListing.graph g' = GroupListing.graph g
        /\ GroupListing.uid g' = Graph.anyValue gr group Graph.vcard_hasUID
        /\ forall k,
             k ∈ GroupListing.members g' <->
             k ∈ GroupListing.members g
             \/ exists tr, tr ∈ gr /\ Graph.subject tr = group
                           /\ Graph.predicate tr = Graph.vcard_hasMember
                           /\ GroupListing.member_key (Node (Graph.object tr))
                              = k
  | Throw msg =>
      (truthy uri' = false /\ msg = "Group URI required to init from graph")
      \/ (truthy uri' = true /\ (graph' = None \/ rdf' = false)
          /\ msg = "initFromGraph() - graph or rdf library missing")
  | NoFuel => False
  end.
Proof.
  intros uri' graph' rdf'.
  destruct (truthy uri') eqn:Hu.
  - destruct graph' as [gr|] eqn:Hg; [destruct rdf' eqn:Hr|].
    + destruct uri' as [group|] eqn:Hu'; [|discriminate Hu].
      rewrite (listing_initFromGraph_run u graph_arg rdf_arg g group gr
                 Hu' Hu Hg Hr).
      exists group, gr. simpl. repeat apply conj; try reflexivity.
      intros k. apply listing_initFromGraph_members.
    + unfold GroupListing.initFromGraph. fold uri' graph' rdf'.
      rewrite Hu, Hg, Hr. simpl. right. auto.
    + unfold GroupListing.initFromGraph. fold uri' graph' rdf'.
      rewrite Hu, Hg. simpl. right. auto.
  - unfold GroupListing.initFromGraph. fold uri'. rewrite Hu. simpl. by left.
Qed.

(** An omitted URI is the URI of the listing, and a listing made with a
    graph reads that graph when none is passed. *)
Lemma X7_listing_initFromGraph_members_witness :
  let accounting := "https://alice.example.com/work-groups#Accounting" in
  let bob := "https://bob.example.com/profile/card#me" in
  let gr := [Graph.mkTriple accounting Graph.vcard_hasMember bob] in
  let g := GroupListing.mk (Some accounting) None ∅ None true (Some gr) in
  exists g',
    GroupListing.initFromGraph None None None g = Ok g'
    /\ GroupListing.hasMember (Str bob) g' = true
    /\ GroupListing.initFromGraph None (Some None) None g
       = Throw "initFromGraph() - graph or rdf library missing".
Proof.
  intros accounting bob gr g.
  pose proof (X7_listing_initFromGraph_members None None None g) as H.
  cbv zeta in H.
  destruct (GroupListing.initFromGraph None None None g) as [g'|msg|] eqn:E.
  - exists g'. split; [reflexivity|]. split; [|vm_compute; reflexivity].
    destruct H as (group & gr0 & Hu & _ & Hg & _ & _ & _ & _ & _ & _ & Hm).
    simpl in Hu, Hg. injection Hu as <-. injection Hg as <-.
    apply bool_decide_eq_true, Hm. right.
    exists (Graph.mkTriple accounting Graph.vcard_hasMember bob).
    split; [apply list_elem_of_singleton; reflexivity|]. repeat split.
  - vm_compute in E. discriminate E.
  - destruct H.
Defined.

(** X8: when [fetchGraph] delivers a graph for the group URI,
    [GroupListing.loadFrom] with the RDF library resolves to a listing of
    that URI whose members are the objects of the [vcard:hasMember]
    statements about the group; in particular an agent with a non-empty id
    stated as a member is one. Without the RDF library the promise
    resolves to [null]. *)
Theorem X8_loadFrom_listing (u : string) (fetch : GroupListing.fetcher)
    (gr : Graph.t)
    (Hu : truthy (Some u) = true)
    (Hfetch : fetch u = Resolved (Some gr)) :
  (exists g,
     GroupListing.loadFrom u fetch true = Resolved (Some g)
     /\ GroupListing.uri g = Some u
     /\ (forall agentId,
           GroupListing.hasMember (Str agentId) g = true <->
           exists tr, tr ∈ gr /\ Graph.subject tr = u
                      /\ Graph.predicate tr = Graph.vcard_hasMember
                      /\ GroupListing.member_key (Node (Graph.object tr))
                         = agentId)
     /\ (forall agentId,
           truthy (Some agentId) = true ->
           Graph.mkTriple u Graph.vcard_hasMember agentId ∈ gr ->
           GroupListing.hasMember (Str agentId) g = true))
  /\ GroupListing.loadFrom u fetch false = Resolved None.
Proof.
  split.
  - destruct (loadFrom_run u fetch gr Hu Hfetch) as (g & Hload & Huri & Hmem).
    exists g. repeat apply conj; [exact Hload|exact Huri|exact Hmem|].
    intros agentId Ha Hin. apply Hmem. eexists. split; [exact Hin|]. simpl.
    repeat apply conj; try reflexivity.
    destruct agentId; [discriminate Ha|reflexivity].
  - unfold GroupListing.loadFrom. rewrite Hfetch. simpl.
    unfold GroupListing.initFromGraph.
    cbn [GroupListing.or_own GroupListing.new_uri GroupListing.rdf
         GroupListing.graph].
    rewrite Hu. reflexivity.
Qed.

(* ===================================================================== *)
(** * The URL of the ACL document *)
(* ===================================================================== *)

Section AclUrl.
Import PermissionSet.

Lemma is_suffix_from_refl p : is_suffix_from p p = true.
Proof. destruct p; simpl; by rewrite ?Ascii.eqb_refl, ?String.eqb_refl. Qed.

Lemma endsWith_app s p : endsWith (s +:+ p) p = true.
Proof.
  unfold endsWith. induction s as [|c s IH].
  - change (EmptyString +:+ p) with p. apply is_suffix_from_refl.
  - change (String c s +:+ p) with (String c (s +:+ p)).
    simpl. rewrite IH. apply orb_true_r.
Qed.

Lemma app_length s p :
  String.length (s +:+ p) = String.length s + String.length p.
Proof.
  induction s as [|c s IH]; [reflexivity|].
  change (String c s +:+ p) with (String c (s +:+ p)). simpl. by rewrite IH.
Qed.

Lemma is_suffix_from_split p s :
  is_suffix_from p s = true -> exists r, s = r +:+ p.
Proof.
  induction s as [|c s IH]; simpl.
  - rewrite orb_false_r. intros ->%String.eqb_eq. by exists EmptyString.
  - intros [->%String.eqb_eq|H]%orb_true_iff.
    + by exists EmptyString.
    + destruct (IH H) as [r ->]. by exists (String c r).
Qed.

End AclUrl.

(** X9: the URL that [defaultAclUrlFor] gives is an ACL URL for
    [defaultIsAcl] and starts with the resource URL. The function is
    idempotent; it leaves a URL as it is exactly when [defaultIsAcl]
    accepts it, which is exactly when the URL ends with [.acl]. *)
Theorem X9_defaultAclUrlFor_idempotent (u : string) :
  PermissionSet.defaultIsAcl (PermissionSet.defaultAclUrlFor u) = true
  /\ PermissionSet.defaultAclUrlFor (PermissionSet.defaultAclUrlFor u)
     = PermissionSet.defaultAclUrlFor u
  /\ (PermissionSet.defaultIsAcl u = true <->
      PermissionSet.defaultAclUrlFor u = u)
  /\ (PermissionSet.defaultIsAcl u = true <->
      exists r, u = r +:+ ".acl")
  /\ String.prefix u (PermissionSet.defaultAclUrlFor u) = true.
Proof.
  unfold PermissionSet.defaultAclUrlFor, PermissionSet.defaultIsAcl,
    PermissionSet.DEFAULT_ACL_SUFFIX.
  assert (H1 : forall v, endsWith v ".acl" = true <-> exists r, v = r +:+ ".acl").
  { intros v. split.
    - apply is_suffix_from_split.
    - intros [r ->]. apply endsWith_app. }
  split_and!.
  - destruct (endsWith u ".acl") eqn:E; [exact E|apply endsWith_app].
  - destruct (endsWith u ".acl") eqn:E.
    + by rewrite E.
    + by rewrite endsWith_app.
  - destruct (endsWith u ".acl") eqn:E.
    + split; reflexivity.
    + split; [intros H; discriminate H|].
      intros Heq. apply (f_equal String.length) in Heq.
      rewrite app_length in Heq. simpl in Heq. lia.
  - apply H1.
  - destruct (endsWith u ".acl").
    + apply prefix_refl.
    + clear. induction u as [|c u IH]; [reflexivity|].
      change (String c u +:+ ".acl") with (String c (u +:+ ".acl")). simpl.
      destruct (Ascii.ascii_dec c c); [exact IH|done].
Qed.

(* ===================================================================== *)
(** * What adding a permission changes *)
(* ===================================================================== *)

Section Inversion.

Import PermissionSet.

Lemma bind_inv {A B} (m : M A) (k : A -> M B) w b w' :
  bind m k w = (Ok b, w') ->
  exists a w1, m w = (Ok a, w1) /\ k a w1 = (Ok b, w').
Proof. unfold bind. destruct (m w) as [[a| |] w1]; [eauto|done|done]. Qed.

Lemma deref_inv l w p w' :
  deref l w = (Ok p, w') -> w' = w /\ heap w !! l = Some p.
Proof. unfold deref. destruct (heap w !! l); [|done]. by intros [= -> ->]. Qed.

Lemma update_inv l f w u w' :
  update l f w = (Ok u, w') ->
  exists p, heap w !! l = Some p
            /\ w' = mkWorld (<[l := f p]> (heap w)) (this w).
Proof.
  unfold update. intros (p & w1 & [-> Hp]%deref_inv & [= <-])%bind_inv. eauto.
Qed.

Lemma update_or_throw_inv l f w u w' :
  update_or_throw l f w = (Ok u, w') ->
  exists p p', heap w !! l = Some p /\ f p = Ok p'
               /\ w' = mkWorld (<[l := p']> (heap w)) (this w).
Proof.
  unfold update_or_throw.
  intros (p & w1 & [-> Hp]%deref_inv & H)%bind_inv.
  apply bind_inv in H as (p' & w2 & H1 & [= <-]).
  unfold lift in H1. injection H1 as H1 <-. eauto.
Qed.

Lemma Permission_mergeWith_inv auth p p' :
  Permission.mergeWith auth p = Ok p' ->
  p' = Permission.set_accessModes
         (Permission.accessModes auth ∪ Permission.accessModes p) p.
Proof.
  unfold Permission.mergeWith.
  destruct (Permission.hashFragment p) as [h| |]; [|done|done].
  destruct (Permission.hashFragment auth) as [h'| |]; [|done|done].
  destruct (String.eqb h h'); [|done].
  rewrite foldl_addMode, list_to_set_elements_L. by intros [= <-].
Qed.

Lemma mergeWith_inv target auth w u w' :
  mergeWith target auth w = (Ok u, w') ->
  exists pt pa,
    heap w !! target = Some pt /\ heap w !! auth = Some pa
    /\ w' = mkWorld
              (<[target := Permission.set_accessModes
                             (Permission.accessModes pa
                              ∪ Permission.accessModes pt) pt]> (heap w))
              (this w).
Proof.
  unfold mergeWith. intros (pa & w1 & [-> Hpa]%deref_inv & H)%bind_inv.
  apply update_or_throw_inv in H as (pt & p' & Hpt & Hm & ->).
  apply Permission_mergeWith_inv in Hm as ->. eauto.
Qed.

End Inversion.

Section Tracking.
Import PermissionSet.

Lemma akin_refl p : akin p p.
Proof. by unfold akin. Qed.

Lemma akin_same_identity pa p p' :
  akin pa p -> same_identity p p' -> akin pa p'.
Proof.
  intros (H1 & H2 & H3 & H4) Hid.
  destruct (same_identity_fields _ _ Hid) as (E1 & E2 & _ & _ & E5 & E6 & _).
  unfold akin. by rewrite E1, E2, E5, E6.
Qed.

Lemma akin_trans p1 p2 p3 : akin p1 p2 -> akin p2 p3 -> akin p1 p3.
Proof.
  intros (H1 & H2 & H3 & H4) (E1 & E2 & E3 & E4). unfold akin.
  by rewrite E1, E2, E3, E4.
Qed.

Lemma akin_group_kind pa p :
  akin pa p ->
  Permission.isPublic p || Permission.isGroup p
  = Permission.isPublic pa || Permission.isGroup pa.
Proof.
  intros (_ & _ & _ & Hg). unfold Permission.isPublic, Permission.isGroup.
  by rewrite Hg.
Qed.

Lemma heap_grows_trans hp1 hp2 hp3 :
  heap_grows hp1 hp2 -> heap_grows hp2 hp3 -> heap_grows hp1 hp3.
Proof.
  intros H12 H23 l p Hp.
  destruct (H12 l p Hp) as (p2 & Hp2 & Hid2 & Hsub2).
  destruct (H23 l p2 Hp2) as (p3 & Hp3 & Hid3 & Hsub3).
  exists p3. split; [done|]. split; [by eapply same_identity_trans|set_solver].
Qed.

Lemma heap_grows_None hp hp' l :
  heap_grows hp hp' -> hp' !! l = None -> hp !! l = None.
Proof.
  intros H Hl. destruct (hp !! l) as [p|] eqn:E; [|done].
  destruct (H l p E) as (p' & Hp' & _). congruence.
Qed.

Lemma tracks_refl N pa w : tracks N pa w w.
Proof.
  split; try done.
  - apply heap_grows_refl.
  - intros l p' H1 H2. congruence.
  - intros. by left.
  - intros. by left.
  - set_solver.
Qed.

Lemma tracks_trans (N1 N2 N : nat -> Prop) pa w w1 w2 :
  (forall l, N1 l -> N l) -> (forall l, N2 l -> N l) ->
  tracks N1 pa w w1 -> tracks N2 pa w1 w2 -> tracks N pa w w2.
Proof.
  intros HN1 HN2 [A1 A2 A3 A4 A5 A6 A7 A7' A8 A9]
    [B1 B2 B3 B4 B5 B6 B7 B7' B8 B9].
  split.
  - by eapply heap_grows_trans.
  - intros l p' Hl Hp'. destruct (heap w1 !! l) as [p1|] eqn:E.
    + destruct (B1 l p1 E) as (p2 & Hp2 & Hid & _).
      assert (p2 = p') by congruence. subst p2.
      eapply akin_same_identity; [|exact Hid]. by eapply A2.
    + by eapply B2.
  - auto.
  - intros h l Hl. destruct (B4 h l Hl) as [H|H]; [|auto].
    destruct (A4 h l H) as [H'|H']; auto.
  - auto.
  - intros i k ty u l Hl. destruct (B6 i k ty u l Hl) as [H|(H & ? & ?)];
      [|right; auto].
    destruct (A6 i k ty u l H) as [H'|(H' & ? & ?)]; auto.
  - set_solver.
  - set_solver.
  - congruence.
  - congruence.
Qed.

Lemma tracks_weaken (N N' : nat -> Prop) pa w w' :
  (forall l, N l -> N' l) -> tracks N pa w w' -> tracks N' pa w w'.
Proof.
  intros HN H. eapply (tracks_trans N N N' pa w w w'); [done|done| |done].
  apply tracks_refl.
Qed.

Lemma tracks_akin N pa pc w w' :
  akin pa pc -> tracks N pc w w' -> tracks N pa w w'.
Proof.
  intros Hak [B1 B2 B3 B4 B5 B6 B7 B7' B8 B9].
  pose proof (akin_group_kind _ _ Hak) as Hkind.
  destruct Hak as (E1 & E2 & E3 & E4).
  split; try done.
  - intros l p' Hl Hp'. eapply akin_trans; [|by eapply B2]. by unfold akin.
  - intros i k ty u l Hl. rewrite <- E1, <- E2. by apply B6.
  - rewrite <- Hkind, <- E1. exact B7.
Qed.

(** A merge into the object at [e]. *)
Lemma tracks_merge N pa w e pe m :
  heap w !! e = Some pe -> Permission.accessModes pe ⊆ m ->
  tracks N pa w
    (mkWorld (<[e := Permission.set_accessModes m pe]> (heap w)) (this w)).
Proof.
  intros He Hm. split; simpl; try done.
  - by apply heap_grows_update.
  - intros l p' Hl Hp'. destruct (decide (l = e)) as [->|Hne]; [congruence|].
    rewrite lookup_insert_ne in Hp' by done. congruence.
  - intros. by left.
  - intros. by left.
  - set_solver.
Qed.

(** A new object. *)
Lemma tracks_alloc N pa w c pc :
  heap w !! c = None -> akin pa pc ->
  tracks N pa w (mkWorld (<[c := pc]> (heap w)) (this w)).
Proof.
  intros Hc Hak. split; simpl; try done.
  - by apply heap_grows_alloc.
  - intros l p' Hl Hp'. destruct (decide (l = c)) as [->|Hne].
    + rewrite lookup_insert_eq in Hp'. by injection Hp' as <-.
    + rewrite lookup_insert_ne in Hp' by done. congruence.
  - intros. by left.
  - intros. by left.
  - set_solver.
Qed.

Lemma collect_tracks a w w' pa h :
  heap w !! a = Some pa ->
  (match authorizations (this w) !! h with
   | Some existing => mergeWith existing a
   | None =>
       modify_this
         (fun s => set_authorizations (<[h := a]> (authorizations s)) s)
   end) w = (Ok tt, w') ->
  tracks (fun l => l = a) pa w w'
  /\ heap w' !! a = Some pa
  /\ dom (heap w') = dom (heap w)
  /\ (authorizations (this w) !! h = None ->
      w' = mkWorld (heap w)
             (set_authorizations (<[h := a]> (authorizations (this w)))
                (this w)))
  /\ exists l q, authorizations (this w') !! h = Some l
                 /\ heap w' !! l = Some q
                 /\ Permission.accessModes pa ⊆ Permission.accessModes q.
Proof.
  intros Ha. destruct (authorizations (this w) !! h) as [e|] eqn:He.
  - intros (pe & pa' & Hpe & Hpa' & ->)%mergeWith_inv.
    assert (pa' = pa) by congruence. subst pa'.
    split; [apply tracks_merge; [done|set_solver]|].
    split; [by apply merge_keeps_source|].
    split.
    { simpl. rewrite dom_insert_L.
      assert (e ∈ dom (heap w)) by (apply elem_of_dom; eauto). set_solver. }
    split; [done|].
    exists e. eexists. simpl. rewrite lookup_insert_eq.
    split; [done|]. split; [done|]. simpl. set_solver.
  - unfold modify_this. intros [= <-].
    split.
    { split; simpl.
      - apply heap_grows_refl.
      - intros l p' H1 H2. congruence.
      - intros h' l Hl. destruct (decide (h' = h)) as [->|Hne]; [congruence|].
        by rewrite lookup_insert_ne.
      - intros h' l Hl. destruct (decide (h' = h)) as [->|Hne].
        + rewrite lookup_insert_eq in Hl. injection Hl as <-. by right.
        + rewrite lookup_insert_ne in Hl by done. by left.
      - intros i k ty u l Hl. by destruct i.
      - intros i k ty u l Hl. left. by destruct i.
      - set_solver.
      - set_solver.
      - done.
      - done. }
    split; [done|]. split; [done|]. split; [done|].
    exists a, pa. simpl. by rewrite lookup_insert_eq.
Qed.

Lemma authsBy_groups_set_authsBy i x s :
  authsBy_groups (set_authsBy i x s)
  = match i with AGENT_INDEX => authsBy_groups s | GROUP_INDEX => x end.
Proof. by destruct i. Qed.

Lemma groups_set_authsBy i x s : groups (set_authsBy i x s) = groups s.
Proof. by destruct i. Qed.

Lemma addToIndex_tracks i a w w' pa r :
  heap w !! a = Some pa -> Permission.resourceUrl pa = Some r ->
  (i = GROUP_INDEX ->
   Permission.isPublic pa || Permission.isGroup pa = true) ->
  addToIndex i a w = (Ok tt, w') ->
  tracks (fun l => l = a) pa w w'
  /\ heap w' !! a = Some pa
  /\ dom (heap w') = dom (heap w)
  /\ authorizations (this w') = authorizations (this w)
  /\ exists l q,
       lookup3 (authsBy (this w') i) (string_of_null (Permission.webId pa))
         (Permission.accessType pa) r = Some l
       /\ heap w' !! l = Some q
       /\ Permission.accessModes pa ⊆ Permission.accessModes q
       /\ (lookup3 (authsBy (this w) i)
             (string_of_null (Permission.webId pa))
             (Permission.accessType pa) r = Some l
           \/ l = a).
Proof.
  intros Ha Hr Hkind. unfold addToIndex.
  rewrite (bind_Ok _ _ _ _ _ (deref_Some _ _ _ Ha)).
  rewrite (bind_Ok _ _ w (this w) w) by done.
  rewrite Hr. simpl.
  set (webId := string_of_null (Permission.webId pa)).
  set (ty := Permission.accessType pa).
  assert (Hlk : default ∅ (default ∅ (authsBy (this w) i !! webId) !! ty) !! r
                = lookup3 (authsBy (this w) i) webId ty r)
    by (by rewrite lookup3_default).
  assert (Hdom : forall x : gmap AccessType (gmap string nat),
             dom (authsBy_groups
                    (set_authsBy i (<[webId := x]> (authsBy (this w) i))
                       (this w)))
             ⊆ dom (authsBy_groups (this w))
               ∪ (if Permission.isPublic pa || Permission.isGroup pa
                  then {[ webId ]} else ∅)).
  { intros x. rewrite authsBy_groups_set_authsBy. destruct i; [set_solver|].
    rewrite Hkind by done. simpl. rewrite dom_insert_L. set_solver. }
  assert (Hdom' : forall x : gmap AccessType (gmap string nat),
             dom (authsBy_groups (this w))
             ⊆ dom (authsBy_groups
                      (set_authsBy i (<[webId := x]> (authsBy (this w) i))
                         (this w)))).
  { intros x. rewrite authsBy_groups_set_authsBy. destruct i; [set_solver|].
    simpl. rewrite dom_insert_L. set_solver. }
  destruct (default ∅ (default ∅ (authsBy (this w) i !! webId) !! ty) !! r)
    as [e|] eqn:He.
  - match goal with
    | |- context [modify_this (set_authsBy i ?x)] =>
        set (s1 := set_authsBy i x (this w))
    end.
    rewrite (bind_Ok _ _ w tt (mkWorld (heap w) s1)) by done.
    intros (pe & pa' & Hpe & Hpa' & ->)%mergeWith_inv. simpl in *.
    assert (pa' = pa) by congruence. subst pa'.
    assert (Hsame : forall j webId' ty' u',
               lookup3 (authsBy s1 j) webId' ty' u'
               = lookup3 (authsBy (this w) j) webId' ty' u')
      by (intros; apply lookup3_create).
    split.
    { split; simpl.
      - apply heap_grows_update; [done|set_solver].
      - intros l p' Hl Hp'. destruct (decide (l = e)) as [->|Hne];
          [congruence|].
        rewrite lookup_insert_ne in Hp' by done. congruence.
      - intros h l Hl. unfold s1. by rewrite authorizations_set_authsBy.
      - intros h l Hl. left. unfold s1 in Hl.
        by rewrite authorizations_set_authsBy in Hl.
      - intros j k ty' u l Hl. by rewrite Hsame.
      - intros j k ty' u l Hl. left. by rewrite Hsame in Hl.
      - apply Hdom.
      - apply Hdom'.
      - apply settings_set_authsBy.
      - apply groups_set_authsBy. }
    split; [by apply merge_keeps_source|].
    split.
    { rewrite dom_insert_L.
      assert (e ∈ dom (heap w)) by (apply elem_of_dom; eauto). set_solver. }
    split; [apply authorizations_set_authsBy|].
    exists e. eexists. rewrite Hsame, <- Hlk.
    split; [done|]. rewrite lookup_insert_eq. split; [done|].
    split; [simpl; set_solver|by left].
  - match goal with
    | |- context [modify_this (set_authsBy i ?x)] =>
        set (s1 := set_authsBy i x (this w))
    end.
    unfold modify_this. intros [= <-]. simpl.
    assert (Hnew : forall j webId' ty' u',
               lookup3 (authsBy s1 j) webId' ty' u'
               = if decide (j = i /\ webId' = webId /\ ty' = ty /\ u' = r)
                 then Some a
                 else lookup3 (authsBy (this w) j) webId' ty' u')
      by (intros; apply lookup3_set).
    split.
    { split; simpl.
      - apply heap_grows_refl.
      - intros l p' H1 H2. congruence.
      - intros h l Hl. unfold s1. by rewrite authorizations_set_authsBy.
      - intros h l Hl. left. unfold s1 in Hl.
        by rewrite authorizations_set_authsBy in Hl.
      - intros j k ty' u l Hl. rewrite Hnew. case_decide as Hk; [|done].
        destruct Hk as (-> & -> & -> & ->). congruence.
      - intros j k ty' u l Hl. rewrite Hnew in Hl.
        case_decide as Hk; [|by left].
        destruct Hk as (-> & -> & -> & ->). injection Hl as <-. by right.
      - apply Hdom.
      - apply Hdom'.
      - apply settings_set_authsBy.
      - apply groups_set_authsBy. }
    split; [done|]. split; [done|].
    split; [apply authorizations_set_authsBy|].
    exists a, pa. rewrite Hnew, decide_True by done.
    split; [done|]. split; [done|]. split; [done|by right].
Qed.

End Tracking.

Section TrackingAdd.
Import PermissionSet.

Lemma tracks_object N pa w w' l q (m : gset string) :
  tracks N pa w w' -> heap w !! l = Some q -> m ⊆ Permission.accessModes q ->
  exists q', heap w' !! l = Some q' /\ same_identity q q'
             /\ m ⊆ Permission.accessModes q'.
Proof.
  intros H Hq Hm. destruct (tr_heap_old _ _ _ _ H l q Hq) as (q' & ? & ? & ?).
  exists q'. split; [done|]. split; [done|set_solver].
Qed.

Lemma tracks_entry N pa w w' i k ty u l q (m : gset string) :
  tracks N pa w w' ->
  lookup3 (authsBy (this w) i) k ty u = Some l ->
  heap w !! l = Some q -> m ⊆ Permission.accessModes q ->
  exists q', lookup3 (authsBy (this w') i) k ty u = Some l
             /\ heap w' !! l = Some q' /\ same_identity q q'
             /\ m ⊆ Permission.accessModes q'.
Proof.
  intros H Hl Hq Hm.
  destruct (tracks_object _ _ _ _ _ _ _ H Hq Hm) as (q' & ? & ? & ?).
  exists q'. split; [by eapply tr_index_keep|done].
Qed.

Lemma implied_akin s pa r : akin pa (implied_permission s pa r).
Proof.
  destruct (implied_permission_fields s pa r) as (H1 & H2 & _ & _ & H5 & _).
  unfold akin. split; [done|]. split; [done|]. split; [done|].
  by destruct pa.
Qed.

(** [addControlPermissionsFor], inverted. *)
Lemma addControl_inv self a w w' pa r :
  heap w !! a = Some pa -> Permission.resourceUrl pa = Some r ->
  addControlPermissionsFor self a w = (Ok tt, w') ->
  let c := fresh (dom (heap w)) in
  heap w !! c = None
  /\ self c (mkWorld (<[c := implied_permission (this w) pa r]> (heap w))
               (this w)) = (Ok tt, w').
Proof.
  intros Ha Hr. unfold addControlPermissionsFor.
  rewrite (bind_Ok _ _ _ _ _ (deref_Some _ _ _ Ha)).
  rewrite (bind_Ok _ _ w (this w) w) by done.
  rewrite (bind_Ok _ _ w (fresh (dom (heap w)))
             (mkWorld (<[fresh (dom (heap w)) := pa]> (heap w)) (this w)))
    by done.
  rewrite Hr.
  erewrite bind_Ok; [|apply update_run; apply lookup_insert_eq].
  erewrite bind_Ok; [|apply update_run; apply lookup_insert_eq].
  erewrite bind_Ok; [|apply update_run; apply lookup_insert_eq].
  simpl. rewrite !insert_insert_eq. intros H. split; [|exact H].
  apply not_elem_of_dom, is_fresh.
Qed.

(** What a call of [addAuthorization] that returns has done. *)
Lemma addAuthorization_tracks n :
  forall a w w' pa r,
    addAuthorization_fuel n a w = (Ok tt, w') ->
    heap w !! a = Some pa -> Permission.resourceUrl pa = Some r ->
    exists h,
      Permission.hashFragment pa = Ok h
      /\ tracks (fun l => l = a \/ heap w !! l = None) pa w w'
      /\ (exists l q,
            authorizations (this w') !! h = Some l
            /\ heap w' !! l = Some q
            /\ Permission.accessModes pa ⊆ Permission.accessModes q)
      /\ (exists l q,
            lookup3 (authsBy_agents (this w'))
              (string_of_null (Permission.webId pa))
              (Permission.accessType pa) r = Some l
            /\ heap w' !! l = Some q
            /\ Permission.accessModes pa ⊆ Permission.accessModes q
            /\ (lookup3 (authsBy_agents (this w))
                  (string_of_null (Permission.webId pa))
                  (Permission.accessType pa) r = Some l
                \/ akin pa q))
      /\ (Permission.isPublic pa || Permission.isGroup pa = true ->
          exists l q,
            lookup3 (authsBy_groups (this w'))
              (string_of_null (Permission.webId pa))
              (Permission.accessType pa) r = Some l
            /\ heap w' !! l = Some q
            /\ Permission.accessModes pa ⊆ Permission.accessModes q)
      /\ (negb (Permission.virtual pa) && Permission.allowsControl pa = false ->
          dom (heap w') = dom (heap w)
          /\ heap w' !! a = Some pa
          /\ (authorizations (this w) !! h = None ->
              authorizations (this w') = <[h := a]> (authorizations (this w)))).
Proof.
  induction n as [|n IH]; intros a w w' pa r Hrun Ha Hr; [done|].
  simpl in Hrun. unfold addAuthorization_body in Hrun.
  rewrite (bind_Ok _ _ _ _ _ (deref_Some _ _ _ Ha)) in Hrun.
  apply bind_inv in Hrun as (h & w0 & Hh & Hrun).
  unfold lift in Hh. injection Hh as Hh <-.
  rewrite (bind_Ok _ _ w (this w) w) in Hrun by done.
  apply bind_inv in Hrun as ([] & w1 & Hrun1 & Hrun).
  destruct (collect_tracks a w w1 pa h Ha Hrun1)
    as (Ht1 & Ha1 & Hdom1 & Hexact1 & e1 & q1 & He1 & Hq1 & Hsub1).
  rewrite (bind_Ok _ _ _ _ _ (deref_Some _ _ _ Ha1)) in Hrun.
  apply bind_inv in Hrun as ([] & w4 & Hrun4 & Hrun).
  (* the Control step *)
  assert (Ht4 : tracks (fun l => l = a \/ heap w !! l = None) pa w1 w4
                /\ (negb (Permission.virtual pa)
                    && Permission.allowsControl pa = false -> w4 = w1)).
  { destruct (negb (Permission.virtual pa) && Permission.allowsControl pa).
    - destruct (addControl_inv _ a w1 w4 pa r Ha1 Hr Hrun4) as (Hc & Hself).
      set (c := fresh (dom (heap w1))) in *.
      set (pc := implied_permission (this w1) pa r) in *.
      set (w3 := mkWorld (<[c := pc]> (heap w1)) (this w1)) in *.
      assert (Hpc : heap w3 !! c = Some pc) by apply lookup_insert_eq.
      destruct (implied_permission_fields (this w1) pa r)
        as (_ & _ & Hc3 & _).
      destruct (IH c w3 w4 pc _ Hself Hpc Hc3) as (hc & _ & Htc & _).
      split; [|done].
      apply (tracks_trans (fun _ => False)
               (fun l => l = c \/ heap w3 !! l = None) _ pa w1 w3 w4).
      + done.
      + intros l [->|Hl]; right.
        * apply not_elem_of_dom. rewrite <- Hdom1. by apply not_elem_of_dom.
        * apply not_elem_of_dom. rewrite <- Hdom1. apply not_elem_of_dom.
          unfold w3 in Hl. simpl in Hl.
          destruct (decide (l = c)) as [->|Hne]; [done|].
          by rewrite lookup_insert_ne in Hl.
      + apply tracks_alloc; [done|apply implied_akin].
      + eapply tracks_akin; [apply implied_akin|exact Htc].
    - unfold ret in Hrun4. injection Hrun4 as <-. split; [|done].
      apply tracks_refl. }
  destruct Ht4 as (Ht4 & Hplain4).
  assert (Ht04 : tracks (fun l => l = a \/ heap w !! l = None) pa w w4).
  { eapply (tracks_trans _ _ _ pa w w1 w4); [| |exact Ht1|exact Ht4]; auto. }
  destruct (tracks_object _ _ _ _ a pa (Permission.accessModes pa) Ht04 Ha)
    as (pa4 & Ha4 & Hid4 & Hsub4); [done|].
  assert (Hak4 : akin pa pa4)
    by (eapply akin_same_identity; [apply akin_refl|done]).
  destruct (same_identity_fields _ _ Hid4) as (Hw4 & Hty4 & Hr4 & _).
  rewrite Hr in Hr4.
  (* the agent index *)
  apply bind_inv in Hrun as ([] & w5 & Hrun5 & Hrun).
  destruct (addToIndex_tracks AGENT_INDEX a w4 w5 pa4 r Ha4 Hr4)
    as (Ht5 & Ha5 & Hdom5 & Hauth5 & l & q & Hl & Hq & Hsub & Hold);
    [done|exact Hrun5|].
  rewrite Hw4, Hty4 in Hl, Hold.
  assert (Ht45 : tracks (fun l => l = a \/ heap w !! l = None) pa w4 w5).
  { eapply tracks_akin; [exact Hak4|].
    eapply tracks_weaken; [|exact Ht5]. auto. }
  (* the group index *)
  rewrite (bind_Ok _ _ _ _ _ (deref_Some _ _ _ Ha5)) in Hrun.
  pose proof (akin_group_kind _ _ Hak4) as Hkind.
  assert (Ht56 : tracks (fun l => l = a \/ heap w !! l = None) pa w5 w'
                 /\ heap w' !! a = Some pa4
                 /\ dom (heap w') = dom (heap w5)
                 /\ authorizations (this w') = authorizations (this w5)
                 /\ (Permission.isPublic pa || Permission.isGroup pa = true ->
                     exists l q,
                       lookup3 (authsBy_groups (this w'))
                         (string_of_null (Permission.webId pa))
                         (Permission.accessType pa) r = Some l
                       /\ heap w' !! l = Some q
                       /\ Permission.accessModes pa
                          ⊆ Permission.accessModes q)).
  { rewrite Hkind in Hrun.
    destruct (Permission.isPublic pa || Permission.isGroup pa) eqn:Hg.
    - destruct (addToIndex_tracks GROUP_INDEX a w5 w' pa4 r Ha5 Hr4)
        as (Ht6 & Ha6 & Hdom6 & Hauth6 & l6 & q6 & Hl6 & Hq6 & Hsub6 & _);
        [by rewrite Hkind|exact Hrun|].
      rewrite Hw4, Hty4 in Hl6.
      split.
      { eapply tracks_akin; [exact Hak4|].
        eapply tracks_weaken; [|exact Ht6]. auto. }
      split; [done|]. split; [done|]. split; [done|].
      intros _. exists l6, q6. split; [done|]. split; [done|]. set_solver.
    - unfold ret in Hrun. injection Hrun as <-.
      split; [apply tracks_refl|]. split; [done|]. split; [done|].
      split; [done|]. done. }
  destruct Ht56 as (Ht56 & Ha6 & Hdom6 & Hauth6 & Hgroup).
  assert (Ht05 : tracks (fun l => l = a \/ heap w !! l = None) pa w w5).
  { eapply (tracks_trans _ _ _ pa w w4 w5); [| |exact Ht04|exact Ht45]; auto. }
  assert (Ht06 : tracks (fun l => l = a \/ heap w !! l = None) pa w w').
  { eapply (tracks_trans _ _ _ pa w w5 w'); [| |exact Ht05|exact Ht56]; auto. }
  assert (Ht16 : tracks (fun l => l = a \/ heap w !! l = None) pa w1 w').
  { assert (Ht46 : tracks (fun l => l = a \/ heap w !! l = None) pa w4 w').
    { eapply (tracks_trans _ _ _ pa w4 w5 w'); [| |exact Ht45|exact Ht56];
        auto. }
    eapply (tracks_trans _ _ _ pa w1 w4 w'); [| |exact Ht4|exact Ht46]; auto. }
  exists h. split; [done|]. split; [done|].
  split.
  { destruct (tracks_object _ _ _ _ e1 q1 (Permission.accessModes pa)
                Ht16 Hq1 Hsub1) as (q' & Hq' & _ & Hsub').
    exists e1, q'. split; [by eapply tr_auth_keep|done]. }
  split.
  { assert (Hsubq : Permission.accessModes pa ⊆ Permission.accessModes q)
      by set_solver.
    destruct (tracks_entry _ _ _ _ AGENT_INDEX _ _ _ _ _ _ Ht56 Hl Hq Hsubq)
      as (q' & Hl' & Hq' & Hidq & Hsub').
    exists l, q'. split; [done|]. split; [done|]. split; [done|].
    destruct Hold as [Hold| ->].
    - destruct (tr_index_new _ _ _ _ Ht04 AGENT_INDEX _ _ _ _ Hold)
        as [Hw|([->|Hnew] & _)].
      + by left.
      + right. assert (q' = pa4) by congruence. by subst q'.
      + right. by eapply (tr_heap_new _ _ _ _ Ht06).
    - right. assert (q' = pa4) by congruence. by subst q'. }
  split; [exact Hgroup|].
  intros Hplain. specialize (Hplain4 Hplain). subst w4.
  assert (pa4 = pa) by congruence. subst pa4.
  split; [congruence|]. split; [done|].
  intros Hnone. rewrite Hauth6, Hauth5. by rewrite (Hexact1 Hnone).
Qed.

End TrackingAdd.

Section Requested.
Import PermissionSet.

Lemma addPermission_unfold w webId accessMode origin :
  truthy (Some webId) = true -> arg_truthy accessMode = true ->
  truthy (resourceUrl (this w)) = true ->
  addPermission webId accessMode origin w
  = addAuthorization (fresh (dom (heap w)))
      (mkWorld (<[fresh (dom (heap w))
                  := agent_permission (this w) webId accessMode origin]>
                  (heap w)) (this w)).
Proof.
  intros Hid Hmode Hurl. unfold addPermission.
  rewrite (bind_Ok _ _ w (this w) w) by done.
  rewrite Hid, Hmode, Hurl. simpl.
  destruct (alloc_run w (Permission.new (resourceUrl (this w))
                           (isAuthInherited (this w))))
    as [Halloc Hfresh].
  set (l := fresh (dom (heap w))) in *.
  rewrite (bind_Ok _ _ _ _ _ Halloc).
  unfold agent_permission.
  destruct (setAgent_new (resourceUrl (this w)) (isAuthInherited (this w))
              webId) as (p1 & Hp1 & Hu1).
  rewrite Hp1.
  unfold update_or_throw.
  erewrite (bind_Ok (bind (deref l) _));
    [|erewrite bind_Ok; [|apply deref_Some, lookup_insert_eq];
      unfold bind, lift; rewrite Hp1; reflexivity].
  erewrite bind_Ok; [|apply update_run; apply lookup_insert_eq].
  simpl. rewrite !insert_insert_eq.
  destruct origin as [o|].
  - destruct (arg_truthy o).
    + erewrite bind_Ok; [|apply update_run; apply lookup_insert_eq].
      simpl. by rewrite insert_insert_eq.
    + rewrite (bind_Ok _ _ _ tt _) by done. reflexivity.
  - rewrite (bind_Ok _ _ _ tt _) by done. reflexivity.
Qed.

Lemma addGroupPermission_unfold w webId accessMode :
  truthy (resourceUrl (this w)) = true ->
  addGroupPermission webId accessMode w
  = addAuthorization (fresh (dom (heap w)))
      (mkWorld (<[fresh (dom (heap w))
                  := group_permission (this w) webId accessMode]>
                  (heap w)) (this w)).
Proof.
  intros Hurl. unfold addGroupPermission.
  rewrite (bind_Ok _ _ w (this w) w) by done.
  rewrite Hurl. simpl.
  destruct (alloc_run w (Permission.new (resourceUrl (this w))
                           (isAuthInherited (this w))))
    as [Halloc Hfresh].
  set (l := fresh (dom (heap w))) in *.
  rewrite (bind_Ok _ _ _ _ _ Halloc).
  unfold update_or_throw.
  erewrite (bind_Ok (bind (deref l) _));
    [|erewrite bind_Ok; [|apply deref_Some, lookup_insert_eq];
      unfold bind, lift; reflexivity].
  erewrite bind_Ok; [|apply update_run; apply lookup_insert_eq].
  simpl. by rewrite !insert_insert_eq.
Qed.

Lemma addMode_fields a p :
  Permission.addMode a p
  = Permission.set_accessModes (values a ∪ Permission.accessModes p) p.
Proof. apply addMode_modes. Qed.

End Requested.

Section AddFresh.
Import PermissionSet.

Lemma agent_permission_fields s webId accessMode origin :
  truthy (Some webId) = true -> startsWith webId "mailto:" = false ->
  let pa := agent_permission s webId accessMode origin in
  Permission.webId pa = Some webId
  /\ Permission.resourceUrl pa = resourceUrl s
  /\ Permission.accessType pa
     = (if isAuthInherited s then DEFAULT else ACCESS_TO)
  /\ Permission.accessModes pa = values accessMode
  /\ Permission.originsAllowed pa = origin_values origin
  /\ Permission.virtual pa = false
  /\ Permission.group pa
     = (if String.eqb webId EVERYONE then Some EVERYONE else None).
Proof.
  intros Hid Hmail. unfold agent_permission, Permission.setAgent.
  simpl term_value. rewrite Hmail.
  assert (Hw : forall g,
             or_else (Some webId) g = Some webId)
    by (intros g; unfold or_else; by rewrite Hid).
  destruct (String.eqb webId EVERYONE); simpl;
    rewrite addMode_modes;
    (destruct origin as [o|]; [destruct (arg_truthy o) eqn:Ho|]);
    simpl; rewrite ?Ho; simpl; rewrite ?addOrigin_origins; simpl;
    unfold Permission.webId; simpl; rewrite Hw;
    repeat apply conj; try reflexivity; set_solver.
Qed.

Lemma group_permission_fields s webId accessMode :
  let pa := group_permission s webId accessMode in
  Permission.webId pa = Some webId
  /\ Permission.resourceUrl pa = resourceUrl s
  /\ Permission.accessType pa
     = (if isAuthInherited s then DEFAULT else ACCESS_TO)
  /\ Permission.accessModes pa = values accessMode
  /\ Permission.originsAllowed pa = ∅
  /\ Permission.virtual pa = false
  /\ Permission.group pa = Some webId
  /\ Permission.agent pa = None.
Proof.
  unfold group_permission. rewrite addMode_modes. simpl.
  unfold Permission.webId; simpl.
  repeat apply conj; try reflexivity. set_solver.
Qed.

(** Adding a new object [pa]: the call returns, the store stays well
    formed, and the collection and the indexes hold an entry for it. *)
Lemma add_fresh w pa url :
  wf w -> Permission.resourceUrl pa = Some url -> truthy (Some url) = true ->
  truthy (Some (aclUrlFor (this w) url)) = true ->
  let a := fresh (dom (heap w)) in
  exists w' h,
    addAuthorization a (mkWorld (<[a := pa]> (heap w)) (this w)) = (Ok tt, w')
    /\ wf w'
    /\ Permission.hashFragment pa = Ok h
    /\ tracks (fun l => heap w !! l = None) pa w w'
    /\ (exists l q,
          authorizations (this w') !! h = Some l
          /\ heap w' !! l = Some q
          /\ Permission.accessModes pa ⊆ Permission.accessModes q)
    /\ (exists l q,
          lookup3 (authsBy_agents (this w'))
            (string_of_null (Permission.webId pa))
            (Permission.accessType pa) url = Some l
          /\ heap w' !! l = Some q
          /\ Permission.accessModes pa ⊆ Permission.accessModes q
          /\ (lookup3 (authsBy_agents (this w))
                (string_of_null (Permission.webId pa))
                (Permission.accessType pa) url = Some l
              \/ akin pa q))
    /\ (Permission.isPublic pa || Permission.isGroup pa = true ->
        exists l q,
          lookup3 (authsBy_groups (this w'))
            (string_of_null (Permission.webId pa))
            (Permission.accessType pa) url = Some l
          /\ heap w' !! l = Some q
          /\ Permission.accessModes pa ⊆ Permission.accessModes q)
    /\ (negb (Permission.virtual pa) && Permission.allowsControl pa = false ->
        heap w !! a = None
        /\ heap w' !! a = Some pa
        /\ (authorizations (this w) !! h = None ->
            authorizations (this w') = <[h := a]> (authorizations (this w)))).
Proof.
  intros Hwf Hr Ht Hacl a.
  assert (Hfresh : heap w !! a = None) by apply not_elem_of_dom, is_fresh.
  set (w2 := mkWorld (<[a := pa]> (heap w)) (this w)).
  assert (Hwf2 : wf w2) by (by apply wf_alloc).
  assert (Ha2 : heap w2 !! a = Some pa) by apply lookup_insert_eq.
  destruct (addAuthorization_ok a w2 pa url Hwf2 Ha2 Hr Ht Hacl)
    as (w' & Hrun & Hwf' & _).
  destruct (addAuthorization_tracks 2 a w2 w' pa url (Hrun 0) Ha2 Hr)
    as (h & Hh & Htr & Hauth & Hagent & Hgroup & Hplain).
  exists w', h. split; [exact (Hrun 0)|]. split; [done|]. split; [done|].
  split.
  { apply (tracks_trans (fun _ => False)
             (fun l => l = a \/ heap w2 !! l = None) _ pa w w2 w').
    - done.
    - intros l [->|Hl]; [done|]. unfold w2 in Hl. simpl in Hl.
      destruct (decide (l = a)) as [->|Hne]; [done|].
      by rewrite lookup_insert_ne in Hl.
    - apply tracks_alloc; [done|apply akin_refl].
    - exact Htr. }
  split; [done|]. split; [done|]. split; [done|].
  intros Hp. destruct (Hplain Hp) as (_ & Ha' & Hex). done.
Qed.

End AddFresh.

(* ===================================================================== *)
(** * Access after a permission is added *)
(* ===================================================================== *)

Section AccessAfterAdd.

Import PermissionSet.

Lemma allowsMode_mono mode p q :
  Permission.accessModes p ⊆ Permission.accessModes q ->
  Permission.allowsMode mode p = true -> Permission.allowsMode mode q = true.
Proof.
  intros Hsub. unfold Permission.allowsMode, Permission.allowsAppend.
  destruct (String.eqb _ APPEND).
  - rewrite !orb_true_iff, !bool_decide_eq_true. set_solver.
  - rewrite !bool_decide_eq_true. set_solver.
Qed.

Lemma checkAccess_granted w url agentId mode o :
  wf w -> truthy (Some url) = true ->
  publicly_allowed w mode url = true \/ granted w url agentId mode = true ->
  checkAccess url agentId mode o w = (Ok (Resolved true), w).
Proof.
  intros Hwf Hurl H. unfold checkAccess.
  rewrite (bind_Ok _ _ _ _ _ (allowsPublic_run w mode url Hwf Hurl)).
  destruct (publicly_allowed w mode url); [done|].
  rewrite (bind_Ok _ _ _ _ _ (checkAccessForAgent_run w url agentId mode Hwf)).
  destruct H as [H|H]; [done|]. by rewrite H.
Qed.

(** [checkAccess] when [loadGroups] cannot run. *)
Lemma checkAccess_no_loader w url agentId mode o :
  wf w -> truthy (Some url) = true ->
  fetchGraph o = None \/ load_rdf o || rdf (this w) = false ->
  checkAccess url agentId mode o w
  = (Ok (if publicly_allowed w mode url || granted w url agentId mode
         then Resolved true
         else if hasGroups (this w)
         then Rejected
                (match fetchGraph o with
                 | None => "Cannot load groups, fetchGraph() not supplied"
                 | Some _ => "Cannot load groups, rdf library not supplied"
                 end)
         else Resolved false), w).
Proof.
  intros Hwf Hurl Hno. unfold checkAccess.
  rewrite (bind_Ok _ _ _ _ _ (allowsPublic_run w mode url Hwf Hurl)).
  destruct (publicly_allowed w mode url); [done|].
  rewrite (bind_Ok _ _ _ _ _ (checkAccessForAgent_run w url agentId mode Hwf)).
  destruct (granted w url agentId mode); [done|]. simpl.
  rewrite (bind_Ok _ _ w (this w) w) by done.
  destruct (hasGroups (this w)); [|done].
  assert (Hload : loadGroups o w
                  = (Ok (Rejected
                           (match fetchGraph o with
                            | None =>
                                "Cannot load groups, fetchGraph() not supplied"
                            | Some _ =>
                                "Cannot load groups, rdf library not supplied"
                            end)), w)).
  { unfold loadGroups. rewrite (bind_Ok _ _ w (this w) w) by done.
    destruct (fetchGraph o) as [fetch|]; [|done].
    destruct Hno as [Hno|Hno]; [done|]. by rewrite Hno. }
  by rewrite (bind_Ok _ _ _ _ _ Hload).
Qed.

Lemma granted_intro w url k mode l q :
  findAuthByAgent k (Some url) AGENT_INDEX (this w) = Ok (Some l) ->
  heap w !! l = Some q ->
  checkOrigin (this w) q = true -> Permission.allowsMode mode q = true ->
  granted w url k mode = true.
Proof.
  intros Hf Hq Ho Hm. unfold granted. by rewrite Hf, Hq, Ho, Hm.
Qed.

Lemma publicly_allowed_intro w url mode l q :
  findAuthByAgent EVERYONE (Some url) GROUP_INDEX (this w) = Ok (Some l) ->
  heap w !! l = Some q -> Permission.allowsMode mode q = true ->
  publicly_allowed w mode url = true.
Proof.
  intros Hf Hq Hm. unfold publicly_allowed, findPublicAuth.
  by rewrite Hf, Hq, Hm.
Qed.

(** Where an entry filed under the access type of the set is found. *)
Lemma findAuthByAgent_filed k url i s ty l :
  lookup3 (authsBy s i) k ty url = Some l ->
  ty = ACCESS_TO \/ lookup3 (authsBy s i) k ACCESS_TO url = None ->
  findAuthByAgent k (Some url) i s = Ok (Some l).
Proof.
  intros Hl Hty. destruct ty.
  - by apply findAuthByAgent_direct.
  - destruct Hty as [?|Hnone]; [done|].
    by apply findAuthByAgent_inherited_exact.
Qed.

Lemma isAuthInherited_RESOURCE s :
  resourceType s = RESOURCE -> isAuthInherited s = false.
Proof. unfold isAuthInherited. by intros ->. Qed.

(** X10: in a well-formed set whose [aclUrlFor] gives non-empty URLs,
    [addPermission] returns exactly when the web id is not empty, an access
    mode is given and the set has a resource URL. Otherwise it throws and
    changes nothing: for the web id first, then for the access mode, then
    for the resource URL. [addGroupPermission] checks the resource URL
    only. *)
Theorem X10_addPermission_returns_iff (w : world) (webId : string)
    (accessMode : OneOrMany Term) (origin : option (OneOrMany Term))
    (Hwf : wf w)
    (Hacl : forall u, truthy (Some u) = true ->
                      truthy (Some (aclUrlFor (this w) u)) = true) :
  (eval (addPermission webId accessMode origin) w = Ok tt <->
   truthy (Some webId) = true /\ arg_truthy accessMode = true
   /\ truthy (resourceUrl (this w)) = true)
  /\ (truthy (Some webId) = false ->
      run (addPermission webId accessMode origin) w
      = (Throw "addPermission() requires a valid webId", w))
  /\ (truthy (Some webId) = true -> arg_truthy accessMode = false ->
      run (addPermission webId accessMode origin) w
      = (Throw "addPermission() requires a valid accessMode", w))
  /\ (truthy (Some webId) = true -> arg_truthy accessMode = true ->
      truthy (resourceUrl (this w)) = false ->
      run (addPermission webId accessMode origin) w
      = (Throw "Cannot add a permission to a PermissionSet with no resourceUrl",
         w))
  /\ (eval (addGroupPermission webId accessMode) w = Ok tt <->
      truthy (resourceUrl (this w)) = true)
  /\ (truthy (resourceUrl (this w)) = false ->
      run (addGroupPermission webId accessMode) w
      = (Throw "Cannot add a permission to a PermissionSet with no resourceUrl",
         w)).
Proof.
  assert (E1 : truthy (Some webId) = false ->
               run (addPermission webId accessMode origin) w
               = (Throw "addPermission() requires a valid webId", w)).
  { intros H. unfold run, addPermission.
    rewrite (bind_Ok _ _ w (this w) w) by done. by rewrite H. }
  assert (E2 : truthy (Some webId) = true -> arg_truthy accessMode = false ->
               run (addPermission webId accessMode origin) w
               = (Throw "addPermission() requires a valid accessMode", w)).
  { intros H1 H2. unfold run, addPermission.
    rewrite (bind_Ok _ _ w (this w) w) by done. by rewrite H1, H2. }
  assert (E3 : truthy (Some webId) = true -> arg_truthy accessMode = true ->
               truthy (resourceUrl (this w)) = false ->
               run (addPermission webId accessMode origin) w
               = (Throw "Cannot add a permission to a PermissionSet with no resourceUrl",
                  w)).
  { intros H1 H2 H3. unfold run, addPermission.
    rewrite (bind_Ok _ _ w (this w) w) by done. by rewrite H1, H2, H3. }
  assert (E4 : truthy (resourceUrl (this w)) = false ->
               run (addGroupPermission webId accessMode) w
               = (Throw "Cannot add a permission to a PermissionSet with no resourceUrl",
                  w)).
  { intros H. unfold run, addGroupPermission.
    rewrite (bind_Ok _ _ w (this w) w) by done. by rewrite H. }
  split_and!; try done.
  - split.
    + intros Hok. unfold eval in Hok.
      destruct (truthy (Some webId)) eqn:H1;
        [|unfold run in E1; rewrite E1 in Hok by done; discriminate Hok].
      destruct (arg_truthy accessMode) eqn:H2;
        [|unfold run in E2; rewrite E2 in Hok by done; discriminate Hok].
      destruct (truthy (resourceUrl (this w))) eqn:H3;
        [|unfold run in E3; rewrite E3 in Hok by done; discriminate Hok].
      done.
    + intros (H1 & H2 & H3).
      destruct (resourceUrl (this w)) as [url|] eqn:Hurl; [|done].
      destruct (addPermission_ok w webId accessMode origin url Hwf H1 H2 Hurl
                  H3 (Hacl url H3)) as (w' & Hrun & _).
      unfold eval. by rewrite Hrun.
  - split.
    + intros Hok. unfold eval in Hok.
      destruct (truthy (resourceUrl (this w))) eqn:H3; [done|].
      unfold run in E4. rewrite E4 in Hok by done. discriminate Hok.
    + intros H3.
      destruct (resourceUrl (this w)) as [url|] eqn:Hurl; [|done].
      destruct (addGroupPermission_ok w webId accessMode url Hwf Hurl
                  H3 (Hacl url H3)) as (w' & Hrun & _).
      unfold eval. by rewrite Hrun.
Qed.

(** X16: when no [fetchGraph] is passed, or there is no RDF library,
    [checkAccess] does not change the set. It resolves to [true] when the
    public or the agent is allowed the mode; otherwise it is rejected with
    the message of [loadGroups] if the set has group permissions, and
    resolves to [false] if it has none. *)
Theorem X16_checkAccess_without_group_loader (w : world)
    (url agentId mode : string) (o : load_options)
    (Hwf : wf w)
    (Hurl : truthy (Some url) = true)
    (Hloader : fetchGraph o = None \/ load_rdf o || rdf (this w) = false) :
  run (checkAccess url agentId mode o) w
  = (Ok (if publicly_allowed w mode url || granted w url agentId mode
         then Resolved true
         else if hasGroups (this w)
         then Rejected
                (match fetchGraph o with
                 | None => "Cannot load groups, fetchGraph() not supplied"
                 | Some _ => "Cannot load groups, rdf library not supplied"
                 end)
         else Resolved false), w).
Proof. by apply checkAccess_no_loader. Qed.

End AccessAfterAdd.

Section AfterAdd.

Import PermissionSet.

Lemma addMode_new_modes accessMode url inh :
  Permission.accessModes
    (Permission.addMode accessMode (Permission.new url inh))
  = values accessMode.
Proof. rewrite addMode_modes. simpl. set_solver. Qed.

(** No entry of another access type appears when [pa] is added. *)
Lemma tracks_no_direct N pa w w' i k u :
  tracks N pa w w' -> Permission.accessType pa = DEFAULT ->
  lookup3 (authsBy (this w) i) k ACCESS_TO u = None ->
  lookup3 (authsBy (this w') i) k ACCESS_TO u = None.
Proof.
  intros Ht Hty Hnone.
  destruct (lookup3 (authsBy (this w') i) k ACCESS_TO u) as [x|] eqn:E;
    [|done].
  destruct (tr_index_new _ _ _ _ Ht i _ _ _ _ E) as [H|(_ & _ & H)];
    congruence.
Qed.

Lemma wf_set_origin_context w strict o h :
  wf w -> wf (mkWorld (heap w) (set_origin_context strict o h (this w))).
Proof.
  intros [H1 H2]. split; simpl.
  - exact H1.
  - intros i webId ty u l Hl.
    assert (Hl' : lookup3 (authsBy (this w) i) webId ty u = Some l)
      by (by destruct i).
    apply H2 in Hl'. exact Hl'.
Qed.

(** X11: after [addPermission(webId, accessMode, origin)] on a set with a
    resource URL, [checkAccess] of that URL for [webId] resolves to [true]
    for every mode that [accessMode] allows, with any group loader and
    without a change of the set. It is required that a container set has
    no direct permission of [webId] for the URL, and that the origin is not
    checked, or that the permission is new for [webId] and was given the
    origin of the request. The web id is not a [mailto:] address, which
    [setAgent] stores as an alias. *)
Theorem X11_addPermission_grants_access (w : world)
    (webId url mode : string) (accessMode : OneOrMany Term)
    (origin : option (OneOrMany Term))
    (Hwf : wf w)
    (Hid : truthy (Some webId) = true)
    (Hmail : startsWith webId "mailto:" = false)
    (Hmodes : arg_truthy accessMode = true)
    (Hurl : resourceUrl (this w) = Some url)
    (Hurl_set : truthy (Some url) = true)
    (Hacl : truthy (Some (aclUrlFor (this w) url)) = true)
    (Hmode : Permission.allowsMode mode
               (Permission.addMode accessMode (Permission.new None false))
             = true)
    (Hdirect : resourceType (this w) = RESOURCE
               \/ lookup3 (authsBy_agents (this w)) webId ACCESS_TO url = None)
    (Horigin : origin_unchecked (this w)
               \/ (lookup3 (authsBy_agents (this w)) webId
                     (if isAuthInherited (this w) then DEFAULT else ACCESS_TO)
                     url = None
                   /\ exists og, PermissionSet.origin (this w) = Some og
                                 /\ og ∈ origin_values origin)) :
  exists w',
    addPermission webId accessMode origin w = (Ok tt, w')
    /\ wf w'
    /\ forall agentOptions,
         run (checkAccess url webId mode agentOptions) w'
         = (Ok (Resolved true), w').
Proof.
  set (pa := agent_permission (this w) webId accessMode origin).
  destruct (agent_permission_fields (this w) webId accessMode origin Hid Hmail)
    as (Hw & Hr & Hty & Hm & Ho & Hv & Hg). fold pa in Hw, Hr, Hty, Hm, Ho, Hv, Hg.
  rewrite Hurl in Hr.
  destruct (add_fresh w pa url Hwf Hr Hurl_set Hacl)
    as (w' & h & Hrun & Hwf' & Hh & Htr & _ & (l & q & Hl & Hq & Hsub & Hprov)
        & _).
  rewrite Hw, Hty in Hl, Hprov. simpl in Hl, Hprov.
  exists w'. split.
  { rewrite addPermission_unfold; [exact Hrun|done|done|by rewrite Hurl]. }
  split; [done|].
  intros agentOptions. apply checkAccess_granted; [done|done|right].
  apply (granted_intro w' url webId mode l q).
  - apply (findAuthByAgent_filed _ _ AGENT_INDEX _ _ _ Hl).
    destruct Hdirect as [Hres|Hnone].
    + left. by rewrite (isAuthInherited_RESOURCE _ Hres).
    + destruct (isAuthInherited (this w)) eqn:Hinh; [|by left]. right.
      eapply (tracks_no_direct _ pa w w' AGENT_INDEX);
        [exact Htr|by rewrite Hty|done].
  - done.
  - destruct Horigin as [Hun|(Hnone & og & Hog & Hin)].
    + rewrite (checkOrigin_ext (this w') (this w) q q);
        [by apply checkOrigin_unchecked|apply (tr_settings _ _ _ _ Htr)|done].
    + destruct Hprov as [Hold|Hak]; [congruence|].
      destruct Hak as (_ & _ & Hoq & _).
      rewrite (checkOrigin_ext (this w') (this w) q q);
        [|apply (tr_settings _ _ _ _ Htr)|done].
      unfold checkOrigin. rewrite Hog.
      destruct (negb (strictOrigin (this w)) || negb (truthy (Some og))
                || bool_decide (Some og = host (this w))); [done|].
      unfold Permission.allowsOrigin. simpl. apply bool_decide_eq_true.
      by rewrite Hoq, Ho.
  - eapply allowsMode_mono; [|exact Hmode].
    rewrite addMode_new_modes. by rewrite <- Hm.
Qed.

(** X13: after [addGroupPermission(acl.EVERYONE, accessMode)],
    [checkAccess] of the resource resolves to [true] for every agent and
    every mode that [accessMode] allows, whatever the origin, the host and
    the strict-origin setting of the set, and without a change of the
    set. In a container set it is required that the public has no direct
    permission for the URL. *)
Theorem X13_public_permission_grants_everyone (w : world)
    (url mode : string) (accessMode : OneOrMany Term)
    (Hwf : wf w)
    (Hurl : resourceUrl (this w) = Some url)
    (Hurl_set : truthy (Some url) = true)
    (Hacl : truthy (Some (aclUrlFor (this w) url)) = true)
    (Hmode : Permission.allowsMode mode
               (Permission.addMode accessMode (Permission.new None false))
             = true)
    (Hdirect : resourceType (this w) = RESOURCE
               \/ lookup3 (authsBy_groups (this w)) EVERYONE ACCESS_TO url
                  = None) :
  exists w',
    addGroupPermission EVERYONE accessMode w = (Ok tt, w')
    /\ wf w'
    /\ forall agentId strict o h agentOptions,
         let w_ctx := mkWorld (heap w')
                        (set_origin_context strict o h (this w')) in
         run (checkAccess url agentId mode agentOptions) w_ctx
         = (Ok (Resolved true), w_ctx).
Proof.
  set (pa := group_permission (this w) EVERYONE accessMode).
  destruct (group_permission_fields (this w) EVERYONE accessMode)
    as (Hw & Hr & Hty & Hm & Ho & Hv & Hg & Hag).
  fold pa in Hw, Hr, Hty, Hm, Ho, Hv, Hg, Hag.
  rewrite Hurl in Hr.
  destruct (add_fresh w pa url Hwf Hr Hurl_set Hacl)
    as (w' & h & Hrun & Hwf' & Hh & Htr & _ & _ & Hgroup & _).
  destruct Hgroup as (l & q & Hl & Hq & Hsub).
  { unfold Permission.isPublic. rewrite Hg. by rewrite bool_decide_eq_true_2. }
  rewrite Hw, Hty in Hl. simpl in Hl.
  exists w'. split.
  { rewrite addGroupPermission_unfold; [exact Hrun|by rewrite Hurl]. }
  split; [done|].
  intros agentId strict o hst agentOptions w_ctx.
  apply checkAccess_granted;
    [by apply wf_set_origin_context|done|left].
  apply (publicly_allowed_intro w_ctx url mode l q).
  - unfold w_ctx. simpl. rewrite findAuthByAgent_origin_context.
    apply (findAuthByAgent_filed _ _ GROUP_INDEX _ _ _ Hl).
    destruct Hdirect as [Hres|Hnone].
    + left. by rewrite (isAuthInherited_RESOURCE _ Hres).
    + destruct (isAuthInherited (this w)) eqn:Hinh; [|by left]. right.
      eapply (tracks_no_direct _ pa w w' GROUP_INDEX);
        [exact Htr|by rewrite Hty|done].
  - done.
  - eapply allowsMode_mono; [|exact Hmode].
    rewrite addMode_new_modes. by rewrite <- Hm.
Qed.

End AfterAdd.

Section Groups.

Import PermissionSet.

Lemma elem_of_groupUris g s :
  g ∈ groupUris true s <-> g ∈ dom (authsBy_groups s) /\ g <> EVERYONE.
Proof.
  unfold groupUris. rewrite list_elem_of_In, List.filter_In.
  rewrite <- list_elem_of_In, elem_of_elements, negb_true_iff.
  rewrite String.eqb_neq. reflexivity.
Qed.

Lemma hasGroups_spec s :
  hasGroups s = true <-> exists g, g ∈ groupUris true s.
Proof.
  unfold hasGroups. rewrite Nat.ltb_lt.
  destruct (groupUris true s) as [|g l]; simpl.
  - split; [lia|]. intros [g Hg]. by apply elem_of_nil in Hg.
  - split; [|lia]. intros _. exists g. by left.
Qed.

Lemma hasGroups_ext s s' :
  (forall g, g <> EVERYONE ->
             g ∈ dom (authsBy_groups s) <-> g ∈ dom (authsBy_groups s')) ->
  hasGroups s = hasGroups s'.
Proof.
  intros H. apply eq_true_iff_eq. rewrite !hasGroups_spec.
  split; intros [g Hg]; exists g; apply elem_of_groupUris;
    apply elem_of_groupUris in Hg as [Hd Hne]; (split; [|done]);
    by apply (H g Hne).
Qed.

Lemma lookup3_dom (x : gmap string (gmap AccessType (gmap string nat)))
    k ty u l :
  lookup3 x k ty u = Some l -> k ∈ dom x.
Proof.
  unfold lookup3. destruct (x !! k) eqn:E; [|done]. intros _.
  apply elem_of_dom. eauto.
Qed.

(** The principal kind of the permission built by [addPermission]: only
    the reserved identifier makes it a group permission. *)
Lemma agent_permission_kind s webId accessMode origin :
  let pa := agent_permission s webId accessMode origin in
  Permission.isPublic pa || Permission.isGroup pa = true ->
  string_of_null (Permission.webId pa) = EVERYONE.
Proof.
  unfold agent_permission, Permission.setAgent. simpl term_value.
  destruct (String.eqb_spec webId EVERYONE) as [->|Hne]; simpl.
  - intros _. rewrite addMode_modes.
    destruct origin as [o|]; [destruct (arg_truthy o)|]; simpl;
      rewrite ?addOrigin_origins; reflexivity.
  - destruct (startsWith webId "mailto:"); simpl;
      rewrite addMode_modes;
      (destruct origin as [o|]; [destruct (arg_truthy o)|]); simpl;
      rewrite ?addOrigin_origins; simpl; done.
Qed.

Lemma addPermission_inv w webId accessMode origin w' :
  addPermission webId accessMode origin w = (Ok tt, w') ->
  exists url,
    resourceUrl (this w) = Some url
    /\ truthy (Some url) = true
    /\ Permission.resourceUrl
         (agent_permission (this w) webId accessMode origin) = Some url
    /\ addAuthorization (fresh (dom (heap w)))
         (mkWorld (<[fresh (dom (heap w))
                     := agent_permission (this w) webId accessMode origin]>
                     (heap w)) (this w)) = (Ok tt, w').
Proof.
  intros Hrun.
  assert (H : truthy (Some webId) = true /\ arg_truthy accessMode = true
              /\ truthy (resourceUrl (this w)) = true).
  { unfold addPermission in Hrun.
    rewrite (bind_Ok _ _ w (this w) w) in Hrun by done.
    destruct (truthy (Some webId)); [|done].
    destruct (arg_truthy accessMode); [|done].
    destruct (truthy (resourceUrl (this w))); done. }
  destruct H as (H1 & H2 & H3).
  rewrite addPermission_unfold in Hrun by done.
  destruct (resourceUrl (this w)) as [url|] eqn:Hurl; [|done].
  exists url. split; [done|]. split; [done|]. split; [|exact Hrun].
  unfold agent_permission.
  destruct (setAgent_new (Some url) (isAuthInherited (this w)) webId)
    as (p1 & Hp1 & Hu1).
  rewrite Hurl, Hp1.
  destruct origin as [o|]; [destruct (arg_truthy o)|];
    by rewrite ?addOrigin_resourceUrl, addMode_resourceUrl.
Qed.

Lemma addGroupPermission_inv w webId accessMode w' :
  addGroupPermission webId accessMode w = (Ok tt, w') ->
  exists url,
    resourceUrl (this w) = Some url
    /\ truthy (Some url) = true
    /\ Permission.resourceUrl (group_permission (this w) webId accessMode)
       = Some url
    /\ addAuthorization (fresh (dom (heap w)))
         (mkWorld (<[fresh (dom (heap w))
                     := group_permission (this w) webId accessMode]>
                     (heap w)) (this w)) = (Ok tt, w').
Proof.
  intros Hrun.
  assert (H3 : truthy (resourceUrl (this w)) = true).
  { unfold addGroupPermission in Hrun.
    rewrite (bind_Ok _ _ w (this w) w) in Hrun by done.
    destruct (truthy (resourceUrl (this w))); done. }
  rewrite addGroupPermission_unfold in Hrun by done.
  destruct (resourceUrl (this w)) as [url|] eqn:Hurl; [|done].
  exists url. split; [done|]. split; [done|]. split; [|exact Hrun].
  destruct (group_permission_fields (this w) webId accessMode)
    as (_ & Hr & _). by rewrite Hr.
Qed.

(** What a returning call of [addAuthorization] on a new object has done,
    with respect to the store before the allocation. *)
Lemma add_fresh_tracks w pa url w' :
  Permission.resourceUrl pa = Some url ->
  addAuthorization (fresh (dom (heap w)))
    (mkWorld (<[fresh (dom (heap w)) := pa]> (heap w)) (this w))
  = (Ok tt, w') ->
  tracks (fun l => heap w !! l = None) pa w w'
  /\ (Permission.isPublic pa || Permission.isGroup pa = true ->
      string_of_null (Permission.webId pa) ∈ dom (authsBy_groups (this w'))).
Proof.
  intros Hr Hrun. set (a := fresh (dom (heap w))) in *.
  assert (Hfresh : heap w !! a = None) by apply not_elem_of_dom, is_fresh.
  set (w2 := mkWorld (<[a := pa]> (heap w)) (this w)) in *.
  assert (Ha2 : heap w2 !! a = Some pa) by apply lookup_insert_eq.
  destruct (addAuthorization_tracks 2 a w2 w' pa url Hrun Ha2 Hr)
    as (h & Hh & Htr & _ & _ & Hgroup & _).
  split.
  - apply (tracks_trans (fun _ => False)
             (fun l => l = a \/ heap w2 !! l = None) _ pa w w2 w').
    + done.
    + intros l [->|Hl]; [done|]. unfold w2 in Hl. simpl in Hl.
      destruct (decide (l = a)) as [->|Hne]; [done|].
      by rewrite lookup_insert_ne in Hl.
    + apply tracks_alloc; [done|apply akin_refl].
    + exact Htr.
  - intros Hk. destruct (Hgroup Hk) as (l & q & Hl & _).
    by apply lookup3_dom in Hl.
Qed.

(** X17: [hasGroups] and [groupUris] count group permissions only.
    [addPermission] and [addGroupPermission] of the public class leave
    [hasGroups] as it is; [addGroupPermission] of a non-empty group other
    than the public class makes [hasGroups] true and adds that group, and
    no other, to [groupUris()], which never lists the public class. *)
Theorem X17_hasGroups_counts_groups_only (w w' : world) (webId : string)
    (accessMode : OneOrMany Term) (origin : option (OneOrMany Term)) :
  (addPermission webId accessMode origin w = (Ok tt, w') ->
   hasGroups (this w') = hasGroups (this w))
  /\ (addGroupPermission EVERYONE accessMode w = (Ok tt, w') ->
      hasGroups (this w') = hasGroups (this w))
  /\ (webId <> EVERYONE -> truthy (Some webId) = true ->
      addGroupPermission webId accessMode w = (Ok tt, w') ->
      hasGroups (this w') = true
      /\ webId ∈ groupUris true (this w')
      /\ forall g, g ∈ groupUris true (this w') <->
                   g = webId \/ g ∈ groupUris true (this w))
  /\ EVERYONE ∉ groupUris true (this w).
Proof.
  split_and!.
  - intros (url & _ & _ & Hr & Hrun)%addPermission_inv.
    destruct (add_fresh_tracks w _ url w' Hr Hrun) as (Htr & _).
    symmetry. apply hasGroups_ext. intros g Hne. split.
    + intros Hg. by apply (tr_groups_keep _ _ _ _ Htr).
    + intros Hg. apply (tr_groups_dom _ _ _ _ Htr) in Hg.
      apply elem_of_union in Hg as [Hg|Hg]; [done|].
      pose proof (agent_permission_kind (this w) webId accessMode origin)
        as Hkind. simpl in Hkind.
      destruct (Permission.isPublic _ || Permission.isGroup _);
        [|set_solver].
      rewrite Hkind in Hg by done. set_solver.
  - intros (url & _ & _ & Hr & Hrun)%addGroupPermission_inv.
    destruct (add_fresh_tracks w _ url w' Hr Hrun) as (Htr & _).
    symmetry. apply hasGroups_ext. intros g Hne. split.
    + intros Hg. by apply (tr_groups_keep _ _ _ _ Htr).
    + intros Hg. apply (tr_groups_dom _ _ _ _ Htr) in Hg.
      apply elem_of_union in Hg as [Hg|Hg]; [done|].
      destruct (group_permission_fields (this w) EVERYONE accessMode)
        as (Hw & _). rewrite Hw in Hg. simpl in Hg.
      destruct (Permission.isPublic _ || Permission.isGroup _); set_solver.
  - intros Hne Hid (url & _ & _ & Hr & Hrun)%addGroupPermission_inv.
    destruct (add_fresh_tracks w _ url w' Hr Hrun) as (Htr & Hin).
    destruct (group_permission_fields (this w) webId accessMode)
      as (Hw & _ & _ & _ & _ & _ & Hg & _).
    assert (Hk : Permission.isPublic (group_permission (this w) webId accessMode)
                 || Permission.isGroup
                      (group_permission (this w) webId accessMode) = true).
    { unfold Permission.isPublic, Permission.isGroup. rewrite Hg.
      rewrite Hid. apply orb_true_r. }
    specialize (Hin Hk). rewrite Hw in Hin. simpl in Hin.
    assert (Hall : forall g, g ∈ groupUris true (this w') <->
                             g = webId \/ g ∈ groupUris true (this w)).
    { intros g. rewrite !elem_of_groupUris. split.
      - intros [Hd Hg']. apply (tr_groups_dom _ _ _ _ Htr) in Hd.
        rewrite Hk, Hw in Hd. simpl in Hd. set_solver.
      - intros [->|[Hd Hg']]; [done|].
        split; [by apply (tr_groups_keep _ _ _ _ Htr)|done]. }
    split; [|split; [|exact Hall]].
    + apply hasGroups_spec. exists webId. apply Hall. by left.
    + apply Hall. by left.
  - intros H. by apply elem_of_groupUris in H as [_ H].
Qed.

End Groups.

Section GroupMembers.

Import PermissionSet.

(** X12: after [addGroupPermission(group, accessMode)] for a group other
    than the public class, on a set with a resource URL that does not check
    the origin, an agent that the graph fetched for the group states as a
    member gets, from [checkAccess] with that loader, every mode that
    [accessMode] allows. In a container set it is required that the group
    has no direct permission for the URL. *)
Theorem X12_group_permission_grants_members (w : world)
    (group agentId url mode : string) (accessMode : OneOrMany Term)
    (fetch : GroupListing.fetcher) (gr : Graph.t) (rdf_opt : bool)
    (Hwf : wf w)
    (Hgroup : truthy (Some group) = true)
    (Hnot_public : group <> EVERYONE)
    (Hagent : truthy (Some agentId) = true)
    (Hurl : resourceUrl (this w) = Some url)
    (Hurl_set : truthy (Some url) = true)
    (Hacl : truthy (Some (aclUrlFor (this w) url)) = true)
    (Hmode : Permission.allowsMode mode
               (Permission.addMode accessMode (Permission.new None false))
             = true)
    (Hdirect : resourceType (this w) = RESOURCE
               \/ lookup3 (authsBy_agents (this w)) group ACCESS_TO url = None)
    (Horigin : origin_unchecked (this w))
    (Hrdf : rdf_opt || rdf (this w) = true)
    (Hfetch : fetch group = Resolved (Some gr))
    (Hmember : Graph.mkTriple group Graph.vcard_hasMember agentId ∈ gr) :
  exists w',
    addGroupPermission group accessMode w = (Ok tt, w')
    /\ wf w'
    /\ hasGroups (this w') = true
    /\ eval (checkAccess url agentId mode
               (mkLoadOptions (Some fetch) rdf_opt)) w'
       = Ok (Resolved true).
Proof.
  set (pa := group_permission (this w) group accessMode).
  destruct (group_permission_fields (this w) group accessMode)
    as (Hw & Hr & Hty & Hm & Ho & Hv & Hg & Hag).
  fold pa in Hw, Hr, Hty, Hm, Ho, Hv, Hg, Hag.
  rewrite Hurl in Hr.
  assert (Hkind : Permission.isPublic pa || Permission.isGroup pa = true).
  { unfold Permission.isGroup. rewrite Hg, Hgroup. apply orb_true_r. }
  destruct (add_fresh w pa url Hwf Hr Hurl_set Hacl)
    as (w' & h & Hrun & Hwf' & Hh & Htr & _ & (l & q & Hl & Hq & Hsub & _)
        & Hgidx & _).
  destruct (Hgidx Hkind) as (lg & qg & Hlg & _).
  rewrite Hw, Hty in Hl, Hlg. simpl in Hl, Hlg.
  assert (Hgranted : granted w' url group mode = true).
  { apply (granted_intro w' url group mode l q).
    - apply (findAuthByAgent_filed _ _ AGENT_INDEX _ _ _ Hl).
      destruct Hdirect as [Hres|Hnone].
      + left. by rewrite (isAuthInherited_RESOURCE _ Hres).
      + destruct (isAuthInherited (this w)) eqn:Hinh; [|by left]. right.
        eapply (tracks_no_direct _ pa w w' AGENT_INDEX);
          [exact Htr|by rewrite Hty|done].
    - done.
    - rewrite (checkOrigin_ext (this w') (this w) q q);
        [by apply checkOrigin_unchecked|apply (tr_settings _ _ _ _ Htr)|done].
    - eapply allowsMode_mono; [|exact Hmode].
      rewrite addMode_new_modes. by rewrite <- Hm. }
  assert (Huri : group ∈ groupUris true (this w')).
  { apply elem_of_groupUris. split; [|done]. by apply lookup3_dom in Hlg. }
  assert (Hrdf' : rdf_opt || rdf (this w') = true).
  { pose proof (tr_settings _ _ _ _ Htr) as Hs. unfold settings in Hs.
    injection Hs as ? ? ? ? ? ? ? ? ?.
    assert (rdf (this w') = rdf (this w)) as -> by congruence. done. }
  exists w'. split.
  { rewrite addGroupPermission_unfold; [exact Hrun|by rewrite Hurl]. }
  split; [done|]. split; [apply hasGroups_spec; eauto|].
  unfold eval.
  rewrite (checkAccess_run w' url agentId mode fetch rdf_opt Hwf' Hurl_set
             Hrdf').
  destruct (publicly_allowed w' mode url || granted w' url agentId mode);
    [done|].
  assert (hasGroups (this w') = true) as -> by (apply hasGroups_spec; eauto).
  simpl. do 2 f_equal. apply existsb_exists. exists group.
  split; [|done]. apply list_elem_of_In, groupsForMember_elem.
  destruct (loadFrom_run group fetch gr Hgroup Hfetch)
    as (g & Hload & Huri_g & Hmem).
  exists g. split.
  - simpl. rewrite cache_after_load_lookup.
    rewrite bool_decide_eq_true_2 by done.
    unfold listing_of. rewrite Hrdf'. by rewrite Hload.
  - apply Hmem. eexists. split; [exact Hmember|]. simpl.
    repeat apply conj; try reflexivity.
    destruct agentId; [discriminate Hagent|reflexivity].
Qed.

End GroupMembers.

(* ===================================================================== *)
(** * Adding and removing *)
(* ===================================================================== *)

Section AddRemove.

Import PermissionSet.

Lemma list_ascii_app (a b : string) :
  String.list_ascii_of_string (a +:+ b)
  = (String.list_ascii_of_string a ++ String.list_ascii_of_string b)%list.
Proof.
  induction a as [|c a IH]; [reflexivity|].
  change (String c a +:+ b) with (String c (a +:+ b)). simpl. by rewrite IH.
Qed.

(** The hash fragment ends with the access type. *)
Lemma hashFragmentFor_last w url ty :
  last (String.list_ascii_of_string (Permission.hashFragmentFor w url ty))
  = last (String.list_ascii_of_string (accessType_string ty)).
Proof.
  unfold Permission.hashFragmentFor. rewrite !list_ascii_app, !last_app.
  by destruct ty.
Qed.

Lemma hashFragmentFor_type w url ty w' url' ty' :
  Permission.hashFragmentFor w url ty = Permission.hashFragmentFor w' url' ty'
  -> ty = ty'.
Proof.
  intros H. apply (f_equal (fun s => last (String.list_ascii_of_string s))) in H.
  rewrite !hashFragmentFor_last in H. by destruct ty, ty'.
Qed.

Lemma hashFragment_inv p h :
  Permission.hashFragment p = Ok h ->
  h = Permission.hashFragmentFor (Permission.webId p)
        (Permission.resourceUrl p) (Permission.accessType p).
Proof.
  unfold Permission.hashFragment.
  destruct (negb Permission.webId_property_truthy
            || negb (truthy (Permission.resourceUrl p))); [done|].
  by intros [= <-].
Qed.

Lemma permissionFor_key webId u s :
  truthy (Some webId) = true ->
  permissionFor webId u s
  = authorizations s
      !! Permission.hashFragmentFor (Some webId) (or_else u (resourceUrl s))
           ACCESS_TO.
Proof. intros H. unfold permissionFor. by rewrite H. Qed.

(** X18: when the set for a single resource already has a permission of
    the principal, [addPermission] changes the object that is stored: it
    gets the new modes and keeps its identity, its allowed origins and its
    e-mail aliases. The origins passed with the call are dropped. The web
    id is not a [mailto:] address. *)
Theorem X18_addPermission_merge_ignores_origins (w : world)
    (webId url : string) (accessMode : OneOrMany Term)
    (origin : option (OneOrMany Term)) (l : nat) (q : Permission.t)
    (Hwf : wf w)
    (Hid : truthy (Some webId) = true)
    (Hmail : startsWith webId "mailto:" = false)
    (Hmodes : arg_truthy accessMode = true)
    (Hurl : resourceUrl (this w) = Some url)
    (Hurl_set : truthy (Some url) = true)
    (Hacl : truthy (Some (aclUrlFor (this w) url)) = true)
    (Hres : resourceType (this w) = RESOURCE)
    (Hfor : permissionFor webId None (this w) = Some l)
    (Hq : heap w !! l = Some q) :
  exists w' q',
    addPermission webId accessMode origin w = (Ok tt, w')
    /\ permissionFor webId None (this w') = Some l
    /\ heap w' !! l = Some q'
    /\ Permission.accessModes q ∪ values accessMode
       ⊆ Permission.accessModes q'
    /\ Permission.originsAllowed q' = Permission.originsAllowed q
    /\ Permission.mailTo q' = Permission.mailTo q
    /\ same_identity q q'.
Proof.
  set (pa := agent_permission (this w) webId accessMode origin).
  destruct (agent_permission_fields (this w) webId accessMode origin Hid Hmail)
    as (Hw & Hr & Hty & Hm & Ho & Hv & Hg).
  fold pa in Hw, Hr, Hty, Hm, Ho, Hv, Hg.
  rewrite Hurl in Hr. rewrite (isAuthInherited_RESOURCE _ Hres) in Hty.
  destruct (add_fresh w pa url Hwf Hr Hurl_set Hacl)
    as (w' & h & Hrun & Hwf' & Hh & Htr & (l' & q' & Hl' & Hq' & Hsub) & _).
  apply hashFragment_inv in Hh. rewrite Hw, Hr, Hty in Hh.
  rewrite permissionFor_key in Hfor by done.
  unfold or_else in Hfor. simpl in Hfor. rewrite Hurl in Hfor.
  rewrite <- Hh in Hfor.
  pose proof (tr_auth_keep _ _ _ _ Htr h l Hfor) as Hkeep.
  assert (l' = l) by congruence. subst l'.
  destruct (tr_heap_old _ _ _ _ Htr l q Hq) as (q'' & Hq'' & Hid' & Hsub').
  assert (q'' = q') by congruence. subst q''.
  destruct (settings_fields _ _ (tr_settings _ _ _ _ Htr)) as (_ & _ & _ & _ & Hu').
  exists w', q'. split.
  { rewrite addPermission_unfold; [exact Hrun|done|done|by rewrite Hurl]. }
  split.
  { rewrite permissionFor_key by done. unfold or_else. simpl.
    rewrite Hu', Hurl. by rewrite <- Hh. }
  split; [done|]. split; [rewrite <- Hm; set_solver|].
  destruct (same_identity_fields _ _ Hid') as (_ & _ & _ & _ & Hoq & _).
  split; [done|]. split; [|done].
  unfold same_identity in Hid'. rewrite Hid'. by destruct q.
Qed.

Lemma removeMode_hashFragment m p :
  Permission.hashFragment (Permission.removeMode m p)
  = Permission.hashFragment p.
Proof.
  destruct (same_identity_fields _ _ (removeMode_same_identity m p))
    as (_ & _ & _ & _ & _ & _ & H). exact H.
Qed.

Lemma removePermission_last w webId accessMode url a pa h :
  truthy (Some webId) = true ->
  resourceUrl (this w) = Some url -> truthy (Some url) = true ->
  h = Permission.hashFragmentFor (Some webId) (Some url) ACCESS_TO ->
  authorizations (this w) !! h = Some a ->
  heap w !! a = Some pa ->
  Permission.hashFragment pa = Ok h ->
  Permission.accessModes pa ⊆ values accessMode ->
  removePermission webId accessMode w
  = (Ok tt,
     mkWorld (<[a := Permission.removeMode accessMode pa]> (heap w))
       (set_authorizations (delete h (authorizations (this w))) (this w))).
Proof.
  intros Hid Hurl Ht -> Ha Hpa Hh Hsub. unfold removePermission.
  rewrite (bind_Ok _ _ w (this w) w) by done.
  rewrite permissionFor_key by done. rewrite Hurl. unfold or_else.
  rewrite Ht, Ha.
  erewrite bind_Ok; [|by apply update_run].
  erewrite bind_Ok; [|apply deref_Some; apply lookup_insert_eq].
  assert (Permission.isEmpty (Permission.removeMode accessMode pa) = true)
    as ->.
  { unfold Permission.isEmpty. apply bool_decide_eq_true.
    rewrite removeMode_modes. simpl. set_solver. }
  unfold removeAuthorization.
  erewrite bind_Ok; [|apply deref_Some; apply lookup_insert_eq].
  rewrite removeMode_hashFragment, Hh. reflexivity.
Qed.

(** X14: in a set for a single resource, adding a permission for a
    principal that has none and removing the same modes gives back the
    collection. In between, the collection has one more permission, with
    exactly the modes given; afterwards [permissionFor] finds none and
    [count] is what it was. The modes are other than Control, whose
    implied permission for the ACL document stays in the collection, and
    the web id is not a [mailto:] address. *)
Theorem X14_add_then_remove_restores_collection (w : world)
    (webId url : string) (accessMode : OneOrMany Term)
    (origin : option (OneOrMany Term))
    (Hwf : wf w)
    (Hid : truthy (Some webId) = true)
    (Hmail : startsWith webId "mailto:" = false)
    (Hmodes : arg_truthy accessMode = true)
    (Hurl : resourceUrl (this w) = Some url)
    (Hurl_set : truthy (Some url) = true)
    (Hacl : truthy (Some (aclUrlFor (this w) url)) = true)
    (Hres : resourceType (this w) = RESOURCE)
    (Hnew : permissionFor webId None (this w) = None)
    (Hplain : CONTROL ∉ values accessMode) :
  exists w1 w2 a p,
    addPermission webId accessMode origin w = (Ok tt, w1)
    /\ permissionFor webId None (this w1) = Some a
    /\ heap w1 !! a = Some p
    /\ Permission.accessModes p = values accessMode
    /\ count (this w1) = S (count (this w))
    /\ isEmpty (this w1) = false
    /\ removePermission webId accessMode w1 = (Ok tt, w2)
    /\ authorizations (this w2) = authorizations (this w)
    /\ permissionFor webId None (this w2) = None
    /\ count (this w2) = count (this w).
Proof.
  set (pa := agent_permission (this w) webId accessMode origin).
  destruct (agent_permission_fields (this w) webId accessMode origin Hid Hmail)
    as (Hw & Hr & Hty & Hm & Ho & Hv & Hg).
  fold pa in Hw, Hr, Hty, Hm, Ho, Hv, Hg.
  rewrite Hurl in Hr. rewrite (isAuthInherited_RESOURCE _ Hres) in Hty.
  destruct (add_fresh w pa url Hwf Hr Hurl_set Hacl)
    as (w1 & h & Hrun & Hwf1 & Hh & Htr & _ & _ & _ & Hexact).
  set (a := fresh (dom (heap w))) in *.
  destruct Hexact as (Hfresh & Ha1 & Hauth1).
  { unfold Permission.allowsControl. rewrite Hm.
    rewrite bool_decide_eq_false_2 by done. apply andb_false_r. }
  pose proof (hashFragment_inv _ _ Hh) as Hkey. rewrite Hw, Hr, Hty in Hkey.
  rewrite permissionFor_key in Hnew by done.
  unfold or_else in Hnew. simpl in Hnew. rewrite Hurl in Hnew.
  rewrite <- Hkey in Hnew. specialize (Hauth1 Hnew).
  destruct (settings_fields _ _ (tr_settings _ _ _ _ Htr))
    as (_ & _ & _ & _ & Hu1).
  rewrite Hurl in Hu1.
  assert (Hfor1 : authorizations (this w1) !! h = Some a)
    by (rewrite Hauth1; apply lookup_insert_eq).
  eexists w1, _, a, pa. split.
  { rewrite addPermission_unfold; [exact Hrun|done|done|by rewrite Hurl]. }
  split.
  { rewrite permissionFor_key by done. unfold or_else. simpl.
    rewrite Hu1. by rewrite <- Hkey. }
  split; [done|]. split; [done|].
  assert (Hcount : count (this w1) = S (count (this w))).
  { unfold count. rewrite Hauth1. by rewrite map_size_insert_None. }
  split; [done|]. split; [unfold isEmpty; by rewrite Hcount|].
  split.
  { apply (removePermission_last w1 webId accessMode url a pa h); try done.
    by rewrite Hm. }
  cbn [this]. rewrite Hauth1, delete_insert_id by done.
  split; [reflexivity|]. split; [|reflexivity].
  unfold permissionFor. rewrite Hid. cbn [negb].
  change (resourceUrl (set_authorizations (authorizations (this w)) (this w1)))
    with (resourceUrl (this w1)).
  rewrite Hu1. unfold or_else. cbn [truthy].
  change (authorizations
            (set_authorizations (authorizations (this w)) (this w1)))
    with (authorizations (this w)).
  by rewrite <- Hkey.
Qed.

End AddRemove.

Section Containers.

Import PermissionSet.

Lemma settings_resourceType s s' :
  settings s = settings s' -> resourceType s = resourceType s'.
Proof. unfold settings. intros [= ? ? ? ? ? ? ? ? ?]. done. Qed.

Lemma all_inherited_tracks N pa w w' :
  all_inherited w -> Permission.accessType pa = DEFAULT ->
  tracks N pa w w' -> all_inherited w'.
Proof.
  intros [Hty Hall] Hpa Htr. split.
  - by rewrite (settings_resourceType _ _ (tr_settings _ _ _ _ Htr)).
  - intros l p' Hp'. destruct (heap w !! l) as [p|] eqn:E.
    + destruct (tr_heap_old _ _ _ _ Htr l p E) as (p'' & Hp'' & Hid & _).
      assert (p'' = p') by congruence. subst p''.
      destruct (same_identity_fields _ _ Hid) as (_ & -> & _). eauto.
    + destruct (tr_heap_new _ _ _ _ Htr l p' E Hp') as (_ & -> & _). done.
Qed.

Lemma all_inherited_permissionFor w webId u :
  wf w -> all_inherited w -> permissionFor webId u (this w) = None.
Proof.
  intros Hwf [_ Hall]. unfold permissionFor.
  destruct (negb (truthy (Some webId))); [done|].
  destruct (authorizations (this w) !! _) as [l|] eqn:E; [|done].
  destruct (wf_authorizations w Hwf _ _ E) as (p & Hp & Hh).
  apply hashFragment_inv in Hh. apply hashFragmentFor_type in Hh.
  rewrite (Hall l p Hp) in Hh. discriminate Hh.
Qed.

Lemma isAuthInherited_CONTAINER s :
  resourceType s = CONTAINER -> isAuthInherited s = true.
Proof. unfold isAuthInherited. by intros ->. Qed.

Lemma agent_permission_type s webId accessMode origin :
  Permission.accessType (agent_permission s webId accessMode origin)
  = if isAuthInherited s then DEFAULT else ACCESS_TO.
Proof.
  unfold agent_permission, Permission.setAgent. simpl term_value.
  destruct (String.eqb webId EVERYONE); simpl;
    destruct (startsWith webId "mailto:"); simpl;
    rewrite addMode_modes;
    (destruct origin as [o|]; [destruct (arg_truthy o)|]); simpl;
    rewrite ?addOrigin_origins; reflexivity.
Qed.

Lemma removePermission_none w webId accessMode :
  permissionFor webId (resourceUrl (this w)) (this w) = None ->
  removePermission webId accessMode w = (Ok tt, w).
Proof.
  intros H. unfold removePermission.
  rewrite (bind_Ok _ _ w (this w) w) by done. by rewrite H.
Qed.

Lemma reachable_all_inherited url acl_url o w :
  opt_aclUrlFor o = None ->
  reachable (init url acl_url true o) w -> all_inherited w.
Proof.
  intros Ho Hreach.
  induction Hreach as [|w webId accessMode origin w' Hreach IH Hrun
                        |w webId accessMode w' Hreach IH Hrun
                        |w webId accessMode w' Hreach IH Hrun
                        |w u agentId mode lo Hreach IH].
  - split; [done|]. intros l p Hp. simpl in Hp. by rewrite lookup_empty in Hp.
  - apply addPermission_inv in Hrun as (r & _ & _ & Hr & Hrun).
    destruct (add_fresh_tracks w _ r w' Hr Hrun) as (Htr & _).
    eapply (all_inherited_tracks _ _ w w' IH); [|exact Htr].
    rewrite agent_permission_type.
    by rewrite (isAuthInherited_CONTAINER _ (proj1 IH)).
  - apply addGroupPermission_inv in Hrun as (r & _ & _ & Hr & Hrun).
    destruct (add_fresh_tracks w _ r w' Hr Hrun) as (Htr & _).
    eapply (all_inherited_tracks _ _ w w' IH); [|exact Htr].
    destruct (group_permission_fields (this w) webId accessMode)
      as (_ & _ & -> & _).
    by rewrite (isAuthInherited_CONTAINER _ (proj1 IH)).
  - pose proof (reachable_wf _ _ _ _ _ Ho Hreach) as Hwf.
    rewrite removePermission_none in Hrun
      by (by apply all_inherited_permissionFor).
    by injection Hrun as <-.
  - destruct (checkAccess_effect w u agentId mode lo) as (cache & -> & _).
    destruct IH as [Hty Hall]. split; [by destruct (this w)|done].
Qed.

(** X15: in a set made for a container, with the default rule for ACL
    URLs, the permissions are filed as inherited ones while [permissionFor]
    looks up the key of a direct one: it finds nothing, for any principal
    and URL, and [removePermission] returns without changing the set. *)
Theorem X15_removePermission_noop_on_containers
    (url acl_url : option string) (o : options) (w : world)
    (webId : string) (accessMode : OneOrMany Term) (u : option string)
    (Hdefault : opt_aclUrlFor o = None)
    (Hreach : reachable (init url acl_url true o) w) :
  permissionFor webId u (this w) = None
  /\ run (removePermission webId accessMode) w = (Ok tt, w).
Proof.
  pose proof (reachable_wf _ _ _ _ _ Hdefault Hreach) as Hwf.
  pose proof (reachable_all_inherited _ _ _ _ Hdefault Hreach) as Hall.
  split; [by apply all_inherited_permissionFor|].
  apply removePermission_none. by apply all_inherited_permissionFor.
Qed.

End Containers.

(* ===================================================================== *)
(** * Reading the permissions from a graph *)
(* ===================================================================== *)

Section Parsing.

Import PermissionSet.

Lemma foldl_addMailTo_fields (mailTos : list Term) p :
  let p' := foldl (fun acc mailTo => Permission.addMailTo mailTo acc) p
              mailTos in
  Permission.set_mailTo (Permission.mailTo p) p' = p.
Proof.
  revert p. induction mailTos as [|m l IH]; intros p; cbv zeta.
  - by destruct p.
  - specialize (IH (Permission.addMailTo m p)). cbv zeta in IH.
    change (foldl (fun acc mailTo => Permission.addMailTo mailTo acc) p
              (m :: l))
      with (foldl (fun acc mailTo => Permission.addMailTo mailTo acc)
              (Permission.addMailTo m p) l).
    assert (H : forall a b X,
               Permission.set_mailTo a (Permission.set_mailTo b X)
               = Permission.set_mailTo a X) by (by intros a b []).
    rewrite <- (H (Permission.mailTo p)
                  (Permission.mailTo (Permission.addMailTo m p))).
    rewrite IH. by destruct p.
Qed.

Lemma setAgent_term_new url inh tm :
  exists p, Permission.setAgent (Permission.PTerm tm)
              (Permission.new url inh) = Ok p
            /\ Permission.resourceUrl p = url
            /\ Permission.accessType p = (if inh then DEFAULT else ACCESS_TO)
            /\ Permission.accessModes p = ∅
            /\ Permission.virtual p = false
            /\ (truthy (Some (term_value tm)) = true ->
                startsWith (term_value tm) "mailto:" = false ->
                Permission.webId p = Some (term_value tm)).
Proof.
  unfold Permission.setAgent.
  destruct (String.eqb (term_value tm) EVERYONE); simpl;
    destruct (startsWith (term_value tm) "mailto:"); eexists;
    (split; [reflexivity|]); simpl; repeat apply conj; try reflexivity;
    try done; intros Ht _; unfold Permission.webId, or_else; simpl;
    simpl in Ht; by rewrite Ht.
Qed.

Lemma stated_permission_fields url inherit agent accessModes origins mailTos :
  let pa := stated_permission url inherit agent accessModes origins mailTos in
  Permission.resourceUrl pa = Some url
  /\ Permission.accessType pa = (if inherit then DEFAULT else ACCESS_TO)
  /\ Permission.accessModes pa = list_to_set (term_value <$> accessModes)
  /\ Permission.virtual pa = false
  /\ (forall v, agent = Permission.PTerm (Node v) ->
                truthy (Some v) = true -> startsWith v "mailto:" = false ->
                Permission.webId pa = Some v).
Proof.
  unfold stated_permission.
  set (p0 := Permission.new (Some url) inherit).
  match goal with
  | |- context [foldl _ (Permission.addOrigin _ (Permission.addMode _ ?x))] =>
      set (p1 := x)
  end.
  assert (H1 : Permission.resourceUrl p1 = Some url
               /\ Permission.accessType p1
                  = (if inherit then DEFAULT else ACCESS_TO)
               /\ Permission.accessModes p1 = ∅
               /\ Permission.virtual p1 = false
               /\ (forall v, agent = Permission.PTerm (Node v) ->
                             truthy (Some v) = true ->
                             startsWith v "mailto:" = false ->
                             Permission.webId p1 = Some v)).
  { unfold p1. destruct agent as [tm|gl].
    - destruct (setAgent_term_new (Some url) inherit tm)
        as (p & Hp & ? & ? & ? & ? & Hw).
      fold p0 in Hp. rewrite Hp. repeat apply conj; try done.
      intros v [= ->]. apply Hw.
    - destruct (GroupListing.listing gl) as [l|]; simpl;
        repeat apply conj; try done. }
  destruct H1 as (A1 & A2 & A3 & A4 & A5).
  pose proof (foldl_addMailTo_fields mailTos
                (Permission.addOrigin (Many origins)
                   (Permission.addMode (Many accessModes) p1))) as Hm.
  cbv zeta in Hm.
  match goal with
  | |- context [foldl ?f ?x mailTos] => set (p3 := foldl f x mailTos) in *
  end.
  assert (E : p3 = Permission.set_mailTo (Permission.mailTo p3)
                     (Permission.addOrigin (Many origins)
                        (Permission.addMode (Many accessModes) p1))).
  { rewrite <- Hm. by destruct p3. }
  rewrite E. rewrite addOrigin_origins, addMode_modes.
  destruct p1; simpl in *. unfold Permission.webId in *. simpl in *.
  repeat apply conj; try done. subst. set_solver.
Qed.

Lemma addAuthorizationFor_unfold w url inherit agent accessModes origins
    mailTos :
  stated_principal agent ->
  addAuthorizationFor url inherit agent accessModes origins mailTos w
  = addAuthorization (fresh (dom (heap w)))
      (mkWorld (<[fresh (dom (heap w))
                  := stated_permission url inherit agent accessModes origins
                       mailTos]> (heap w)) (this w)).
Proof.
  intros Hagent. unfold addAuthorizationFor.
  destruct (alloc_run w (Permission.new (Some url) inherit))
    as [Halloc Hfresh].
  set (l := fresh (dom (heap w))) in *.
  rewrite (bind_Ok _ _ _ _ _ Halloc).
  unfold stated_permission.
  set (p0 := Permission.new (Some url) inherit).
  assert (Hprincipal :
            exists p1,
              (match agent with
               | Permission.PListing gl =>
                   match GroupListing.listing gl with
                   | Some l0 =>
                       update_or_throw l
                         (Permission.setGroup (Permission.PTerm l0))
                   | None =>
                       update_or_throw l
                         (fun _ =>
                            Throw "TypeError: Cannot read properties of undefined")
                   end
               | _ => update_or_throw l (Permission.setAgent agent)
               end) (mkWorld (<[l := p0]> (heap w)) (this w))
              = (Ok tt, mkWorld (<[l := p1]> (heap w)) (this w))
              /\ p1 = match agent with
                      | Permission.PListing gl =>
                          match GroupListing.listing gl with
                          | Some l =>
                              match Permission.setGroup (Permission.PTerm l) p0
                              with
                              | Ok p => p
                              | _ => p0
                              end
                          | None => p0
                          end
                      | _ =>
                          match Permission.setAgent agent p0 with
                          | Ok p => p
                          | _ => p0
                          end
                      end).
  { destruct agent as [tm|gl].
    - destruct (setAgent_term_new (Some url) inherit tm) as (p & Hp & _).
      fold p0 in Hp. exists p. rewrite Hp. split; [|done].
      unfold update_or_throw.
      erewrite bind_Ok; [|apply deref_Some, lookup_insert_eq].
      unfold bind, lift. rewrite Hp. simpl. by rewrite insert_insert_eq.
    - destruct Hagent as [tm Htm]. rewrite Htm.
      eexists. split; [|reflexivity].
      unfold update_or_throw.
      erewrite bind_Ok; [|apply deref_Some, lookup_insert_eq].
      unfold bind, lift. simpl. by rewrite insert_insert_eq. }
  destruct Hprincipal as (p1 & Hrun1 & <-).
  rewrite (bind_Ok _ _ _ _ _ Hrun1).
  erewrite bind_Ok; [|apply update_run; apply lookup_insert_eq].
  erewrite bind_Ok; [|apply update_run; apply lookup_insert_eq].
  erewrite bind_Ok; [|apply update_run; apply lookup_insert_eq].
  simpl. by rewrite !insert_insert_eq.
Qed.

End Parsing.

Section ParsingSteps.

Import PermissionSet.

Section ForEach.

Context {A : Type} (I : world -> Prop) (R : world -> world -> Prop).
Hypothesis R_refl : forall w, R w w.
Hypothesis R_trans : forall w1 w2 w3, R w1 w2 -> R w2 w3 -> R w1 w3.

Lemma for_each_run (l : list A) (f : A -> M unit) :
  (forall x w, x ∈ l -> I w ->
               exists w', f x w = (Ok tt, w') /\ I w' /\ R w w') ->
  forall w, I w ->
            exists w', for_each l f w = (Ok tt, w') /\ I w' /\ R w w'.
Proof.
  induction l as [|x l IH]; intros Hstep w Hw; simpl.
  - exists w. auto.
  - destruct (Hstep x w) as (w1 & Hrun1 & Hw1 & HR1); [by left|done|].
    destruct (IH (fun y w0 Hy => Hstep y w0 (list_elem_of_further _ _ _ Hy))
                w1 Hw1) as (w2 & Hrun2 & Hw2 & HR2).
    exists w2. rewrite (bind_Ok _ _ _ _ _ Hrun1). eauto.
Qed.

Lemma for_each_establishes (l : list A) (f : A -> M unit)
    (Q : world -> Prop) (x0 : A) :
  x0 ∈ l ->
  (forall x w, x ∈ l -> I w ->
               exists w', f x w = (Ok tt, w') /\ I w' /\ R w w') ->
  (forall w w', I w -> f x0 w = (Ok tt, w') -> Q w') ->
  (forall w w', R w w' -> Q w -> Q w') ->
  forall w, I w ->
            exists w', for_each l f w = (Ok tt, w') /\ I w' /\ R w w' /\ Q w'.
Proof.
  intros Hin Hstep Hest Hmono.
  induction l as [|x l IH]; intros w Hw; [by apply elem_of_nil in Hin|].
  simpl.
  destruct (Hstep x w) as (w1 & Hrun1 & Hw1 & HR1); [by left|done|].
  rewrite (bind_Ok _ _ _ _ _ Hrun1).
  apply elem_of_cons in Hin as [->|Hin].
  - destruct (for_each_run l f
                (fun y w0 Hy => Hstep y w0 (list_elem_of_further _ _ _ Hy))
                w1 Hw1) as (w2 & Hrun2 & Hw2 & HR2).
    exists w2. repeat apply conj; eauto.
  - destruct (IH Hin
                (fun y w0 Hy => Hstep y w0 (list_elem_of_further _ _ _ Hy))
                w1 Hw1) as (w2 & Hrun2 & Hw2 & HR2 & HQ).
    exists w2. repeat apply conj; eauto.
Qed.

End ForEach.

Lemma extends_refl w : extends w w.
Proof. apply evolves_refl. Qed.

Lemma extends_trans w1 w2 w3 : extends w1 w2 -> extends w2 w3 -> extends w1 w3.
Proof. intros H1 H2. by eapply (evolves_trans _ _ _ w1 w2 w3); [| |done|done]. Qed.

Lemma tracks_extends N pa w w' : tracks N pa w w' -> extends w w'.
Proof.
  intros H. split.
  - exact (tr_heap_old _ _ _ _ H).
  - exact (tr_index_keep _ _ _ _ H).
  - intros i k ty u []. done.
  - exact (tr_settings _ _ _ _ H).
Qed.

Lemma direct_entry_extends k u m w w' :
  extends w w' -> direct_entry k u m w -> direct_entry k u m w'.
Proof.
  intros H (l & q & Hl & Hq & Hm).
  destruct (evolves_entry _ _ _ AGENT_INDEX _ _ _ _ _ {[ m ]} H Hl Hq)
    as (q' & Hl' & Hq' & _ & Hm'); [set_solver|].
  exists l, q'. split; [done|]. split; [done|]. set_solver.
Qed.

Lemma addAuthorizationFor_step s0 w url inherit agent accessModes origins
    mailTos :
  (forall u, truthy (Some u) = true ->
             truthy (Some (aclUrlFor s0 u)) = true) ->
  parsing s0 w -> stated_principal agent -> truthy (Some url) = true ->
  exists w',
    addAuthorizationFor url inherit agent accessModes origins mailTos w
    = (Ok tt, w')
    /\ parsing s0 w' /\ extends w w'
    /\ forall v m,
         agent = Permission.PTerm (Node v) -> truthy (Some v) = true ->
         startsWith v "mailto:" = false -> inherit = false ->
         m ∈ term_value <$> accessModes ->
         direct_entry v url m w'.
Proof.
  intros Hacl [Hwf Hs] Hagent Hurl.
  set (pa := stated_permission url inherit agent accessModes origins mailTos).
  destruct (stated_permission_fields url inherit agent accessModes origins
              mailTos) as (Hr & Hty & Hm & Hv & Hw). fold pa in Hr, Hty, Hm, Hv, Hw.
  destruct (settings_fields _ _ Hs) as (Hacl_eq & _).
  destruct (add_fresh w pa url Hwf Hr Hurl)
    as (w' & h & Hrun & Hwf' & _ & Htr & _ & (l & q & Hl & Hq & Hsub & _) & _).
  { rewrite Hacl_eq. by apply Hacl. }
  exists w'. split; [by rewrite addAuthorizationFor_unfold|].
  split; [split; [done|by rewrite (tr_settings _ _ _ _ Htr)]|].
  split; [by eapply tracks_extends|].
  intros v m -> Hv1 Hv2 -> Hin.
  rewrite (Hw v eq_refl Hv1 Hv2), Hty in Hl. simpl in Hl.
  exists l, q. split; [done|]. split; [done|].
  apply Hsub. rewrite Hm. by apply elem_of_list_to_set.
Qed.

End ParsingSteps.

Section ParsingGraphs.

Import PermissionSet.

Section ParsingGraph.

Lemma elem_of_match_o gr o tr :
  tr ∈ Graph.match_o gr o <-> tr ∈ gr /\ Graph.object tr = o.
Proof.
  unfold Graph.match_o. rewrite !list_elem_of_In, List.filter_In.
  by rewrite String.eqb_eq.
Qed.

Lemma authSections_typed graph fragment p :
  Graph.mkTriple fragment p Graph.acl_Authorization ∈ graph ->
  fragment ∈ authSections graph.
Proof.
  intros Hin. unfold authSections.
  assert (H : Graph.mkTriple fragment p Graph.acl_Authorization
              ∈ Graph.match_o graph Graph.acl_Authorization)
    by (by apply elem_of_match_o).
  destruct (Graph.match_o graph Graph.acl_Authorization) as [|tr l] eqn:E.
  - by apply elem_of_nil in H.
  - apply list_elem_of_fmap. eexists. split; [|exact H]. done.
Qed.

Lemma section_agents_stated graph fragment agentMatch :
  agentMatch
  ∈ (((fun ea => Permission.PTerm (statement ea))
        <$> List.filter (fun ea => negb (isMailTo (statement ea)))
              (Graph.match_sp graph fragment Graph.acl_agent))
     ++ ((fun ea => Permission.PTerm (statement ea))
           <$> Graph.match_spo graph fragment Graph.acl_agentClass EVERYONE)
     ++ (Permission.PListing
           <$> ((fun ea => GroupListing.new_listing (statement ea))
                  <$> Graph.match_sp graph fragment Graph.acl_agentGroup)))%list
  -> stated_principal agentMatch.
Proof.
  rewrite !elem_of_app, !list_elem_of_fmap.
  intros [(tr & -> & _)|[(tr & -> & _)|(gl & -> & (tr & -> & _)%list_elem_of_fmap)]];
    simpl; eauto.
Qed.

Variable s0 : PermissionSet.t.
Variable graph : Graph.t.
Hypothesis Hacl : forall u, truthy (Some u) = true ->
                            truthy (Some (aclUrlFor s0 u)) = true.
Hypothesis Hurls : resources_stated graph.

Lemma read_agent_step fragment accessModes origins mailTos agentMatch w :
  stated_principal agentMatch -> parsing s0 w ->
  exists w',
    read_agent graph fragment accessModes origins mailTos agentMatch w
    = (Ok tt, w')
    /\ parsing s0 w' /\ extends w w'.
Proof.
  intros Hagent Hw. unfold read_agent.
  destruct (for_each_run (parsing s0) extends extends_refl extends_trans
              (Graph.match_sp graph fragment Graph.acl_accessTo)
              (fun resourceMatch =>
                 addAuthorizationFor (Graph.object resourceMatch) NOT_INHERIT
                   agentMatch (statement <$> accessModes)
                   (statement <$> origins) (statement <$> mailTos)))
    with (w := w) as (w1 & Hrun1 & Hw1 & HR1); [|done|].
  { intros tr w0 Htr Hw0. apply elem_of_match_sp in Htr as (Hin & _ & Hp).
    destruct (addAuthorizationFor_step s0 w0 (Graph.object tr) NOT_INHERIT
                agentMatch (statement <$> accessModes) (statement <$> origins)
                (statement <$> mailTos) Hacl Hw0 Hagent)
      as (w' & ? & ? & ? & _); [apply (Hurls tr Hin); auto|eauto]. }
  destruct (for_each_run (parsing s0) extends extends_refl extends_trans
              (Graph.match_sp graph fragment Graph.acl_default
               ++ Graph.match_sp graph fragment Graph.acl_defaultForNew)%list
              (fun containerMatch =>
                 addAuthorizationFor (Graph.object containerMatch) INHERIT
                   agentMatch (statement <$> accessModes)
                   (statement <$> origins) (statement <$> mailTos)))
    with (w := w1) as (w2 & Hrun2 & Hw2 & HR2); [|done|].
  { intros tr w0 Htr Hw0.
    assert (Htr' : tr ∈ graph
                   /\ (Graph.predicate tr = Graph.acl_default
                       \/ Graph.predicate tr = Graph.acl_defaultForNew)).
    { apply elem_of_app in Htr as [Htr|Htr];
        apply elem_of_match_sp in Htr as (Hin & _ & Hp); auto. }
    destruct Htr' as (Hin & Hp).
    destruct (addAuthorizationFor_step s0 w0 (Graph.object tr) INHERIT
                agentMatch (statement <$> accessModes) (statement <$> origins)
                (statement <$> mailTos) Hacl Hw0 Hagent)
      as (w' & ? & ? & ? & _); [apply (Hurls tr Hin); tauto|eauto]. }
  exists w2. rewrite (bind_Ok _ _ _ _ _ Hrun1).
  split; [done|]. split; [done|]. by eapply extends_trans.
Qed.

Lemma read_section_step fragment w :
  parsing s0 w ->
  exists w', read_section graph fragment w = (Ok tt, w')
             /\ parsing s0 w' /\ extends w w'.
Proof.
  intros Hw. unfold read_section.
  apply (for_each_run (parsing s0) extends extends_refl extends_trans);
    [|done].
  intros agentMatch w0 Hin Hw0.
  apply read_agent_step; [|done]. by eapply section_agents_stated.
Qed.


(** In a set with the RDF library, a stated agent, resource and mode give
    a direct entry. *)
Lemma initFromGraph_direct w fragment v u m :
  parsing s0 w ->
  rdf (this w) = true ->
  fragment ∈ authSections graph ->
  Graph.mkTriple fragment Graph.acl_agent v ∈ graph ->
  truthy (Some v) = true -> startsWith v "mailto:" = false ->
  Graph.mkTriple fragment Graph.acl_accessTo u ∈ graph ->
  Graph.mkTriple fragment Graph.acl_mode m ∈ graph ->
  exists w', initFromGraph graph w = (Ok tt, w')
             /\ parsing s0 w' /\ extends w w' /\ direct_entry v u m w'.
Proof.
  intros Hw Hrdf Hsec Hagent Hv Hmail Hres Hmode. unfold initFromGraph.
  rewrite (bind_Ok _ _ w (this w) w) by done. rewrite Hrdf.
  apply (for_each_establishes (parsing s0) extends extends_refl extends_trans
           _ _ (direct_entry v u m) fragment); try done.
  - intros fr w0 _ Hw0. by apply read_section_step.
  - (* the section of the statement *)
    intros w0 w0' Hw0 Hrun0. unfold read_section in Hrun0.
    match type of Hrun0 with
    | for_each ?l ?f w0 = _ =>
        destruct (for_each_establishes (parsing s0) extends extends_refl
                    extends_trans l f (direct_entry v u m)
                    (Permission.PTerm (Node v))) with (w := w0)
          as (w1 & Hrun1 & _ & _ & HQ)
    end.
    + apply elem_of_app. left. apply list_elem_of_fmap.
      exists (Graph.mkTriple fragment Graph.acl_agent v). split; [done|].
      apply list_elem_of_In, List.filter_In. split.
      * apply list_elem_of_In. by apply elem_of_match_sp.
      * unfold isMailTo, statement. simpl. by rewrite Hmail.
    + intros agentMatch w2 Hin Hw2.
      apply read_agent_step; [|done]. by eapply section_agents_stated.
    + (* the agent of the statement *)
      intros w2 w2' Hw2 Hrun2. unfold read_agent in Hrun2.
      apply bind_inv in Hrun2 as ([] & w3 & Hrun3 & Hrun4).
      match type of Hrun3 with
      | for_each ?l ?f w2 = _ =>
          destruct (for_each_establishes (parsing s0) extends extends_refl
                      extends_trans l f (direct_entry v u m)
                      (Graph.mkTriple fragment Graph.acl_accessTo u))
            with (w := w2) as (w3' & Hrun3' & Hw3 & _ & HQ)
      end.
      * by apply elem_of_match_sp.
      * intros tr w4 Htr Hw4.
        apply elem_of_match_sp in Htr as (Hin & _ & Hp).
        destruct (addAuthorizationFor_step s0 w4 (Graph.object tr) NOT_INHERIT
                    (Permission.PTerm (Node v))
                    (statement <$> Graph.match_sp graph fragment Graph.acl_mode)
                    (statement
                       <$> Graph.match_sp graph fragment Graph.acl_origin)
                    (statement
                       <$> List.filter (fun ea => isMailTo (statement ea))
                             (Graph.match_sp graph fragment Graph.acl_agent))
                    Hacl Hw4 I)
          as (w' & ? & ? & ? & _); [apply (Hurls tr Hin); auto|eauto].
      * intros w4 w4' Hw4 Hrun4'. simpl in Hrun4'.
        destruct (addAuthorizationFor_step s0 w4 u NOT_INHERIT
                    (Permission.PTerm (Node v))
                    (statement <$> Graph.match_sp graph fragment Graph.acl_mode)
                    (statement
                       <$> Graph.match_sp graph fragment Graph.acl_origin)
                    (statement
                       <$> List.filter (fun ea => isMailTo (statement ea))
                             (Graph.match_sp graph fragment Graph.acl_agent))
                    Hacl Hw4 I)
          as (w' & Hrun' & _ & _ & Hentry);
          [apply (Hurls _ Hres); auto|].
        rewrite Hrun' in Hrun4'. injection Hrun4' as <-.
        apply Hentry; try done.
        rewrite <- list_fmap_compose. apply list_elem_of_fmap.
        exists (Graph.mkTriple fragment Graph.acl_mode m). split; [done|].
        by apply elem_of_match_sp.
      * apply direct_entry_extends.
      * done.
      * (* the inherited authorizations of the agent keep the entry *)
        rewrite Hrun3 in Hrun3'. injection Hrun3' as <-.
        match type of Hrun4 with
        | for_each ?l ?f w3 = _ =>
            destruct (for_each_run (parsing s0) extends extends_refl
                        extends_trans l f) with (w := w3)
              as (w5 & Hrun5 & _ & HR5)
        end.
        -- intros tr w4 Htr Hw4.
           assert (Htr' : tr ∈ graph
                          /\ (Graph.predicate tr = Graph.acl_default
                              \/ Graph.predicate tr = Graph.acl_defaultForNew)).
           { apply elem_of_app in Htr as [Htr|Htr];
               apply elem_of_match_sp in Htr as (Hin & _ & Hp); auto. }
           destruct Htr' as (Hin & Hp).
           destruct (addAuthorizationFor_step s0 w4 (Graph.object tr) INHERIT
                       (Permission.PTerm (Node v))
                       (statement
                          <$> Graph.match_sp graph fragment Graph.acl_mode)
                       (statement
                          <$> Graph.match_sp graph fragment Graph.acl_origin)
                       (statement
                          <$> List.filter (fun ea => isMailTo (statement ea))
                                (Graph.match_sp graph fragment Graph.acl_agent))
                       Hacl Hw4 I)
             as (w' & ? & ? & ? & _); [apply (Hurls tr Hin); tauto|eauto].
        -- done.
        -- rewrite Hrun4 in Hrun5. injection Hrun5 as <-.
           by eapply direct_entry_extends.
    + apply direct_entry_extends.
    + done.
    + rewrite Hrun0 in Hrun1. by injection Hrun1 as <-.
  - apply direct_entry_extends.
Qed.

End ParsingGraph.

End ParsingGraphs.

Section Parsed.

Import PermissionSet.


(** X20: after [initFromGraph], an agent that a section of type
    [acl:Authorization] names by [acl:agent], with [acl:accessTo] of a
    resource and an [acl:mode], is granted that mode for the resource by
    [checkAccess], when the set has the RDF library and the origin is not
    checked. The agent id is not empty and is not a [mailto:] address. *)
Theorem X20_initFromGraph_grants_stated (w : world) (graph : Graph.t)
    (fragment agent url modeUrl mode : string)
    (Hwf : wf w)
    (Hrdf : rdf (this w) = true)
    (Hacl : forall u, truthy (Some u) = true ->
                      truthy (Some (aclUrlFor (this w) u)) = true)
    (Hurls : resources_stated graph)
    (Htyped : Graph.mkTriple fragment Graph.rdf_type Graph.acl_Authorization
              ∈ graph)
    (Hagent : Graph.mkTriple fragment Graph.acl_agent agent ∈ graph)
    (Hagent_id : truthy (Some agent) = true)
    (Hnot_mailto : startsWith agent "mailto:" = false)
    (Hresource : Graph.mkTriple fragment Graph.acl_accessTo url ∈ graph)
    (Hmode_stated : Graph.mkTriple fragment Graph.acl_mode modeUrl ∈ graph)
    (Hmode : Permission.allowsMode mode
               (Permission.addMode (One (Str modeUrl))
                  (Permission.new None false)) = true)
    (Horigin : origin_unchecked (this w)) :
  exists w',
    initFromGraph graph w = (Ok tt, w')
    /\ wf w'
    /\ forall agentOptions,
         run (checkAccess url agent mode agentOptions) w'
         = (Ok (Resolved true), w').
Proof.
  destruct (initFromGraph_direct (this w) graph Hacl Hurls w fragment agent
              url modeUrl)
    as (w' & Hrun & [Hwf' Hs] & Hext & (l & q & Hl & Hq & Hm)); try done.
  { by eapply authSections_typed. }
  exists w'. split; [done|]. split; [done|].
  intros agentOptions. apply checkAccess_granted; [done| |right].
  { apply (Hurls _ Hresource). auto. }
  apply (granted_intro w' url agent mode l q).
  - by apply findAuthByAgent_direct.
  - done.
  - rewrite (checkOrigin_ext (this w') (this w) q q);
      [by apply checkOrigin_unchecked|done|done].
  - eapply allowsMode_mono; [|exact Hmode]. simpl. set_solver.
Qed.

End Parsed.

(* ===================================================================== *)
(** * Writing the permissions to a graph *)
(* ===================================================================== *)

Section Serializing.

Import PermissionSet.

Lemma elem_of_add tr sts g :
  tr ∈ Graph.add sts g <-> tr ∈ g \/ tr ∈ sts.
Proof.
  unfold Graph.add. revert g. induction sts as [|st sts IH]; intros g; simpl.
  - rewrite elem_of_nil. tauto.
  - rewrite IH, elem_of_cons. case_bool_decide as Hst.
    + split; [tauto|]. intros [?|[->|?]]; auto.
    + rewrite elem_of_app, list_elem_of_singleton. tauto.
Qed.

Lemma elem_of_allAuthorizations l s :
  l ∈ allAuthorizations s <-> exists h, authorizations s !! h = Some l.
Proof.
  unfold allAuthorizations. rewrite list_elem_of_fmap. split.
  - intros ([h l'] & -> & Hin). apply elem_of_map_to_list in Hin. eauto.
  - intros [h Hh]. exists (h, l). split; [done|].
    by apply elem_of_map_to_list.
Qed.

(** The statements of a permission: none for a virtual or incomplete
    permission; otherwise statements about its own node, and the objects
    of [acl:accessTo] and [acl:default] are its resource URL. *)
Lemma rdfStatements_elem p :
  exists sts,
    Permission.rdfStatements p = Ok sts
    /\ forall tr,
         tr ∈ sts ->
         Permission.virtual p = false
         /\ truthy (Permission.webId p) = true
         /\ exists h u,
              Permission.hashFragment p = Ok h
              /\ Permission.resourceUrl p = Some u
              /\ truthy (Some u) = true
              /\ Graph.subject tr = "#" +:+ h
              /\ (Graph.predicate tr = Graph.acl_accessTo
                  \/ Graph.predicate tr = Graph.acl_default
                  \/ Graph.predicate tr = Graph.acl_defaultForNew ->
                  Graph.object tr = u).
Proof.
  unfold Permission.rdfStatements.
  destruct (truthy (Permission.webId p)) eqn:Hw; simpl;
    [|eexists; split; [reflexivity|]; intros tr H; by apply elem_of_nil in H].
  destruct (truthy (Permission.resourceUrl p)) eqn:Hu; simpl;
    [|eexists; split; [reflexivity|]; intros tr H; by apply elem_of_nil in H].
  destruct (Permission.virtual p) eqn:Hv;
    [eexists; split; [reflexivity|]; intros tr H; by apply elem_of_nil in H|].
  rewrite (hashFragment_Ok p Hu).
  destruct (Permission.resourceUrl p) as [u|] eqn:Hurl; [|done].
  eexists. split; [reflexivity|].
  intros tr Htr. split; [done|]. split; [done|].
  eexists _, u. split; [reflexivity|]. split; [done|]. split; [done|].
  assert (Hno : forall x : string,
             x = Graph.acl_accessTo \/ x = Graph.acl_default
             \/ x = Graph.acl_defaultForNew ->
             x <> Graph.rdf_type /\ x <> Graph.acl_agent
             /\ x <> Graph.acl_agentClass /\ x <> Graph.acl_agentGroup
             /\ x <> Graph.acl_mode /\ x <> Graph.acl_origin).
  { intros x [ -> | [ -> | -> ] ]; repeat split; discriminate. }
  repeat (rewrite elem_of_cons in Htr || rewrite elem_of_app in Htr).
  destruct Htr as [Htr|[Htr|[Htr|[Htr|[Htr|[Htr|[Htr|Htr]]]]]]].
  - subst tr. simpl.
    split; [done|]. intros H. by destruct (Hno _ H) as (? & _).
  - destruct (Permission.isAgent p); [|by apply elem_of_nil in Htr].
    apply list_elem_of_singleton in Htr as ->. simpl.
    split; [done|]. intros H. by destruct (Hno _ H) as (_ & ? & _).
  - apply list_elem_of_fmap in Htr as (m & -> & _). simpl.
    split; [done|]. intros H. by destruct (Hno _ H) as (_ & ? & _).
  - destruct (Permission.isPublic p).
    + apply list_elem_of_singleton in Htr as ->. simpl.
      split; [done|]. intros H. by destruct (Hno _ H) as (_ & _ & ? & _).
    + destruct (Permission.isGroup p); [|by apply elem_of_nil in Htr].
      apply list_elem_of_singleton in Htr as ->. simpl.
      split; [done|]. intros H. by destruct (Hno _ H) as (_ & _ & _ & ? & _).
  - subst tr. simpl. done.
  - apply list_elem_of_fmap in Htr as (m & -> & _). simpl.
    split; [done|]. intros H. by destruct (Hno _ H) as (_ & _ & _ & _ & ? & _).
  - destruct (Permission.inherited p); [|by apply elem_of_nil in Htr].
    apply list_elem_of_singleton in Htr as ->. simpl. done.
  - apply list_elem_of_fmap in Htr as (m & -> & _). simpl.
    split; [done|]. intros H. by destruct (Hno _ H) as (_ & _ & _ & _ & _ & ?).
Qed.

(** The statements of a complete agent permission. *)
Lemma rdfStatements_agent p h a u m :
  Permission.virtual p = false -> Permission.agent p = Some a ->
  truthy (Some a) = true -> Permission.resourceUrl p = Some u ->
  Permission.hashFragment p = Ok h -> m ∈ Permission.accessModes p ->
  exists sts,
    Permission.rdfStatements p = Ok sts
    /\ Graph.mkTriple ("#" +:+ h) Graph.rdf_type Graph.acl_Authorization ∈ sts
    /\ Graph.mkTriple ("#" +:+ h) Graph.acl_agent a ∈ sts
    /\ Graph.mkTriple ("#" +:+ h) Graph.acl_accessTo u ∈ sts
    /\ Graph.mkTriple ("#" +:+ h) Graph.acl_mode m ∈ sts.
Proof.
  intros Hv Ha Hat Hu Hh Hm. unfold Permission.rdfStatements.
  assert (Hut : truthy (Permission.resourceUrl p) = true).
  { unfold Permission.hashFragment in Hh.
    destruct (truthy (Permission.resourceUrl p)); [done|].
    rewrite orb_true_r in Hh. discriminate Hh. }
  assert (Hw : truthy (Permission.webId p) = true).
  { unfold Permission.webId, or_else. by rewrite Ha, Hat. }
  rewrite Hw, Hut, Hv, Hh. simpl.
  unfold Permission.isAgent. rewrite Ha, Hat, Hu. simpl.
  eexists. split; [reflexivity|].
  repeat apply conj;
    repeat (rewrite elem_of_cons || rewrite elem_of_app).
  - by left.
  - right. by left.
  - do 4 right. by left.
  - do 5 right. left.
    apply list_elem_of_fmap. exists m. split; [done|].
    unfold Permission.allModes. by apply elem_of_elements.
Qed.

Lemma buildGraph_run w :
  wf w ->
  exists g,
    buildGraph w = (Ok g, w)
    /\ forall tr,
         tr ∈ g <->
         exists h l p sts,
           authorizations (this w) !! h = Some l /\ heap w !! l = Some p
           /\ Permission.rdfStatements p = Ok sts /\ tr ∈ sts.
Proof.
  intros Hwf. unfold buildGraph.
  rewrite (bind_Ok _ _ w (this w) w) by done.
  assert (H : forall (ls : list nat) (acc : M Graph.t) g0,
            acc w = (Ok g0, w) ->
            (forall l, l ∈ ls -> l ∈ allAuthorizations (this w)) ->
            exists g,
              foldl
                (fun (acc : M Graph.t) auth =>
                   graph <~ acc ;;
                   p <~ deref auth ;;
                   statements <~ lift (Permission.rdfStatements p) ;;
                   ret (Graph.add statements graph)) acc ls w = (Ok g, w)
              /\ forall tr,
                   tr ∈ g <->
                   tr ∈ g0
                   \/ exists l p sts,
                        l ∈ ls /\ heap w !! l = Some p
                        /\ Permission.rdfStatements p = Ok sts /\ tr ∈ sts).
  { induction ls as [|l ls IH]; intros acc g0 Hacc Hls; simpl.
    - exists g0. split; [done|]. intros tr. split; [auto|].
      intros [?|(l & p & sts & Hin & _)]; [done|by apply elem_of_nil in Hin].
    - assert (Hl : l ∈ allAuthorizations (this w)) by (apply Hls; by left).
      apply elem_of_allAuthorizations in Hl as (h & Hh).
      destruct (wf_authorizations w Hwf h l Hh) as (p & Hp & _).
      destruct (rdfStatements_elem p) as (sts & Hsts & _).
      destruct (IH (graph <~ acc ;;
                    p <~ deref l ;;
                    statements <~ lift (Permission.rdfStatements p) ;;
                    ret (Graph.add statements graph)) (Graph.add sts g0))
        as (g & Hrun & Hg).
      { rewrite (bind_Ok _ _ _ _ _ Hacc).
        rewrite (bind_Ok _ _ _ _ _ (deref_Some _ _ _ Hp)).
        by rewrite Hsts. }
      { intros l' Hl'. apply Hls. by right. }
      exists g. split; [done|]. intros tr. rewrite Hg, elem_of_add.
      split.
      + intros [[?|Htr]|(l' & p' & sts' & Hin & ?)]; [by left| |].
        * right. exists l, p, sts. split; [by left|done].
        * right. exists l', p', sts'. split; [by right|done].
      + intros [?|(l' & p' & sts' & Hin & Hp' & Hsts' & Htr)]; [auto|].
        apply elem_of_cons in Hin as [->|Hin].
        * left. right. congruence.
        * right. exists l', p', sts'. done. }
  destruct (H (allAuthorizations (this w)) (ret []) [] eq_refl)
    as (g & Hrun & Hg); [done|].
  exists g. split; [done|]. intros tr. rewrite Hg. split.
  - intros [Hnil|(l & p & sts & Hin & Hp & Hsts & Htr)];
      [by apply elem_of_nil in Hnil|].
    apply elem_of_allAuthorizations in Hin as (h & Hh).
    exists h, l, p, sts. done.
  - intros (h & l & p & sts & Hh & Hp & Hsts & Htr). right.
    exists l, p, sts. split; [|done].
    apply elem_of_allAuthorizations. eauto.
Qed.

(** X21: [buildGraph] does not change the set, and the graph has exactly
    the statements of the permissions of the collection. Each statement is
    about the node ['#' + hash fragment] of a stored permission that is not
    virtual and has a principal, and the resource URLs of the graph are not
    empty. *)
Theorem X21_buildGraph_statements (w : world) (Hwf : wf w) :
  exists g,
    run buildGraph w = (Ok g, w)
    /\ (forall tr,
          tr ∈ g <->
          exists h l p sts,
            authorizations (this w) !! h = Some l /\ heap w !! l = Some p
            /\ Permission.rdfStatements p = Ok sts /\ tr ∈ sts)
    /\ (forall tr,
          tr ∈ g ->
          exists h l p,
            authorizations (this w) !! h = Some l /\ heap w !! l = Some p
            /\ Permission.virtual p = false
            /\ truthy (Permission.webId p) = true
            /\ Graph.subject tr = "#" +:+ h)
    /\ resources_stated g.
Proof.
  destruct (buildGraph_run w Hwf) as (g & Hrun & Hg).
  exists g. split; [done|]. split; [done|]. split.
  - intros tr (h & l & p & sts & Hh & Hp & Hsts & Htr)%Hg.
    destruct (rdfStatements_elem p) as (sts' & Hsts' & Helem).
    assert (sts' = sts) by congruence. subst sts'.
    destruct (Helem tr Htr) as (Hv & Hw & h' & u & Hh' & _ & _ & Hs & _).
    destruct (wf_authorizations w Hwf h l Hh) as (p' & Hp' & Hhp).
    assert (p' = p) by congruence. subst p'.
    assert (h' = h) by congruence. subst h'.
    exists h, l, p. done.
  - intros tr (h & l & p & sts & Hh & Hp & Hsts & Htr)%Hg Hpred.
    destruct (rdfStatements_elem p) as (sts' & Hsts' & Helem).
    assert (sts' = sts) by congruence. subst sts'.
    destruct (Helem tr Htr) as (_ & _ & h' & u & _ & _ & Hu & _ & Hobj).
    by rewrite (Hobj Hpred).
Qed.

End Serializing.

Section WriteRead.

Import PermissionSet.

(** X22: a permission of the collection that grants a mode to an agent
    survives writing and reading: [initFromGraph] of the graph of
    [buildGraph], run in any well-formed set that has the RDF library and
    does not check the origin, returns, and [checkAccess] then grants the
    agent that mode for the resource of the permission. The permission is
    not virtual, and its agent id is not empty and is not a [mailto:]
    address. *)
Theorem X22_written_permissions_are_read_back (w w0 : world)
    (h agent url modeUrl mode : string) (l : nat) (p : Permission.t)
    (Hwf : wf w)
    (Hstored : authorizations (this w) !! h = Some l)
    (Hp : heap w !! l = Some p)
    (Hvirtual : Permission.virtual p = false)
    (Hagent : Permission.agent p = Some agent)
    (Hagent_id : truthy (Some agent) = true)
    (Hnot_mailto : startsWith agent "mailto:" = false)
    (Hurl : Permission.resourceUrl p = Some url)
    (Hmode_granted : modeUrl ∈ Permission.accessModes p)
    (Hmode : Permission.allowsMode mode
               (Permission.addMode (One (Str modeUrl))
                  (Permission.new None false)) = true)
    (Hwf0 : wf w0)
    (Hrdf0 : rdf (this w0) = true)
    (Hacl0 : forall u, truthy (Some u) = true ->
                       truthy (Some (aclUrlFor (this w0) u)) = true)
    (Horigin0 : origin_unchecked (this w0)) :
  exists g w',
    run buildGraph w = (Ok g, w)
    /\ run (initFromGraph g) w0 = (Ok tt, w')
    /\ wf w'
    /\ forall agentOptions,
         run (checkAccess url agent mode agentOptions) w'
         = (Ok (Resolved true), w').
Proof.
  destruct (buildGraph_run w Hwf) as (g & Hrun & Hg).
  destruct (wf_authorizations w Hwf h l Hstored) as (p' & Hp' & Hh).
  assert (p' = p) by congruence. subst p'.
  destruct (rdfStatements_agent p h agent url modeUrl Hvirtual Hagent
              Hagent_id Hurl Hh Hmode_granted)
    as (sts & Hsts & H1 & H2 & H3 & H4).
  assert (Hin : forall tr, tr ∈ sts -> tr ∈ g).
  { intros tr Htr. apply Hg. exists h, l, p, sts. done. }
  assert (Hurls : resources_stated g).
  { intros tr (h' & l' & q & sts' & Hh' & Hq & Hsts' & Htr)%Hg Hpred.
    destruct (rdfStatements_elem q) as (sts'' & Hsts'' & Helem).
    assert (sts'' = sts') by congruence. subst sts''.
    destruct (Helem tr Htr) as (_ & _ & h'' & u & _ & _ & Hu & _ & Hobj).
    by rewrite (Hobj Hpred). }
  destruct (initFromGraph_direct (this w0) g Hacl0 Hurls w0 ("#" +:+ h) agent
              url modeUrl)
    as (w' & Hrun' & [Hwf' Hs] & Hext & (l' & q & Hl & Hq & Hm)); auto.
  { by split. }
  { eapply authSections_typed. apply Hin. exact H1. }
  exists g, w'. split; [done|]. split; [done|]. split; [done|].
  intros agentOptions. apply checkAccess_granted; [done| |right].
  { apply (Hurls _ (Hin _ H3)). auto. }
  apply (granted_intro w' url agent mode l' q).
  - by apply findAuthByAgent_direct.
  - done.
  - rewrite (checkOrigin_ext (this w') (this w0) q q);
      [by apply checkOrigin_unchecked|done|done].
  - eapply allowsMode_mono; [|exact Hmode]. simpl. set_solver.
Qed.

End WriteRead.

(* ===================================================================== *)
(** * Consistency of the reachable stores, and group access *)
(* ===================================================================== *)

Section Consistency.

Import PermissionSet.

Lemma reachable_settings url acl_url isContainer o w :
  opt_aclUrlFor o = None ->
  reachable (init url acl_url isContainer o) w ->
  settings (this w) = settings (this (init url acl_url isContainer o)).
Proof.
  intros Ho Hreach.
  induction Hreach as [|w webId accessMode origin w' Hreach IH Hrun
                        |w webId accessMode w' Hreach IH Hrun
                        |w webId accessMode w' Hreach IH Hrun
                        |w u agentId mode lo Hreach IH].
  - reflexivity.
  - apply addPermission_inv in Hrun as (r & _ & _ & Hr & Hrun).
    destruct (add_fresh_tracks w _ r w' Hr Hrun) as (Htr & _).
    by rewrite (tr_settings _ _ _ _ Htr).
  - apply addGroupPermission_inv in Hrun as (r & _ & _ & Hr & Hrun).
    destruct (add_fresh_tracks w _ r w' Hr Hrun) as (Htr & _).
    by rewrite (tr_settings _ _ _ _ Htr).
  - pose proof (reachable_wf _ _ _ _ _ Ho Hreach) as Hwf.
    destruct (removePermission_ok w webId accessMode Hwf)
      as (w'' & Hrun' & _ & Hs'').
    rewrite Hrun in Hrun'. injection Hrun' as <-. congruence.
  - by rewrite checkAccess_settings.
Qed.

(** X23: every store reached from a new set (with the default rule for
    ACL URLs) by [addPermission], [addGroupPermission], [removePermission]
    and [checkAccess] is consistent. An entry of the collection is an
    object of the store filed under its own hash fragment; an entry of an
    index is an object of the principal, the access type and the resource
    it is filed under; the resource URL, the ACL URL, the resource type and
    the origin settings are those given to the constructor. *)
Theorem X23_methods_keep_the_set_consistent
    (url acl_url : option string) (isContainer : bool) (o : options)
    (w : world)
    (Hdefault : opt_aclUrlFor o = None)
    (Hreach : reachable (init url acl_url isContainer o) w) :
  (forall h l,
     authorizations (this w) !! h = Some l ->
     exists p, heap w !! l = Some p /\ Permission.hashFragment p = Ok h)
  /\ (forall i webId ty u l,
        lookup3 (authsBy (this w) i) webId ty u = Some l ->
        exists p, heap w !! l = Some p
                  /\ string_of_null (Permission.webId p) = webId
                  /\ Permission.accessType p = ty
                  /\ Permission.resourceUrl p = Some u)
  /\ resourceUrl (this w) = url
  /\ aclUrl (this w) = acl_url
  /\ resourceType (this w) = (if isContainer then CONTAINER else RESOURCE)
  /\ PermissionSet.origin (this w) = opt_origin o
  /\ strictOrigin (this w) = opt_strictOrigin o.
Proof.
  pose proof (reachable_wf _ _ _ _ _ Hdefault Hreach) as [Ha Hi].
  pose proof (reachable_settings _ _ _ _ _ Hdefault Hreach) as Hs.
  split; [exact Ha|]. split.
  - intros i webId ty u l Hl.
    destruct (Hi i webId ty u l Hl) as (p & Hp & H1 & H2 & H3 & _). eauto.
  - unfold settings in Hs. injection Hs as ? ? ? ? ? ? ? ? ?.
    simpl in *. by destruct isContainer.
Qed.

(** X24: [checkGroupAccess] does not change the set, and answers [true]
    exactly when a group listing of the cache has the agent as a member and
    the permission found for that group allows the mode. A group whose
    listing is not in the cache grants nothing. *)
Theorem X24_checkGroupAccess_needs_loaded_listing (w : world)
    (url agentId mode : string) (Hwf : wf w) :
  exists b,
    run (checkGroupAccess url agentId mode) w = (Ok b, w)
    /\ (b = true <->
        exists G g,
          groups (this w) !! G = Some g
          /\ GroupListing.hasMember (Str agentId) g = true
          /\ granted w url G mode = true).
Proof.
  eexists. split; [by apply checkGroupAccess_run|].
  rewrite existsb_exists. split.
  - intros (G & HG & Hg). apply list_elem_of_In, groupsForMember_elem in HG.
    destruct HG as (g & Hg1 & Hg2). eauto.
  - intros (G & g & H1 & H2 & H3). exists G. split; [|done].
    apply list_elem_of_In, groupsForMember_elem. eauto.
Qed.

End Consistency.

(* ===================================================================== *)
(** * Instances of the properties *)
(* ===================================================================== *)

Section Instances.

Import PermissionSet.

Lemma X1_addMode_removeMode_round_trip_witness :
  let p := Permission.new (Some "https://alice.example.com/docs/file1") false in
  Permission.removeMode (Many [Str READ; Str WRITE])
    (Permission.addMode (Many [Str READ; Str WRITE]) p) = p.
Proof.
  intros p.
  destruct (X1_addMode_removeMode_round_trip (Many [Str READ; Str WRITE]) p)
    as (_ & _ & _ & _ & _ & _ & H & _).
  apply H. vm_compute. set_solver.
Defined.

Lemma X8_loadFrom_listing_witness :
  let accounting := "https://alice.example.com/work-groups#Accounting" in
  let bob := "https://bob.example.com/profile/card#me" in
  let gr := [Graph.mkTriple accounting Graph.vcard_hasMember bob] in
  exists g,
    GroupListing.loadFrom accounting (fun _ => Resolved (Some gr)) true
    = Resolved (Some g)
    /\ GroupListing.hasMember (Str bob) g = true.
Proof.
  intros accounting bob gr.
  destruct (X8_loadFrom_listing accounting (fun _ => Resolved (Some gr)) gr)
    as [(g & Hload & _ & _ & Hm) _]; [reflexivity|reflexivity|].
  exists g. split; [exact Hload|].
  apply Hm; [reflexivity|]. apply list_elem_of_singleton. reflexivity.
Defined.

Lemma X9_defaultAclUrlFor_idempotent_witness :
  PermissionSet.defaultAclUrlFor "https://alice.example.com/docs/file1.acl"
  = "https://alice.example.com/docs/file1.acl".
Proof.
  destruct (X9_defaultAclUrlFor_idempotent
              "https://alice.example.com/docs/file1.acl")
    as (_ & _ & [H _] & _).
  apply H. reflexivity.
Defined.

Lemma X10_addPermission_returns_iff_witness :
  let file1 := "https://alice.example.com/docs/file1" in
  let bob := "https://bob.example.com/#me" in
  let w := init (Some file1) None false no_options in
  eval (addPermission bob (One (Str READ)) None) w = Ok tt
  /\ run (addPermission "" (One (Str READ)) None) w
     = (Throw "addPermission() requires a valid webId", w).
Proof.
  intros file1 bob w.
  destruct (X10_addPermission_returns_iff w bob (One (Str READ)) None)
    as ([_ H1] & _).
  - apply wf_init.
  - intros u Hu. by apply defaultAclUrlFor_truthy.
  - destruct (X10_addPermission_returns_iff w "" (One (Str READ)) None)
      as (_ & H2 & _).
    + apply wf_init.
    + intros u Hu. by apply defaultAclUrlFor_truthy.
    + split; [apply H1; repeat split; reflexivity | apply H2; reflexivity].
Defined.

Lemma X11_addPermission_grants_access_witness :
  let file1 := "https://alice.example.com/docs/file1" in
  let bob := "https://bob.example.com/#me" in
  let w := init (Some file1) None false no_options in
  exists w',
    addPermission bob (One (Str WRITE)) None w = (Ok tt, w')
    /\ run (checkAccess file1 bob "Append" (mkLoadOptions None false)) w'
       = (Ok (Resolved true), w').
Proof.
  intros file1 bob w.
  destruct (X11_addPermission_grants_access w bob file1 "Append"
              (One (Str WRITE)) None) as (w' & Hrun & _ & Hcheck).
  - apply wf_init.
  - reflexivity.
  - reflexivity.
  - reflexivity.
  - reflexivity.
  - reflexivity.
  - vm_compute. reflexivity.
  - vm_compute. reflexivity.
  - left. reflexivity.
  - left. left. reflexivity.
  - exists w'. split; [exact Hrun|apply Hcheck].
Defined.

Lemma X12_group_permission_grants_members_witness :
  let file2 := "https://alice.example.com/docs/file2.ttl" in
  let accounting := "https://alice.example.com/work-groups#Accounting" in
  let bob := "https://bob.example.com/profile/card#me" in
  let gr := [Graph.mkTriple accounting Graph.vcard_hasMember bob] in
  let w := init (Some file2) None false no_options in
  exists w',
    addGroupPermission accounting (One (Str READ)) w = (Ok tt, w')
    /\ eval (checkAccess file2 bob READ
               (mkLoadOptions (Some (fun _ => Resolved (Some gr))) true)) w'
       = Ok (Resolved true).
Proof.
  intros file2 accounting bob gr w.
  destruct (X12_group_permission_grants_members w accounting bob file2 READ
              (One (Str READ)) (fun _ => Resolved (Some gr)) gr true)
    as (w' & Hrun & _ & _ & Hcheck).
  - apply wf_init.
  - reflexivity.
  - discriminate.
  - reflexivity.
  - reflexivity.
  - reflexivity.
  - vm_compute. reflexivity.
  - vm_compute. reflexivity.
  - left. reflexivity.
  - left. reflexivity.
  - reflexivity.
  - reflexivity.
  - apply list_elem_of_singleton. reflexivity.
  - exists w'. split; [exact Hrun|exact Hcheck].
Defined.

Lemma X13_public_permission_grants_everyone_witness :
  let file1 := "https://alice.example.com/docs/file1" in
  let mallory := "https://mallory.example.com/#me" in
  let w := init (Some file1) None false no_options in
  exists w',
    addGroupPermission EVERYONE (One (Str READ)) w = (Ok tt, w')
    /\ let w_ctx := mkWorld (heap w')
                      (set_origin_context true
                         (Some "https://app.example.com")
                         (Some "https://alice.example.com") (this w')) in
       run (checkAccess file1 mallory READ (mkLoadOptions None false)) w_ctx
       = (Ok (Resolved true), w_ctx).
Proof.
  intros file1 mallory w.
  destruct (X13_public_permission_grants_everyone w file1 READ
              (One (Str READ))) as (w' & Hrun & _ & Hcheck).
  - apply wf_init.
  - reflexivity.
  - reflexivity.
  - vm_compute. reflexivity.
  - vm_compute. reflexivity.
  - left. reflexivity.
  - exists w'. split; [exact Hrun|apply Hcheck].
Defined.

Lemma X14_add_then_remove_restores_collection_witness :
  let file1 := "https://alice.example.com/docs/file1" in
  let bob := "https://bob.example.com/#me" in
  let w := init (Some file1) None false no_options in
  exists w1 w2,
    addPermission bob (One (Str READ)) None w = (Ok tt, w1)
    /\ isEmpty (this w1) = false
    /\ removePermission bob (One (Str READ)) w1 = (Ok tt, w2)
    /\ authorizations (this w2) = ∅.
Proof.
  intros file1 bob w.
  destruct (X14_add_then_remove_restores_collection w bob file1
              (One (Str READ)) None)
    as (w1 & w2 & a & p & Hadd & _ & _ & _ & _ & Hne & Hrm & Hauth & _).
  - apply wf_init.
  - reflexivity.
  - reflexivity.
  - reflexivity.
  - reflexivity.
  - reflexivity.
  - vm_compute. reflexivity.
  - reflexivity.
  - vm_compute. reflexivity.
  - unfold values. simpl. intros H. apply elem_of_singleton in H. discriminate H.
  - exists w1, w2. split; [exact Hadd|]. split; [exact Hne|].
    split; [exact Hrm|exact Hauth].
Defined.

Lemma X15_removePermission_noop_on_containers_witness :
  let docs := "https://alice.example.com/docs/" in
  let bob := "https://bob.example.com/#me" in
  let w := exec (addPermission bob (One (Str READ)) None)
             (init (Some docs) None true no_options) in
  count (this w) = 1
  /\ run (removePermission bob (One (Str READ))) w = (Ok tt, w).
Proof.
  intros docs bob w. split; [vm_compute; reflexivity|].
  apply (X15_removePermission_noop_on_containers (Some docs) None no_options
           w bob (One (Str READ)) None).
  - reflexivity.
  - apply (reach_addPermission _ (init (Some docs) None true no_options)
             bob (One (Str READ)) None w).
    + apply reach_start.
    + vm_compute. reflexivity.
Defined.

Lemma X16_checkAccess_without_group_loader_witness :
  let file2 := "https://alice.example.com/docs/file2.ttl" in
  let accounting := "https://alice.example.com/work-groups#Accounting" in
  let bob := "https://bob.example.com/profile/card#me" in
  let w := exec (addGroupPermission accounting (One (Str READ)))
             (init (Some file2) None false no_options) in
  run (checkAccess file2 bob READ (mkLoadOptions None true)) w
  = (Ok (Rejected "Cannot load groups, fetchGraph() not supplied"), w).
Proof.
  intros file2 accounting bob w.
  rewrite (X16_checkAccess_without_group_loader w file2 bob READ
             (mkLoadOptions None true)).
  - vm_compute. reflexivity.
  - apply (addGroupPermission_wf _ _ _ file2);
      [apply wf_init | reflexivity | reflexivity | vm_compute; reflexivity].
  - reflexivity.
  - left. reflexivity.
Defined.

Lemma X17_hasGroups_counts_groups_only_witness :
  let file2 := "https://alice.example.com/docs/file2.ttl" in
  let accounting := "https://alice.example.com/work-groups#Accounting" in
  let w := init (Some file2) None false no_options in
  hasGroups (this (exec (addGroupPermission accounting (One (Str READ))) w))
  = true
  /\ hasGroups (this (exec (addGroupPermission EVERYONE (One (Str READ))) w))
     = hasGroups (this w).
Proof.
  intros file2 accounting w. split.
  - destruct (X17_hasGroups_counts_groups_only w
                (exec (addGroupPermission accounting (One (Str READ))) w)
                accounting (One (Str READ)) None) as (_ & _ & H & _).
    apply H; [discriminate|reflexivity|vm_compute; reflexivity].
  - destruct (X17_hasGroups_counts_groups_only w
                (exec (addGroupPermission EVERYONE (One (Str READ))) w)
                accounting (One (Str READ)) None) as (_ & H & _).
    apply H. vm_compute. reflexivity.
Defined.

Lemma X18_addPermission_merge_ignores_origins_witness :
  let file1 := "https://alice.example.com/docs/file1" in
  let bob := "https://bob.example.com/#me" in
  let app := "https://app.example.com" in
  let w := exec (addPermission bob (One (Str READ)) None)
             (init (Some file1) None false no_options) in
  exists w' q',
    addPermission bob (One (Str WRITE)) (Some (One (Str app))) w = (Ok tt, w')
    /\ permissionFor bob None (this w') = Some 0
    /\ heap w' !! 0 = Some q'
    /\ Permission.allowsOrigin app q' = false.
Proof.
  intros file1 bob app w.
  destruct (heap w !! 0) as [q|] eqn:Hq; [|vm_compute in Hq; discriminate Hq].
  destruct (X18_addPermission_merge_ignores_origins w bob file1
              (One (Str WRITE)) (Some (One (Str app))) 0 q)
    as (w' & q' & Hrun & Hfor & Hq' & _ & Ho & _).
  - apply (addPermission_wf _ _ _ _ file1);
      [apply wf_init | reflexivity | reflexivity | reflexivity | reflexivity
      | vm_compute; reflexivity].
  - reflexivity.
  - reflexivity.
  - reflexivity.
  - vm_compute. reflexivity.
  - reflexivity.
  - vm_compute. reflexivity.
  - vm_compute. reflexivity.
  - vm_compute. reflexivity.
  - exact Hq.
  - exists w', q'. split; [exact Hrun|]. split; [exact Hfor|].
    split; [exact Hq'|].
    unfold Permission.allowsOrigin. rewrite Ho.
    vm_compute in Hq. injection Hq as <-. vm_compute. reflexivity.
Defined.


Lemma X20_initFromGraph_grants_stated_witness :
  let file1 := "https://alice.example.com/docs/file1" in
  let bob := "https://bob.example.com/#me" in
  let graph :=
    [Graph.mkTriple "#auth1" Graph.rdf_type Graph.acl_Authorization;
     Graph.mkTriple "#auth1" Graph.acl_agent bob;
     Graph.mkTriple "#auth1" Graph.acl_accessTo file1;
     Graph.mkTriple "#auth1" Graph.acl_mode READ] in
  let with_rdf := mkOptions None true false None None None in
  exists w',
    initFromGraph graph (init (Some file1) None false with_rdf)
    = (Ok tt, w')
    /\ run (checkAccess file1 bob READ (mkLoadOptions None false)) w'
       = (Ok (Resolved true), w').
Proof.
  intros file1 bob graph with_rdf.
  destruct (X20_initFromGraph_grants_stated
              (init (Some file1) None false with_rdf) graph
              "#auth1" bob file1 READ READ)
    as (w' & Hrun & _ & Hcheck).
  - apply wf_init.
  - reflexivity.
  - intros u Hu. by apply defaultAclUrlFor_truthy.
  - intros tr Htr _.
    repeat (apply elem_of_cons in Htr as [->|Htr]; [reflexivity|]).
    by apply elem_of_nil in Htr.
  - apply list_elem_of_here.
  - apply list_elem_of_further, list_elem_of_here.
  - reflexivity.
  - reflexivity.
  - do 2 apply list_elem_of_further. apply list_elem_of_here.
  - do 3 apply list_elem_of_further. apply list_elem_of_here.
  - vm_compute. reflexivity.
  - left. reflexivity.
  - exists w'. split; [exact Hrun|apply Hcheck].
Defined.

Lemma X21_buildGraph_statements_witness :
  let file1 := "https://alice.example.com/docs/file1" in
  let bob := "https://bob.example.com/#me" in
  let w := exec (addPermission bob (One (Str READ)) None)
             (init (Some file1) None false no_options) in
  exists g,
    run buildGraph w = (Ok g, w)
    /\ forall tr, tr ∈ g ->
         Graph.predicate tr = Graph.acl_accessTo ->
         truthy (Some (Graph.object tr)) = true.
Proof.
  intros file1 bob w.
  destruct (X21_buildGraph_statements w) as (g & Hrun & _ & _ & Hres).
  - apply (addPermission_wf _ _ _ _ file1);
      [apply wf_init | reflexivity | reflexivity | reflexivity | reflexivity
      | vm_compute; reflexivity].
  - exists g. split; [exact Hrun|].
    intros tr Htr Hp. apply (Hres tr Htr). left. exact Hp.
Defined.

Lemma X22_written_permissions_are_read_back_witness :
  let file1 := "https://alice.example.com/docs/file1" in
  let bob := "https://bob.example.com/#me" in
  let w := exec (addPermission bob (One (Str READ)) None)
             (init (Some file1) None false no_options) in
  let with_rdf := mkOptions None true false None None None in
  let w0 := init (Some file1) None false with_rdf in
  exists g w',
    run buildGraph w = (Ok g, w)
    /\ run (initFromGraph g) w0 = (Ok tt, w')
    /\ run (checkAccess file1 bob READ (mkLoadOptions None false)) w'
       = (Ok (Resolved true), w').
Proof.
  intros file1 bob w with_rdf w0.
  destruct (heap w !! 0) as [p|] eqn:Hp; [|vm_compute in Hp; discriminate Hp].
  assert (Hp' := Hp). vm_compute in Hp'. injection Hp' as Hp'.
  destruct (X22_written_permissions_are_read_back w w0
              (bob +:+ "-" +:+ file1 +:+ "-accessTo") bob file1 READ READ 0 p)
    as (g & w' & Hbuild & Hread & _ & Hcheck).
  - apply (addPermission_wf _ _ _ _ file1);
      [apply wf_init | reflexivity | reflexivity | reflexivity | reflexivity
      | vm_compute; reflexivity].
  - vm_compute. reflexivity.
  - exact Hp.
  - rewrite <- Hp'. reflexivity.
  - rewrite <- Hp'. reflexivity.
  - reflexivity.
  - reflexivity.
  - rewrite <- Hp'. reflexivity.
  - rewrite <- Hp'. vm_compute. set_solver.
  - vm_compute. reflexivity.
  - apply wf_init.
  - reflexivity.
  - intros u Hu. by apply defaultAclUrlFor_truthy.
  - left. reflexivity.
  - exists g, w'. split; [exact Hbuild|]. split; [exact Hread|apply Hcheck].
Defined.

Lemma X23_methods_keep_the_set_consistent_witness :
  let file1 := "https://alice.example.com/docs/file1" in
  let bob := "https://bob.example.com/#me" in
  let w := exec (removePermission bob (One (Str READ)))
             (exec (addPermission bob (One (Str READ)) None)
                (init (Some file1) None false no_options)) in
  authorizations (this w) = ∅
  /\ exists p, heap w !! 0 = Some p
               /\ string_of_null (Permission.webId p) = bob
               /\ Permission.accessType p = ACCESS_TO
               /\ Permission.resourceUrl p = Some file1.
Proof.
  intros file1 bob w. split; [vm_compute; reflexivity|].
  destruct (X23_methods_keep_the_set_consistent (Some file1) None false
              no_options w) as (_ & H & _).
  - reflexivity.
  - apply (reach_removePermission _
             (exec (addPermission bob (One (Str READ)) None)
                (init (Some file1) None false no_options))
             bob (One (Str READ)) w).
    + apply (reach_addPermission _ (init (Some file1) None false no_options)
               bob (One (Str READ)) None).
      * apply reach_start.
      * vm_compute. reflexivity.
    + vm_compute. reflexivity.
  - apply (H AGENT_INDEX bob ACCESS_TO file1 0). vm_compute. reflexivity.
Defined.

Lemma X24_checkGroupAccess_needs_loaded_listing_witness :
  let file2 := "https://alice.example.com/docs/file2.ttl" in
  let accounting := "https://alice.example.com/work-groups#Accounting" in
  let bob := "https://bob.example.com/profile/card#me" in
  let w := exec (addGroupPermission accounting (One (Str READ)))
             (init (Some file2) None false no_options) in
  run (checkGroupAccess file2 bob READ) w = (Ok false, w).
Proof.
  intros file2 accounting bob w.
  destruct (X24_checkGroupAccess_needs_loaded_listing w file2 bob READ)
    as (b & Hrun & Hb).
  - apply (addGroupPermission_wf _ _ _ file2);
      [apply wf_init | reflexivity | reflexivity | vm_compute; reflexivity].
  - rewrite Hrun. destruct b; [|reflexivity].
    destruct Hb as [Hb _]. destruct (Hb eq_refl) as (G & g & HG & _).
    vm_compute in HG. discriminate HG.
Defined.

End Instances.
